(** * TreeTime: node dating by message passing on a phylogenetic tree

    A shallow embedding of [tree_time/tree_time.py] (classes
    [DateConversion] and [TreeTime]) together with the properties the
    design document states about it.

    Conventions of the embedding.

    - Python and numpy floats are modelled as exact rationals ([Q]); two
      floats are "the same number" when they are [Qeq] ([==]).  Rounding
      is not modelled in these definitions.  Where rounding decides a
      statement (whether two neighbouring grid points stay apart, whether
      a date survives a round trip) the arithmetic is repeated in module
      [F64] with the kernel's binary64 numbers and evaluated there.
    - An exception is a value of [exn]; a computation that may raise has
      type [result A].  A float operation whose outcome is not a finite
      number (a division by zero) is reported as [Raise DivByZero].
    - numpy arrays are lists; a [scipy.interpolate.interp1d] object is
      the record [interp] holding its attributes [x] and [y].
    - The collaborators that live outside the file ([np.exp], [np.log],
      [scipy.optimize.minimize_scalar], [stats.linregress],
      [gtr.prob_t]) are section variables. *)

From stdpp Require Import base option list strings gmap pretty.
From Stdlib Require Import QArith Qabs Qminmax Lqa Lia Sorted Permutation.
From Corelib Require PrimFloat.

Open Scope Q_scope.
Set Warnings "-register-all".
Set Warnings "-inexact-float".

(** ** Exceptions *)

Inductive exn : Set :=
| IndexError | ValueError | AttributeError | TypeError | DivByZero.

Inductive result (A : Type) : Type :=
| Ok (a : A)
| Raise (e : exn).
Arguments Ok {A} a.
Arguments Raise {A} e.

#[export] Instance result_ret : MRet result := fun A a => Ok a.
#[export] Instance result_bind : MBind result := fun A B f m =>
  match m with Ok a => f a | Raise e => Raise e end.
#[export] Instance result_fmap : FMap result := fun A B f m =>
  match m with Ok a => Ok (f a) | Raise e => Raise e end.

Fixpoint mapR {A B : Type} (f : A -> result B) (l : list A) : result (list B) :=
  match l with
  | [] => Ok []
  | a :: l' => b ← f a; bs ← mapR f l'; Ok (b :: bs)
  end.

Definition is_ok {A : Type} (r : result A) : bool :=
  match r with Ok _ => true | Raise _ => false end.

(** ** Floats as rationals *)

Definition Qltb (a b : Q) : bool := negb (Qle_bool b a).

(** [a / b] on floats; a zero divisor gives no finite number. *)
Definition fdiv (a b : Q) : result Q :=
  if Qeq_bool b 0 then Raise DivByZero else Ok (a / b).

Definition sumQ (l : list Q) : Q := foldr Qplus 0 l.

Fixpoint minQ (d : Q) (l : list Q) : Q :=
  match l with
  | [] => d
  | a :: l' => minQ (if Qltb a d then a else d) l'
  end.

(** [np.min] / [ndarray.min]: [ValueError] on an empty array. *)
Definition np_min (l : list Q) : result Q :=
  match l with [] => Raise ValueError | a :: l' => Ok (minQ a l') end.

Definition np_max (l : list Q) : result Q :=
  m ← np_min (map Qopp l); Ok (- m).

Definition np_mean (l : list Q) : result Q :=
  fdiv (sumQ l) (inject_Z (Z.of_nat (length l))).

(** [ndarray.argmin]: index of the first occurrence of the minimum. *)
Fixpoint argmin_from (i best : nat) (vbest : Q) (l : list Q) : nat :=
  match l with
  | [] => best
  | a :: l' =>
      if Qltb a vbest then argmin_from (S i) i a l'
      else argmin_from (S i) best vbest l'
  end.

Definition argmin (l : list Q) : result nat :=
  match l with [] => Raise ValueError | a :: l' => Ok (argmin_from 1 0 a l') end.

(** ** numpy arrays *)

(** A Python index into a sequence of length [len]; negative indices
    count from the end. *)
Definition py_index (len : nat) (i : Z) : result nat :=
  if ((0 <=? i) && (i <? Z.of_nat len))%Z then Ok (Z.to_nat i)
  else if ((i <? 0) && (- Z.of_nat len <=? i))%Z then Ok (Z.to_nat (Z.of_nat len + i))
  else Raise IndexError.

(** [a[(idx,)] = v] for a tuple of integer indices [idx]. *)
Definition setitems {A : Type} (idx : list Z) (v : A) (a : list A) : result (list A) :=
  js ← mapR (py_index (length a)) idx;
  Ok (foldl (fun acc j => <[j:=v]> acc) a js).

(** [np.linspace(start, stop, num)] with the end point included.  numpy
    stores [stop] itself in the last cell, the same number as
    [start + (num-1)*step] in exact arithmetic (lemma [linspace_last]). *)
Definition linspace (start stop : Q) (num : nat) : list Q :=
  let step := (stop - start) / inject_Z (Z.of_nat (num - 1)) in
  map (fun i => inject_Z (Z.of_nat i) * step + start) (seq 0 num).

(** [np.diff] of a one-dimensional array. *)
Fixpoint np_diff (l : list Q) : list Q :=
  match l with
  | a :: (b :: _) as l' => (b - a) :: np_diff l'
  | _ => []
  end.

(** [np.unique] of a one-dimensional array: sorted, without repetitions. *)
Fixpoint insert_unique (v : Q) (l : list Q) : list Q :=
  match l with
  | [] => [v]
  | a :: l' =>
      match v ?= a with
      | Lt => v :: l
      | Eq => l
      | Gt => a :: insert_unique v l'
      end
  end.

Definition np_unique (l : list Q) : list Q := foldr insert_unique [] l.

Definition clipQ (lo hi v : Q) : Q :=
  if Qltb v lo then lo else if Qltb hi v then hi else v.

(** ** scipy.interpolate.interp1d, kind='linear' *)

Record interp : Type := Interp { interp_x : list Q; interp_y : list Q }.

(** [interp1d] sorts the sample points by abscissa when it is built
    ([assume_sorted=False]); the sort used here is the stable one. *)
Fixpoint insert_by_x (p : Q * Q) (l : list (Q * Q)) : list (Q * Q) :=
  match l with
  | [] => [p]
  | q :: l' => if Qle_bool p.1 q.1 then p :: l else q :: insert_by_x p l'
  end.

Definition sort_by_x (l : list (Q * Q)) : list (Q * Q) := foldr insert_by_x [] l.

Definition interp1d (xs ys : list Q) : result interp :=
  if negb (length xs =? length ys)%nat then Raise ValueError
  else
    let ps := sort_by_x (zip xs ys) in
    Ok (Interp (map fst ps) (map snd ps)).

(** [np.searchsorted(xs, v)] (side left) on a sorted array. *)
Fixpoint searchsorted (xs : list Q) (v : Q) : nat :=
  match xs with
  | [] => 0
  | a :: xs' => if Qltb a v then S (searchsorted xs' v) else 0
  end.

(** [f(v)]: bounds are checked ([bounds_error=True]), then the value is
    interpolated on the interval found by [searchsorted]. *)
Definition interp_call (f : interp) (v : Q) : result Q :=
  let xs := interp_x f in
  let ys := interp_y f in
  match xs with
  | [] => Raise IndexError
  | x0 :: _ =>
      if Qltb v x0 || Qltb (List.last xs x0) v then Raise ValueError
      else
        let n := length xs in
        let hi := Nat.min (Nat.max (searchsorted xs v) 1) (n - 1) in
        let lo := (hi - 1)%nat in
        let x_lo := nth lo xs 0 in
        let x_hi := nth hi xs 0 in
        let y_lo := nth lo ys 0 in
        let y_hi := nth hi ys 0 in
        slope ← fdiv (y_hi - y_lo) (x_hi - x_lo);
        Ok (slope * (v - x_lo) + y_lo)
  end.

(** ** Class constants of [TreeTime] *)

Definition MIN_T : Q := Eval vm_compute in -1e5.
Definition MAX_T : Q := Eval vm_compute in 1e5.
Definition MIN_LOG : Q := Eval vm_compute in -1000.

(** ** Output *)

(** What [print] writes, one entry per call. *)
Definition output := list string.

(** ** DateConversion *)

Module DateConversion.

Record t : Type := Make {
  slope : Q;
  intersect : Q;
  r_val : Q;
  pi_val : Q;
  sigma : Q
}.

(** [__init__] *)
Definition init : t := Make 0 0 0 0 0.

(** [get_branch_len] *)
Definition get_branch_len (self : t) (date1 date2 : Q) : Q :=
  Qabs (date1 - date2) * slope self.

Definition negative_date_warning : string :=
  "Warning: got the negative date! Returning the inverse.".

(** [get_date]: the value returned and what was printed. *)
Definition get_date (self : t) (abs_t : Q) : result (Q * output) :=
  year ← fdiv (intersect self - abs_t) (slope self);
  if Qltb year 0 then Ok (Qabs year, [negative_date_warning])
  else Ok (year, []).

End DateConversion.

(** ** Tree nodes *)

(** A Python attribute that may not have been set on the object. *)
Inductive attr (A : Type) : Type :=
| Absent
| Present (a : A).
Arguments Absent {A}.
Arguments Present {A} a.

Definition getattr {A : Type} (a : attr A) : result A :=
  match a with Absent => Raise AttributeError | Present v => Ok v end.

(** The attributes of a clade that the class reads or writes.
    [raw_date] is in days before present; [date] is [None] until
    [_set_final_date] stores a finite value. *)
Record node : Type := Node {
  name : option string;
  raw_date : attr (option Z);
  abs_t : Q;
  branch_length : Q;
  dist2root : Q;
  date : option Q;
  neg_log_prob : attr (option interp);
  branch_neg_log_prob : option interp;
  ml_t_prefactor : Q;
  profile : list (list Q)
}.

(** A clade with its sub-clades ([node.clades]); [node.up] is the clade
    one level above, [None] at the root. *)
Inductive clade : Type :=
| Clade (n : node) (clades : list clade).

Definition root (c : clade) : node := match c with Clade n _ => n end.
Definition clades (c : clade) : list clade := match c with Clade _ cs => cs end.
Definition is_terminal (c : clade) : bool :=
  match clades c with [] => true | _ => false end.

(** [find_clades(order='preorder')], the default order. *)
Fixpoint preorder (c : clade) : list node :=
  match c with Clade n cs => n :: flat_map preorder cs end.

Fixpoint get_terminals (c : clade) : list node :=
  match c with
  | Clade n [] => [n]
  | Clade n cs => flat_map get_terminals cs
  end.

(** Each non-root node paired with its parent. *)
Fixpoint edges (c : clade) : list (node * node) :=
  match c with
  | Clade n cs => map (fun k => (n, root k)) cs ++ flat_map edges cs
  end.

(** ** Setting the dates *)

(** A [datetime] is a number of microseconds on the time axis;
    [(a - b).days] is the floor of the difference in days. *)
Definition datetime := Z.
Definition timedelta_days (a b : datetime) : Z := ((a - b) / 86400000000)%Z.

Definition later_than_today : string :=
  "Cannot set the date! the specified date is later  than today".

Definition set_raw_date (n : node) (v : attr (option Z)) : node :=
  Node (name n) v (abs_t n) (branch_length n) (dist2root n) (date n)
       (neg_log_prob n) (branch_neg_log_prob n) (ml_t_prefactor n) (profile n).

(** One turn of the loop of [_set_dates_to_all_nodes]. *)
Definition set_date_of_node (now : datetime) (dates_dic : gmap string (option datetime))
    (n : node) : node * output :=
  match name n ≫= (dates_dic !!.) with
  | Some (Some d) =>
      let days_before_present := timedelta_days now d in
      if (days_before_present <? 0)%Z then (n, [later_than_today])
      else (set_raw_date n (Present (Some days_before_present)), [])
  | _ => (set_raw_date n (Present None), [])
  end.

(** The loop of [_set_dates_to_all_nodes] over the preorder of the tree. *)
Fixpoint set_dates_loop (now : datetime) (dates_dic : gmap string (option datetime))
    (c : clade) : clade * output :=
  match c with
  | Clade n cs =>
      let '(n', out) := set_date_of_node now dates_dic n in
      let rs := map (set_dates_loop now dates_dic) cs in
      (Clade n' (map fst rs), out ++ concat (map snd rs))
  end.

(** The key [lambda x: x.raw_date] of [reroot_to_oldest], read on every
    terminal before the tree is rerooted. *)
Definition reroot_keys (c : clade) : result (list (option Z)) :=
  mapR (fun n => getattr (raw_date n)) (get_terminals c).

Section Reroot.
(** [Bio.Phylo]'s [root_with_outgroup] and [TreeAnc._add_node_params]. *)
Variable root_with_outgroup : clade -> nat -> clade.
Variable _add_node_params : clade -> clade.

(** Position of the last element of [sorted(keys)]: the largest key,
    the last one among equals; [None] sorts before every integer. *)
Definition key_le (a b : option Z) : bool :=
  match a, b with
  | None, _ => true
  | Some _, None => false
  | Some u, Some v => (u <=? v)%Z
  end.

Fixpoint last_sorted_from (i best : nat) (kbest : option Z) (l : list (option Z)) : nat :=
  match l with
  | [] => best
  | k :: l' =>
      if key_le kbest k then last_sorted_from (S i) i k l'
      else last_sorted_from (S i) best kbest l'
  end.

Definition last_sorted (l : list (option Z)) : result nat :=
  match l with [] => Raise IndexError | k :: l' => Ok (last_sorted_from 1 0 k l') end.

Definition reroot_to_oldest (c : clade) : result clade :=
  keys ← reroot_keys c;
  i ← last_sorted keys;
  let c' := root_with_outgroup c i in
  Ok (_add_node_params (Clade (set_raw_date (root c') (Present None)) (clades c'))).

Definition _set_dates_to_all_nodes (now : datetime)
    (dates_dic : gmap string (option datetime)) (c : clade) : result clade * output :=
  let '(c', out) := set_dates_loop now dates_dic c in
  (reroot_to_oldest c', out).
End Reroot.

(** ** Fitting the conversion *)

Section FromTree.
(** [scipy.stats.linregress(x, y)]: slope, intercept, r, p, stderr. *)
Variable linregress : list Q -> list Q -> result (Q * Q * Q * Q * Q).

(** The pairs [(raw_date, dist2root)] of the dated nodes. *)
Definition dated_pairs (c : clade) : result (list (Q * Q)) :=
  rs ← mapR (fun n => d ← getattr (raw_date n);
                      Ok (match d with
                          | Some d => [(inject_Z d, dist2root n)]
                          | None => []
                          end)) (preorder c);
  Ok (concat rs).

(** [DateConversion.from_tree].  [np.array([])] is one-dimensional, so
    [dates[:, 0]] raises [IndexError] when no node is dated. *)
Definition from_tree (c : clade) : result DateConversion.t :=
  dates ← dated_pairs c;
  match dates with
  | [] => Raise IndexError
  | _ =>
      '(s, i, r, p, e) ← linregress (map fst dates) (map snd dates);
      Ok (DateConversion.Make s i r p e)
  end.
End FromTree.

(** ** Field updates *)

Definition set_abs_t (n : node) (v : Q) : node :=
  Node (name n) (raw_date n) v (branch_length n) (dist2root n) (date n)
       (neg_log_prob n) (branch_neg_log_prob n) (ml_t_prefactor n) (profile n).
Definition set_branch_length (n : node) (v : Q) : node :=
  Node (name n) (raw_date n) (abs_t n) v (dist2root n) (date n)
       (neg_log_prob n) (branch_neg_log_prob n) (ml_t_prefactor n) (profile n).
Definition set_dist2root (n : node) (v : Q) : node :=
  Node (name n) (raw_date n) (abs_t n) (branch_length n) v (date n)
       (neg_log_prob n) (branch_neg_log_prob n) (ml_t_prefactor n) (profile n).
Definition set_date (n : node) (v : option Q) : node :=
  Node (name n) (raw_date n) (abs_t n) (branch_length n) (dist2root n) v
       (neg_log_prob n) (branch_neg_log_prob n) (ml_t_prefactor n) (profile n).
Definition set_neg_log_prob (n : node) (v : option interp) : node :=
  Node (name n) (raw_date n) (abs_t n) (branch_length n) (dist2root n) (date n)
       (Present v) (branch_neg_log_prob n) (ml_t_prefactor n) (profile n).
Definition set_branch_neg_log_prob (n : node) (v : option interp) : node :=
  Node (name n) (raw_date n) (abs_t n) (branch_length n) (dist2root n) (date n)
       (neg_log_prob n) v (ml_t_prefactor n) (profile n).
Definition set_ml_t_prefactor (n : node) (v : Q) : node :=
  Node (name n) (raw_date n) (abs_t n) (branch_length n) (dist2root n) (date n)
       (neg_log_prob n) (branch_neg_log_prob n) v (profile n).

(** ** TreeTime *)

(** The instance attributes the methods below read. *)
Record TreeTime : Type := MkTreeTime {
  tree : clade;
  date2dist : option DateConversion.t;
  max_node_abs_t : Q
}.

Definition with_tree (self : TreeTime) (c : clade) : TreeTime :=
  MkTreeTime c (date2dist self) (max_node_abs_t self).
Definition with_max_node_abs_t (self : TreeTime) (v : Q) : TreeTime :=
  MkTreeTime (tree self) (date2dist self) v.

(** [Bio.Phylo]: number of terminals and sum of the branch lengths. *)
Definition count_terminals (c : clade) : nat := length (get_terminals c).
Definition total_branch_length (c : clade) : Q := sumQ (map branch_length (preorder c)).

(** The property [average_branch_len]. *)
Definition average_branch_len (self : TreeTime) : result Q :=
  let tot_branches := ((Z.of_nat (count_terminals (tree self)) - 1) * 2)%Z in
  let tot_len := total_branch_length (tree self) in
  fdiv tot_len (inject_Z tot_branches).

(** Float literals of the source. *)
Definition lit_1e_5 : Q := Eval vm_compute in 1e-5.
Definition lit_1e_10 : Q := Eval vm_compute in 1e-10.
Definition lit_1e10 : Q := Eval vm_compute in 1e10.
Definition lit_1e_30 : Q := Eval vm_compute in 1e-30.
Definition lit_1e_100 : Q := Eval vm_compute in 1e-100.
Definition lit_0_01 : Q := Eval vm_compute in 0.01.
Definition lit_0_1 : Q := Eval vm_compute in 0.1.
Definition lit_0_25 : Q := Eval vm_compute in 0.25.
Definition lit_0_5 : Q := Eval vm_compute in 0.5.

(** [_min_interp]: the grid point at which the sampled curve is lowest. *)
Definition _min_interp (interp_object : interp) : result Q :=
  vals ← mapR (interp_call interp_object) (interp_x interp_object);
  i ← argmin vals;
  Ok (nth i (interp_x interp_object) 0).

(** [_find_node_opt_pos] *)
Definition _find_node_opt_pos (n : node) : result (option Q) :=
  match neg_log_prob n with
  | Absent | Present None => Ok None
  | Present (Some f) => o ← _min_interp f; Ok (Some o)
  end.

(** [_make_node_grid], for a center [opt] that is a number. *)
Definition _make_node_grid (self : TreeTime) (opt : Q) (grid_size : nat) (variance : Q)
    : list Q :=
  let scale := max_node_abs_t self * variance in
  let grid_root :=
    map (fun s => opt - scale * s ^ 2) (linspace 1 lit_1e_5 (grid_size / 2 - 1)) in
  let grid_leaves :=
    map (fun s => opt + scale * s ^ 2) (linspace 0 1 (grid_size / 2)) in
  [MIN_T] ++ grid_root ++ grid_leaves ++ [MAX_T].

(** [_make_node_grid] called with [opt] that may be [None]:
    [None - ndarray] is a [TypeError]. *)
Definition make_node_grid_opt (self : TreeTime) (opt : option Q) (grid_size : nat)
    (variance : Q) : result (list Q) :=
  match opt with
  | None => Raise TypeError
  | Some o => Ok (_make_node_grid self o grid_size variance)
  end.

(** The two-tier boundary values: [a[((0,-1),)] = outer] then
    [a[((1,-2),)] = inner]. *)
Definition set_sentinels {A : Type} (outer inner : A) (a : list A) : result (list A) :=
  a ← setitems [0; -1]%Z outer a;
  setitems [1; -2]%Z inner a.

(** [prob2D.T] for an array with [k] columns. *)
Definition transpose (k : nat) (rows : list (list Q)) : list (list Q) :=
  map (fun j => map (fun row => nth j row 0) rows) (seq 0 k).

(** [np.sum(rows, axis=0)] for rows of length [k]. *)
Definition sum_axis0 (k : nat) (rows : list (list Q)) : list Q :=
  foldr (zip_with Qplus) (replicate k 0) rows.

(** [(0.5 * (row[1:] + row[:-1]) * dx).sum()] *)
Definition trapezoid (dx row : list Q) : Q :=
  sumQ (zip_with Qmult
          (map (Qmult lit_0_5) (zip_with Qplus (tail row) (removelast row))) dx).

(** [scipy.optimize.OptimizeResult], the two fields that are read. *)
Record OptimizeResult : Type := MkOptimizeResult { success : bool; opt_x : Q }.

Definition the_interp (o : option interp) (e : exn) : result interp :=
  match o with Some f => Ok f | None => Raise e end.

Section Core.
(** [np.exp], [np.log], [scipy.optimize.minimize_scalar] with
    [method='bounded'] over [bounds], and [gtr.prob_t] with
    [return_log=True]. *)
Variable exp : Q -> Q.
Variable log : Q -> Q.
Variable minimize_scalar : (Q -> result Q) -> Q -> Q -> result OptimizeResult.
Variable prob_t : list (list Q) -> list (list Q) -> Q -> Q.

(** The part shared by [_convolve] and [_parent_neg_log_prob] once the
    grids are known: lines 464-486 and 516-538. *)
Definition convolve_on_grid (src branch : interp) (source_grid target_grid : list Q)
    (grid2D : list (list Q)) : result interp :=
  let k := length target_grid in
  let grid2D := map (map (clipQ MIN_T MAX_T)) grid2D in
  logprob2D ← mapR (mapR (interp_call branch)) grid2D;
  logprob2D ← mapR (setitems [1; -2]%Z (-1 * MIN_LOG / 2)) logprob2D;
  logprob2D ← setitems [1; -2]%Z (replicate k (-1 * MIN_LOG / 2)) logprob2D;
  logprob2D ← mapR (setitems [0; -1]%Z (-1 * MIN_LOG)) logprob2D;
  logprob2D ← setitems [0; -1]%Z (replicate k (-1 * MIN_LOG)) logprob2D;
  let prob2D := map (map (fun v => exp (-1 * v))) logprob2D in
  let dx := np_diff source_grid in
  src_vals ← mapR (interp_call src) source_grid;
  let prob_source := map (fun v => exp (-1 * v)) src_vals in
  let d_conv := map (fun col => zip_with Qmult col prob_source) (transpose k prob2D) in
  let conv := map (trapezoid dx) d_conv in
  let p_logprob := map (fun c => log (c + lit_1e_100)) conv in
  p_logprob ← set_sentinels MIN_LOG (MIN_LOG / 2) p_logprob;
  interp1d target_grid (map (Qmult (-1)) p_logprob).

(** The branch length at which the branch curve is lowest, [0.0] when
    the optimizer reports no success. *)
Definition opt_branch_length (self : TreeTime) (branch : interp) : result Q :=
  opt_branch_len ← minimize_scalar (interp_call branch) 0 (2 * max_node_abs_t self);
  Ok (if success opt_branch_len then opt_x opt_branch_len else 0).

(** [_convolve].  Either curve may be [None]: reading [None.x] is an
    [AttributeError], calling [None] a [TypeError].  [_min_interp] never
    returns [None], so the test [opt_source_pos is not None] holds. *)
Definition _convolve (self : TreeTime) (src_neglogprob : option interp)
    (src_branch_neglogprob : option interp) (inverse_time : bool) (grid_size : nat)
    : result interp :=
  src ← the_interp src_neglogprob AttributeError;
  opt_source_pos ← _min_interp src;
  branch ← the_interp src_branch_neglogprob TypeError;
  opt_branch_len ← opt_branch_length self branch;
  let opt_target_pos := opt_source_pos - opt_branch_len in
  let source_grid := interp_x src in
  let target_grid := _make_node_grid self opt_target_pos grid_size lit_0_25 in
  let grid2D := map (fun s => map (fun t => s - t) target_grid) source_grid in
  let grid2D := if inverse_time then grid2D else map (map (fun v => v * -1)) grid2D in
  convolve_on_grid src branch source_grid target_grid grid2D.

(** [_parent_neg_log_prob] *)
Definition _parent_neg_log_prob (self : TreeTime) (n : node) (grid_size : nat)
    : result interp :=
  opt_node_pos ← _find_node_opt_pos n;
  branch ← the_interp (branch_neg_log_prob n) TypeError;
  opt_branch_len ← opt_branch_length self branch;
  let opt_parent_pos := (fun p => p - opt_branch_len) <$> opt_node_pos in
  nlp ← getattr (neg_log_prob n);
  src ← the_interp nlp AttributeError;
  let node_grid := interp_x src in
  parent_grid ← make_node_grid_opt self opt_parent_pos grid_size lit_0_25;
  let grid2D := map (fun s => map (fun t => s - t) parent_grid) node_grid in
  convolve_on_grid src branch node_grid parent_grid grid2D.

(** The grid of [_multiply_dists], lines 568-581: the union of the input
    grids when one of them is short, a fresh grid around the mean of the
    optima otherwise. *)
Definition multiply_grid (self : TreeTime) (interps : list interp) (grid_size : nat)
    : result (list Q) :=
  min_grid_size ← np_min (map (fun k => inject_Z (Z.of_nat (length (interp_x k)))) interps);
  if Qltb min_grid_size 10 then
    Ok (np_unique (concat (map interp_x interps)))
  else
    opts ← mapR _min_interp interps;
    hi ← np_max opts;
    lo ← np_min opts;
    scale ← fdiv (2 * Qmax (Qabs (hi - lo)) lit_0_01) (max_node_abs_t self);
    center ← np_mean opts;
    Ok (_make_node_grid self center grid_size scale).

(** [np.sum([k(grid) for k in interps], axis=0)] *)
Definition pointwise_sum (interps : list interp) (grid : list Q) : result (list Q) :=
  rows ← mapR (fun k => mapR (interp_call k) grid) interps;
  Ok (sum_axis0 (length grid) rows).

(** [_multiply_dists] *)
Definition _multiply_dists (self : TreeTime) (interps : list interp) (prefactors : list Q)
    (grid_size : nat) : result (interp * Q) :=
  let ml_t_prefactor := sumQ prefactors in
  grid ← multiply_grid self interps grid_size;
  node_prob ← pointwise_sum interps grid;
  pre ← np_min node_prob;
  let node_prob := map (fun v => v - pre) node_prob in
  let ml_t_prefactor := ml_t_prefactor + pre in
  node_prob ← set_sentinels (-1 * MIN_LOG) (-1 * MIN_LOG / 2) node_prob;
  f ← interp1d grid node_prob;
  Ok (f, ml_t_prefactor).

(** The grid of branch lengths of [_make_branch_len_interpolator],
    lines 286-299, before the boundary points are added. *)
Definition branch_len_grid (self : TreeTime) (nd : node) (n : nat) : result (list Q) :=
  if Qltb (branch_length nd) lit_1e_5 then
    let sigma := Qmax lit_0_01 (lit_0_1 * max_node_abs_t self) in
    Ok (map (fun s => sigma * s ^ 2) (linspace 0 1 n))
  else
    sigma ← (avg ← average_branch_len self; Ok (Qmax avg (branch_length nd)));
    let grid_left :=
      map (fun s => branch_length nd * (1 - s ^ 2)) (linspace 1 0 (n / 2)) in
    let grid_right :=
      map (fun s => branch_length nd + 3 * sigma * s ^ 2) (linspace 0 1 (n / 2)) in
    Ok (grid_left ++ grid_right).

(** The curve over a grid of branch lengths, lines 301-310; [prob] is
    [gtr.prob_t] at the two profiles. *)
Definition branch_len_curve (prob : Q -> Q) (grid : list Q) : result interp :=
  let grid := [MIN_T; - lit_1e_30] ++ grid ++ [MAX_T] in
  let logprob := [0; 0] ++ map prob (removelast (drop 2 grid)) ++ [0] in
  logprob ← set_sentinels MIN_LOG (MIN_LOG / 2) logprob;
  let logprob := map (fun v => v * -1) logprob in
  interp1d grid logprob.

(** [_make_branch_len_interpolator]; [up] is [node.up]. *)
Definition _make_branch_len_interpolator (self : TreeTime) (up : option node) (nd : node)
    (n : nat) : result node :=
  match up with
  | None => Ok (set_branch_neg_log_prob nd None)
  | Some parent =>
      let prof_p := profile parent in
      let prof_ch := profile nd in
      grid ← branch_len_grid self nd n;
      f ← branch_len_curve (prob_t prof_p prof_ch) grid;
      Ok (set_branch_neg_log_prob nd (Some f))
  end.

(** The constraint of a dated node in [_ml_t_init]: a narrow well at
    [abs_t]. *)
Definition delta_neg_log_prob (abs_t : Q) : result interp :=
  let grid := [MIN_T] ++ map (Qmult abs_t) [1 - lit_1e_10; 1; 1 + lit_1e_10] ++ [MAX_T] in
  interp1d grid
    (map (Qmult (-1)) [MIN_LOG; MIN_LOG / 2; log lit_1e10; MIN_LOG / 2; MIN_LOG]).

(** The body of the loop of [_ml_t_init] for one node; the rotated
    profiles it also stores are not read by any method modelled here. *)
Definition ml_t_init_node (self : TreeTime) (dc : DateConversion.t) (up : option node)
    (nd : node) : result (TreeTime * node) :=
  rd ← getattr (raw_date nd);
  nd ← match rd with
       | Some d =>
           let t := inject_Z d * DateConversion.slope dc + DateConversion.intersect dc in
           f ← delta_neg_log_prob t;
           Ok (set_neg_log_prob (set_abs_t nd t) (Some f))
       | None => Ok (set_neg_log_prob (set_abs_t nd (dist2root nd)) None)
       end;
  let self := if Qltb (max_node_abs_t self) (abs_t nd)
              then with_max_node_abs_t self (abs_t nd) else self in
  nd ← _make_branch_len_interpolator self up nd 25;
  Ok (self, set_ml_t_prefactor nd 0).

(** The loop of [_ml_t_init] over the preorder; the running maximum
    [max_node_abs_t] is threaded through the nodes. *)
Fixpoint ml_t_init_clade (self : TreeTime) (dc : DateConversion.t) (up : option node)
    (c : clade) : result (TreeTime * clade) :=
  match c with
  | Clade nd cs =>
      '(self, nd') ← ml_t_init_node self dc up nd;
      '(self, cs') ←
        (fix go (self : TreeTime) (cs : list clade) : result (TreeTime * list clade) :=
           match cs with
           | [] => Ok (self, [])
           | k :: cs0 =>
               '(self, k') ← ml_t_init_clade self dc (Some nd') k;
               '(self, cs0') ← go self cs0;
               Ok (self, k' :: cs0')
           end) self cs;
      Ok (self, Clade nd' cs')
  end.

(** [_ml_t_init] *)
Definition _ml_t_init (self : TreeTime) : result TreeTime * output :=
  match date2dist self with
  | None => (Ok self, ["error"%string])
  | Some dc =>
      ('(self', c) ← ml_t_init_clade self dc None (tree self);
       Ok (with_tree self' c), [])
  end.

(** [_set_final_date]; [up] is [node.up], already final in the
    down-pass.  A date that is not a finite number is stored as [None]. *)
Definition _set_final_date (self : TreeTime) (up : option node) (nd : node) : result node :=
  nlp ← getattr (neg_log_prob nd);
  f ← the_interp nlp AttributeError;
  t ← _min_interp f;
  let nd := set_abs_t nd t in
  let nd :=
    match up with
    | Some parent =>
        let nd := set_branch_length nd (abs_t nd - abs_t parent) in
        set_dist2root nd (dist2root parent + branch_length nd)
    | None =>
        set_dist2root (set_branch_length nd 1) 0
    end in
  dc ← match date2dist self with Some dc => Ok dc | None => Raise AttributeError end;
  let d := match fdiv (abs_t nd - DateConversion.intersect dc) (DateConversion.slope dc) with
           | Ok d => Some d
           | Raise _ => None
           end in
  Ok (set_date nd d).

(** The body of the loop of [_ml_t_leaves_root] for an internal node
    whose sub-clades [cs] have been visited. *)
Definition leaves_root_node (self : TreeTime) (nd : node) (cs : list node)
    (grid_size : nat) : result node :=
  match neg_log_prob nd with
  | Present (Some _) => Ok nd
  | _ =>
      nlps ← mapR (fun k => f ← getattr (neg_log_prob k); Ok (k, f)) cs;
      let informative :=
        omap (fun kf => match snd kf with Some f => Some (fst kf, f) | None => None end)
             nlps in
      match informative with
      | [] => Ok nd
      | _ =>
          msgs ← mapR (fun kf =>
                         _convolve self (Some (snd kf)) (branch_neg_log_prob (fst kf))
                           true grid_size) informative;
          '(new_neglogprob, prefactor) ←
            _multiply_dists self msgs (map ml_t_prefactor cs) grid_size;
          Ok (set_ml_t_prefactor (set_neg_log_prob nd (Some new_neglogprob))
                (ml_t_prefactor nd + prefactor))
      end
  end.

(** [_ml_t_leaves_root]: postorder, terminals are skipped. *)
Fixpoint leaves_root_clade (self : TreeTime) (grid_size : nat) (c : clade) : result clade :=
  match c with
  | Clade nd [] => Ok (Clade nd [])
  | Clade nd cs =>
      cs' ← mapR (leaves_root_clade self grid_size) cs;
      nd' ← leaves_root_node self nd (map root cs') grid_size;
      Ok (Clade nd' cs')
  end.

Definition _ml_t_leaves_root (self : TreeTime) (grid_size : nat) : result TreeTime :=
  c ← leaves_root_clade self grid_size (tree self);
  Ok (with_tree self c).

(** The body of the loop of [_ml_t_root_leaves] for one node.  The
    message printed when the attribute is missing and the debugger stop
    ([ipdb.set_trace]) leave the state unchanged; the two optima compared
    before that stop are still computed. *)
Definition root_leaves_node (self : TreeTime) (up : option node) (nd : node)
    (grid_size : nat) : result node :=
  match up with
  | None => _set_final_date self None nd
  | Some parent =>
      nlp ← getattr (neg_log_prob nd);
      up_nlp ← getattr (neg_log_prob parent);
      msg_from_root ← _convolve self up_nlp (branch_neg_log_prob nd) false grid_size;
      nd ← match nlp with
           | Some own =>
               '(final_prob, final_pre) ←
                 _multiply_dists self [msg_from_root; own]
                   [ml_t_prefactor nd; ml_t_prefactor parent] grid_size;
               o1 ← _min_interp final_prob;
               up_f ← the_interp up_nlp AttributeError;
               o2 ← _min_interp up_f;
               let stop_in_debugger := Qltb o1 o2 in
               Ok (set_ml_t_prefactor (set_neg_log_prob nd (Some final_prob)) final_pre)
           | None =>
               Ok (set_ml_t_prefactor (set_neg_log_prob nd (Some msg_from_root))
                     (ml_t_prefactor parent))
           end;
      _set_final_date self (Some parent) nd
  end.

(** [_ml_t_root_leaves]: preorder. *)
Fixpoint root_leaves_clade (self : TreeTime) (grid_size : nat) (up : option node)
    (c : clade) : result clade :=
  match c with
  | Clade nd cs =>
      nd' ← root_leaves_node self up nd grid_size;
      cs' ← mapR (root_leaves_clade self grid_size (Some nd')) cs;
      Ok (Clade nd' cs')
  end.

Definition _ml_t_root_leaves (self : TreeTime) (grid_size : nat) : result TreeTime :=
  c ← root_leaves_clade self grid_size None (tree self);
  Ok (with_tree self c).

(** [_ml_t_root_leaves_tmp] *)
Fixpoint root_leaves_tmp_clade (self : TreeTime) (up : option node) (c : clade)
    : result clade :=
  match c with
  | Clade nd cs =>
      nd' ← _set_final_date self up nd;
      cs' ← mapR (root_leaves_tmp_clade self (Some nd')) cs;
      Ok (Clade nd' cs')
  end.

Definition _ml_t_root_leaves_tmp (self : TreeTime) : result TreeTime :=
  c ← root_leaves_tmp_clade self None (tree self);
  Ok (with_tree self c).

(** [ml_t] *)
Definition ml_t (self : TreeTime) : result TreeTime :=
  self ← _ml_t_leaves_root self 100;
  _ml_t_root_leaves self 100.

End Core.

(** ** Reading the dates file *)

(** The characters [','] and ['#']. *)
Definition comma : Ascii.ascii := Eval vm_compute in Ascii.ascii_of_nat 44.
Definition hash : Ascii.ascii := Eval vm_compute in Ascii.ascii_of_nat 35.

(** [s.split(sep)] for a one-character separator. *)
Fixpoint py_split (sep : Ascii.ascii) (s : string) : list string :=
  match s with
  | EmptyString => [EmptyString]
  | String c s' =>
      if Ascii.eqb c sep then EmptyString :: py_split sep s'
      else match py_split sep s' with
           | f :: fs => String c f :: fs
           | [] => [String c EmptyString]
           end
  end.

(** The characters that [str.strip()] removes from a byte string. *)
Definition is_space (c : Ascii.ascii) : bool :=
  let n := Ascii.nat_of_ascii c in
  (n =? 32)%nat || ((9 <=? n)%nat && (n <=? 13)%nat).

Fixpoint lstrip (s : string) : string :=
  match s with
  | String c s' => if is_space c then lstrip s' else s
  | EmptyString => EmptyString
  end.

Definition string_rev (s : string) : string :=
  String.string_of_list_ascii (rev (String.list_ascii_of_string s)).

(** [s.strip()] *)
Definition strip (s : string) : string := string_rev (lstrip (string_rev (lstrip s))).

(** [s.startswith("#")] *)
Definition is_comment (s : string) : bool :=
  match s with
  | String c _ => Ascii.eqb c hash
  | EmptyString => false
  end.

Definition reading_message : string := "Reading datetime info for the tree nodes...".
Definition loaded_message (n : nat) : string :=
  "Loaded " +:+ pretty n +:+ " lines form dates file".
Definition parsed_message (parsed total : nat) : string :=
  "Parsed data in " +:+ pretty parsed +:+ " lines of " +:+ pretty total +:+ " input, "
  +:+ pretty (Z.of_nat total - Z.of_nat parsed)%Z +:+ " corrupted".
Definition corrupted_message : string :=
  "Unable to perform parsing of the dates file, file is corrupted. Return empty dictionary.".

Section ReadDates.
(** [datetime.datetime.strptime(instr, fmt)] *)
Variable strptime : string -> string -> result datetime.

(** One [try: ... except ValueError: date = None] of [str_to_date]. *)
Definition try_strptime (instr fmt : string) : result (option datetime) :=
  match strptime instr fmt with
  | Ok d => Ok (Some d)
  | Raise ValueError => Ok None
  | Raise e => Raise e
  end.

(** [str_to_date], the local function of [_read_dates_file]. *)
Definition str_to_date (instr : string) : result (option datetime) :=
  date ← try_strptime instr "%Y.%m.%d";
  match date with
  | Some d => Ok (Some d)
  | None =>
      date ← try_strptime instr "%Y.%m";
      match date with
      | Some d => Ok (Some d)
      | None => try_strptime instr "%Y"
      end
  end.

(** One line of the dictionary comprehension of [_read_dates_file]. *)
Definition dates_entry (s : string) : result (string * option datetime) :=
  let fields := py_split comma s in
  field ← match fields !! 1%nat with Some f => Ok f | None => Raise IndexError end;
  d ← str_to_date (strip field);
  Ok (nth 0 fields EmptyString, d).

(** One turn of the dictionary comprehension: lines that are comments
    are skipped, a later line with the same name replaces an earlier one. *)
Definition dates_step (acc : result (gmap string (option datetime))) (s : string)
    : result (gmap string (option datetime)) :=
  dic ← acc;
  if is_comment s then Ok dic
  else '(k, d) ← dates_entry s; Ok (<[k := d]> dic).

(** The dictionary comprehension over the lines of the file. *)
Definition dates_comprehension (all_ss : list string)
    : result (gmap string (option datetime)) :=
  foldl dates_step (Ok ∅) all_ss.

(** [_read_dates_file], given the lines [all_ss] that [readlines]
    returned and the keyword argument [verbose] when there is one. *)
Definition _read_dates_file (all_ss : list string) (verbose : option Z)
    : result (gmap string (option datetime)) * output :=
  let verbose := default 10%Z verbose in
  let out := if (3 <? verbose)%Z then [reading_message] else [] in
  let out := out ++ if (5 <? verbose)%Z then [loaded_message (length all_ss)] else [] in
  match dates_comprehension all_ss with
  | Ok dic =>
      (Ok dic,
       out ++ if (3 <? verbose)%Z
              then [parsed_message (size dic) (length all_ss)] else [])
  | Raise ValueError => (Ok ∅, out ++ [corrupted_message])
  | Raise e => (Raise e, out)
  end.
End ReadDates.

(** ** Fitting from the other entry points *)

Section Fits.
Variable linregress : list Q -> list Q -> result (Q * Q * Q * Q * Q).
Variable log : Q -> Q.
Variable prob_t : list (list Q) -> list (list Q) -> Q -> Q.

(** [init_date_constraints] *)
Definition init_date_constraints (self : TreeTime) : result TreeTime * output :=
  match from_tree linregress (tree self) with
  | Ok dc =>
      _ml_t_init log prob_t (MkTreeTime (tree self) (Some dc) (max_node_abs_t self))
  | Raise e => (Raise e, [])
  end.

End Fits.

(** ** Stand-ins for the collaborators, used by the examples

    Coarse but honest instances: a rational approximation of the
    exponential and of the logarithm rounded to a fixed step, a
    three-point bounded minimizer, a parabolic branch likelihood and a
    regression that always answers the flat fit. *)

Definition round_step (q : Q) : Q :=
  ((Qnum q * 1024) / Zpos (Qden q))%Z # 1024.
Definition exp_approx (v : Q) : Q :=
  round_step (if Qltb v 0 then 1 / (1 - v + v * v / 2) else 1 + v + v * v / 2).
Definition log_approx (v : Q) : Q := round_step (2 * (v - 1) / (v + 1)).
Definition minimize3 (f : Q -> result Q) (lo hi : Q) : result OptimizeResult :=
  let mid := (lo + hi) / 2 in
  a ← f lo; b ← f mid; c ← f hi;
  Ok (MkOptimizeResult true
        (if Qltb b a then (if Qltb c b then hi else mid)
         else (if Qltb c a then hi else lo))).
Definition minimize_fails (f : Q -> result Q) (lo hi : Q) : result OptimizeResult :=
  Ok (MkOptimizeResult false lo).
Definition prob_parabola (p c : list (list Q)) (t : Q) : Q := - ((t - 1) * (t - 1)).
Definition linregress_flat (xs ys : list Q) : result (Q * Q * Q * Q * Q) :=
  Ok (0, 0, 0, 0, 0).

Definition mk_node (nm : string) (rd : attr (option Z)) (bl d2r : Q)
    (nlp : attr (option interp)) (br : option interp) : node :=
  Node (Some nm) rd 0 bl d2r None nlp br 0 [].

(** ** A three-node example

    A root with the terminals A (dated 100 days before present) and B
    (dated 50 days before present), fitted with distance =
    -date/50 + 3, initialised by [_ml_t_init] and taken through the
    up-pass on a grid of size 4. *)

Definition example_tree : clade :=
  Clade (mk_node "root" (Present None) 0 0 Absent None)
    [Clade (mk_node "A" (Present (Some 100%Z)) 1 1 Absent None) [];
     Clade (mk_node "B" (Present (Some 50%Z)) 2 2 Absent None) []].
Definition example_conversion : DateConversion.t :=
  DateConversion.Make (- (1 # 50)) 3 0 0 0.
Definition example_self : TreeTime :=
  MkTreeTime example_tree (Some example_conversion) 0.
Definition example_init : result TreeTime :=
  (_ml_t_init log_approx prob_parabola example_self).1.
Definition example_up : result TreeTime :=
  s ← example_init; _ml_t_leaves_root exp_approx log_approx minimize3 s 4.
Definition example_up_state : TreeTime :=
  Eval vm_compute in
    match example_up with Ok s => s | Raise _ => example_self end.

(** ** Vocabulary of the statements *)

(** The pair [(raw_date, dist2root)] that a dated node contributes to
    the regression. *)
Definition dated_pair (n : node) : option (Q * Q) :=
  match raw_date n with
  | Present (Some d) => Some (inject_Z d, dist2root n)
  | _ => None
  end.

(** What [_set_final_date] leaves on a node, given the node above it. *)
Definition finalized (up : option node) (nd : node) : Prop :=
  match up with
  | Some parent =>
      branch_length nd = abs_t nd - abs_t parent /\
      dist2root nd = dist2root parent + branch_length nd
  | None => branch_length nd = 1 /\ dist2root nd = 0
  end.

(** A grid is strictly increasing when each point is below the next. *)
Definition increasing (l : list Q) : Prop := Sorted Qlt l.
Definition nondecreasing (l : list Q) : Prop := Sorted Qle l.

(** A natural number as a float. *)
Definition qn (i : nat) : Q := inject_Z (Z.of_nat i).

(** A curve can be called when it has two samples or more and its two
    leftmost abscissas differ. *)
Definition callable (f : interp) : Prop :=
  (2 <= length (interp_x f))%nat /\ nth 0 (interp_x f) 0 < nth 1 (interp_x f) 0.

(** A curve reaches over the whole time axis when its grid starts at or
    below [MIN_T] and ends at or above [MAX_T]. *)
Definition spans_time_axis (f : interp) : Prop :=
  nth 0 (interp_x f) 0 <= MIN_T /\ MAX_T <= List.last (interp_x f) 0.

(** A narrow well at time 10, a branch curve lowest at length 4, and a
    tree of depth 4 holding them. *)
Definition example_source : interp :=
  Interp [MIN_T; 9; 10; 11; MAX_T] [1000; 500; 0; 500; 1000].
Definition example_branch : interp :=
  Interp [MIN_T; - lit_1e_30; 0; 2; 4; 6; MAX_T] [1000; 500; 8; 2; 0; 500; 1000].
Definition example_node : node :=
  mk_node "A" (Present None) 4 4 (Present (Some example_source)) (Some example_branch).
Definition example_config : TreeTime :=
  MkTreeTime (Clade example_node []) (Some example_conversion) 4.

(** The sentinel values that the combiner and the convolution write. *)
Definition sentinel_outer : Q := -1 * MIN_LOG.
Definition sentinel_inner : Q := -1 * MIN_LOG / 2.

(** The two outermost values on each side are the sentinels. *)
Definition sentinels_at_ends (f : interp) : Prop :=
  exists o1 i1 mid i2 o2,
    interp_y f = o1 :: i1 :: mid ++ [i2; o2] /\
    o1 == sentinel_outer /\ i1 == sentinel_inner /\
    i2 == sentinel_inner /\ o2 == sentinel_outer.

(** A strictly increasing grid with as many values as points and the
    sentinels at both ends. *)
Definition well_formed (f : interp) : Prop :=
  increasing (interp_x f) /\
  length (interp_x f) = length (interp_y f) /\
  sentinels_at_ends f.

(** Two curves on ten points each, and a node on a branch of length 0. *)
Definition example_long_a : interp :=
  Interp [MIN_T; 1; 2; 3; 4; 5; 6; 7; 8; MAX_T] [1000; 500; 3; 2; 1; 0; 1; 2; 500; 1000].
Definition example_long_b : interp :=
  Interp [MIN_T; 2; 3; 4; 5; 6; 7; 8; 9; MAX_T] [1000; 500; 4; 3; 2; 1; 0; 1; 500; 1000].
Definition example_short_node : node :=
  mk_node "B" (Present None) 0 4 Absent None.

(** Two states of a node that differ at most in the distribution and
    in its prefactor. *)
Definition same_placement (n n' : node) : Prop :=
  name n' = name n /\ raw_date n' = raw_date n /\ abs_t n' = abs_t n /\
  branch_length n' = branch_length n /\ dist2root n' = dist2root n /\
  date n' = date n /\ branch_neg_log_prob n' = branch_neg_log_prob n /\
  profile n' = profile n.

(** What the loop of [_ml_t_init] leaves on a node [n'] that was [n],
    for the conversion [dc] and the logarithm [log]. *)
Definition initialised (log : Q -> Q) (dc : DateConversion.t) (n n' : node) : Prop :=
  name n' = name n /\ raw_date n' = raw_date n /\
  branch_length n' = branch_length n /\ dist2root n' = dist2root n /\
  date n' = date n /\ profile n' = profile n /\ ml_t_prefactor n' = 0 /\
  match raw_date n with
  | Present (Some d) =>
      abs_t n' = inject_Z d * DateConversion.slope dc + DateConversion.intersect dc /\
      exists f, neg_log_prob n' = Present (Some f) /\
                delta_neg_log_prob log (abs_t n') = Ok f
  | Present None => abs_t n' = dist2root n /\ neg_log_prob n' = Present None
  | Absent => False
  end.

(** A node sits at the optimum of the distribution it carries. *)
Definition at_optimum (n : node) : Prop :=
  exists f, neg_log_prob n = Present (Some f) /\ _min_interp f = Ok (abs_t n).

(** ** Further stand-ins and examples *)

(** A reader of dates that knows the format [%Y] only and counts every
    year as 365 days from 1970. *)
Definition digit_of (c : Ascii.ascii) : option Z :=
  let n := Ascii.nat_of_ascii c in
  if ((48 <=? n) && (n <=? 57))%nat then Some (Z.of_nat (n - 48)) else None.
Fixpoint parse_digits (acc : Z) (s : string) : option Z :=
  match s with
  | EmptyString => Some acc
  | String c s' =>
      match digit_of c with
      | Some d => parse_digits (10 * acc + d)%Z s'
      | None => None
      end
  end.
Definition strptime_year (instr fmt : string) : result datetime :=
  if String.eqb fmt "%Y" then
    match instr with
    | EmptyString => Raise ValueError
    | _ => match parse_digits 0%Z instr with
           | Some y => Ok ((y - 1970) * 365 * 86400000000)%Z
           | None => Raise ValueError
           end
    end
  else Raise ValueError.

(** The regression line through the first and the last point, in
    lowest terms. *)
Definition linregress_chord (xs ys : list Q) : result (Q * Q * Q * Q * Q) :=
  match xs, ys with
  | x0 :: _, y0 :: _ =>
      k ← fdiv (List.last ys 0 - y0) (List.last xs 0 - x0);
      Ok (Qred k, Qred (y0 - k * x0), 1, 0, 0)
  | _, _ => Raise ValueError
  end.

(** The lines of a dates file: a comment, the name A twice and a date
    with a blank in front. *)
Definition newline : string := String (Ascii.ascii_of_nat 10) EmptyString.
Definition example_dates_lines : list string :=
  ["#name,date" +:+ newline; "A,2000" +:+ newline; "B, 1990" +:+ newline;
   "A,2010" +:+ newline].

(** A tree on which no node has a distribution, and two curves that
    start at different points. *)
Definition example_undated_tree : clade :=
  Clade (mk_node "root" (Present None) 0 0 (Present None) None)
    [Clade (mk_node "A" (Present None) 1 1 (Present None) (Some example_branch)) [];
     Clade (mk_node "B" (Present None) 2 2 (Present None) (Some example_branch)) []].
Definition example_undated_self : TreeTime :=
  MkTreeTime example_undated_tree (Some example_conversion) 4.
Definition example_early : interp := Interp [0; 1; 2] [1; 0; 1].
Definition example_late : interp := Interp [1; 2; 3] [1; 0; 1].

(** ** The same arithmetic in binary64

    The grid of [_make_node_grid] and the quotient of [get_date] with
    the kernel's binary64 numbers, each operation rounded as numpy rounds
    it.  [np.linspace(start, stop, num)] computes
    [arange(num) * step + start] with [step = (stop - start) / (num - 1)]
    and stores [stop] itself in the last cell; [s**2] is [s * s]. *)
Module F64.
Import PrimFloat.
Local Open Scope float_scope.

Definition float_of_nat (n : nat) : float := Nat.iter n (fun x => x + 1) 0.

Definition linspace (start stop : float) (num : nat) : list float :=
  match num with
  | O => []
  | S O => [start]
  | _ =>
      let step := (stop - start) / float_of_nat (num - 1) in
      map (fun i => float_of_nat i * step + start) (seq 0 (num - 1)) ++ [stop]
  end.

Definition MIN_T : float := -1e5.
Definition MAX_T : float := 1e5.

Definition _make_node_grid (max_node_abs_t opt : float) (grid_size : nat) (variance : float)
    : list float :=
  let scale := max_node_abs_t * variance in
  let grid_root :=
    map (fun s => opt - scale * (s * s)) (linspace 1 1e-5 (grid_size / 2 - 1)) in
  let grid_leaves :=
    map (fun s => opt + scale * (s * s)) (linspace 0 1 (grid_size / 2)) in
  [MIN_T] ++ grid_root ++ grid_leaves ++ [MAX_T].

Definition get_date (slope intersect abs_t : float) : float :=
  let year := (intersect - abs_t) / slope in
  if year <? 0 then abs year else year.

(** A tree of depth 0.004 and a center at 50000, with the default
    variance. *)
Definition example_depth : float := 0.004.
Definition example_center : float := 50000.
Definition example_variance : float := 0.25.
Definition example_grid : list float :=
  _make_node_grid example_depth example_center 100 example_variance.

(** Each point is at most the next one. *)
Fixpoint nondecreasingb (l : list float) : bool :=
  match l with
  | a :: (b :: _) as l' => (a <=? b) && nondecreasingb l'
  | _ => true
  end.

End F64.

(** * Properties *)

(** The up-pass of the three-node example goes through. *)
Lemma example_up_runs : example_up = Ok example_up_state.
Proof. vm_compute. reflexivity. Qed.

(** ** The error monad *)

Lemma bind_Ok {A B : Type} (m : result A) (f : A -> result B) (b : B) :
  m ≫= f = Ok b -> exists a, m = Ok a /\ f a = Ok b.
Proof. destruct m as [a|e]; simpl; [eauto | discriminate]. Qed.

Ltac rsimpl := cbn [mbind result_bind mret result_ret fmap result_fmap].
Tactic Notation "rsimpl" "in" hyp(H) :=
  cbn [mbind result_bind mret result_ret fmap result_fmap] in H.

Ltac inv_bind H :=
  let a := fresh "a" in
  let Ha := fresh "Ha" in
  apply bind_Ok in H; destruct H as (a & Ha & H).
Tactic Notation "bind_inv" hyp(H) "as" ident(a) ident(Ha) :=
  apply bind_Ok in H; destruct H as (a & Ha & H).

Lemma mapR_Forall2 {A B : Type} (f : A -> result B) (l : list A) (bs : list B) :
  mapR f l = Ok bs -> Forall2 (fun a b => f a = Ok b) l bs.
Proof.
  revert bs; induction l as [|a l IH]; intros bs H; simpl in H.
  - injection H as <-. constructor.
  - inv_bind H. inv_bind H. injection H as <-. constructor; auto.
Qed.

Lemma mapR_length {A B : Type} (f : A -> result B) (l : list A) (bs : list B) :
  mapR f l = Ok bs -> length bs = length l.
Proof. intros H. apply mapR_Forall2 in H. symmetry. eapply Forall2_length, H. Qed.

Lemma mapR_all_ok {A B : Type} (f : A -> result B) (l : list A) :
  Forall (fun a => exists b, f a = Ok b) l -> exists bs, mapR f l = Ok bs.
Proof.
  induction 1 as [|a l (b & Hb) _ (bs & Hbs)]; simpl.
  - eauto.
  - rewrite Hb, Hbs. simpl. eauto.
Qed.

(** ** Comparisons on floats *)

Lemma Qltb_lt (a b : Q) : Qltb a b = true <-> a < b.
Proof.
  unfold Qltb. rewrite negb_true_iff. split; intros H.
  - apply Qnot_le_lt. intros Hle. apply Qle_bool_iff in Hle. congruence.
  - destruct (Qle_bool b a) eqn:E; [|reflexivity].
    apply Qle_bool_iff in E. exfalso. eapply Qlt_not_le; eauto.
Qed.

Lemma Qltb_ge (a b : Q) : Qltb a b = false <-> b <= a.
Proof.
  unfold Qltb. rewrite negb_false_iff. apply Qle_bool_iff.
Qed.

Lemma fdiv_Ok (a b q : Q) : fdiv a b = Ok q -> ~ b == 0 /\ q = a / b.
Proof.
  unfold fdiv. destruct (Qeq_bool b 0) eqn:E; [discriminate|].
  intros [= <-]. split; [|reflexivity].
  intros Hb. apply Qeq_bool_iff in Hb. congruence.
Qed.

Lemma fdiv_nonzero (a b : Q) : ~ b == 0 -> fdiv a b = Ok (a / b).
Proof.
  intros Hb. unfold fdiv. destruct (Qeq_bool b 0) eqn:E; [|reflexivity].
  apply Qeq_bool_iff in E. contradiction.
Qed.

(** ** DateConversion.get_date *)

(** What [get_date] computes for a non-zero slope: the quotient
    [(intersect - abs_t) / slope], which is the opposite of the inverse
    [(abs_t - intersect) / slope] of the fit; it is printed about and
    made positive when negative. *)
Lemma get_date_spec (dc : DateConversion.t) (t : Q) :
  ~ DateConversion.slope dc == 0 ->
  let inverse := (t - DateConversion.intersect dc) / DateConversion.slope dc in
  exists v out,
    DateConversion.get_date dc t = Ok (v, out) /\
    v == Qabs inverse /\
    out = if Qltb 0 inverse then [DateConversion.negative_date_warning] else [].
Proof.
  intros Hs inverse. unfold DateConversion.get_date.
  rewrite (fdiv_nonzero _ _ Hs). rsimpl.
  set (year := (DateConversion.intersect dc - t) / DateConversion.slope dc).
  assert (Hy : year == - inverse).
  { unfold year, inverse. field. exact Hs. }
  destruct (Qltb year 0) eqn:E.
  - apply Qltb_lt in E. eexists _, _. split; [reflexivity|]. split.
    + transitivity (Qabs (- inverse)); [apply Qabs_wd, Hy | apply Qabs_opp].
    + assert (Hi : 0 < inverse) by lra.
      apply Qltb_lt in Hi. rewrite Hi. reflexivity.
  - apply Qltb_ge in E. eexists _, _. split; [reflexivity|]. split.
    + transitivity (Qabs year); [symmetry; apply Qabs_pos, E|].
      transitivity (Qabs (- inverse)); [apply Qabs_wd, Hy | apply Qabs_opp].
    + assert (Hi : inverse <= 0) by lra.
      apply Qltb_ge in Hi. rewrite Hi. reflexivity.
Qed.

(** C3, at the input slope = 1, intersect = 1, abs_t = 3.  The inverse
    of the fit is (3 - 1) / 1 = 2, which is not negative, so no warning
    is due; [get_date] computes (1 - 3) / 1 = -2 instead, prints the
    warning and returns 2. *)
Theorem get_date_warns_on_positive_inverse :
  let dc := DateConversion.Make 1 1 0 0 0 in
  (3 - DateConversion.intersect dc) / DateConversion.slope dc == 2 /\
  fdiv (DateConversion.intersect dc - 3) (DateConversion.slope dc) = Ok (-2 # 1) /\
  DateConversion.get_date dc 3 = Ok (2, [DateConversion.negative_date_warning]).
Proof. repeat split. Qed.

(** ** DateConversion.from_tree *)

Lemma dated_pairs_spec (c : clade) :
  Forall (fun n => raw_date n <> Absent) (preorder c) ->
  dated_pairs c = Ok (omap dated_pair (preorder c)).
Proof.
  unfold dated_pairs. generalize (preorder c) as l.
  induction l as [|n l IH]; intros H; [reflexivity|].
  inversion H as [|? ? Hn Hl]; subst.
  specialize (IH Hl).
  apply bind_Ok in IH as (rs & Hrs & Hc). injection Hc as Hc.
  simpl. unfold dated_pair at 1.
  destruct (raw_date n) as [|[d|]] eqn:E; [contradiction| |];
    simpl; rewrite Hrs; simpl; rewrite Hc; reflexivity.
Qed.

(** C4 as stated fails: fitting a tree in which no node is dated raises. *)
Lemma from_tree_without_dates_raises :
  let c := Clade (mk_node "root" (Present None) 0 0 Absent None)
             [Clade (mk_node "A" (Present None) 1 1 Absent None) []] in
  length (omap dated_pair (preorder c)) = 0%nat /\
  ~ exists dc, from_tree linregress_flat c = Ok dc.
Proof.
  split; [reflexivity|]. intros (dc & H). vm_compute in H. discriminate.
Qed.

(** C4, amended: on a tree in which every node has the attribute
    [raw_date] and fewer than two nodes are dated, [from_tree] raises
    [IndexError] when no node is dated; when one node is dated it calls
    [linregress] on the single pair [(raw_date, dist2root)] and returns
    the conversion made of the five numbers [linregress] returns, or
    raises what [linregress] raises. *)
Theorem from_tree_few_dates
    (linregress : list Q -> list Q -> result (Q * Q * Q * Q * Q)) (c : clade) :
  Forall (fun n => raw_date n <> Absent) (preorder c) ->
  (length (omap dated_pair (preorder c)) < 2)%nat ->
  match omap dated_pair (preorder c) with
  | [] => from_tree linregress c = Raise IndexError
  | p :: _ =>
      from_tree linregress c =
      match linregress [p.1] [p.2] with
      | Ok (s, i, r, pv, e) => Ok (DateConversion.Make s i r pv e)
      | Raise e => Raise e
      end
  end.
Proof.
  intros Hattr Hlen. unfold from_tree. rewrite (dated_pairs_spec c Hattr).
  destruct (omap dated_pair (preorder c)) as [|p [|q l]]; simpl in *.
  - reflexivity.
  - destruct (linregress [p.1] [p.2]) as [[[[[s i] r] pv] e]|e]; reflexivity.
  - lia.
Qed.

Lemma from_tree_few_dates_witness :
  let c := Clade (mk_node "root" (Present None) 0 0 Absent None)
             [Clade (mk_node "A" (Present (Some 100%Z)) 1 1 Absent None) []] in
  from_tree linregress_flat c = Ok (DateConversion.Make 0 0 0 0 0).
Proof.
  intros c.
  refine (from_tree_few_dates linregress_flat c _ _).
  - repeat constructor; discriminate.
  - vm_compute. lia.
Defined.

(** ** _set_dates_to_all_nodes *)

(** A node whose date lies after [now] is passed over: nothing is stored
    on it, whatever [raw_date] held before. *)
Lemma set_date_of_node_future (now d : datetime) (dic : gmap string (option datetime))
    (n : node) (nm : string) :
  name n = Some nm -> dic !! nm = Some (Some d) -> (timedelta_days now d < 0)%Z ->
  set_date_of_node now dic n = (n, [later_than_today]).
Proof.
  intros Hn Hd Hlt. unfold set_date_of_node. rewrite Hn. simpl. rewrite Hd.
  apply Z.ltb_lt in Hlt. rewrite Hlt. reflexivity.
Qed.

(** A node without a date in the dictionary gets [raw_date = None]. *)
Lemma set_date_of_node_missing (now : datetime) (dic : gmap string (option datetime))
    (n : node) :
  name n ≫= (dic !!.) = None \/ name n ≫= (dic !!.) = Some None ->
  set_date_of_node now dic n = (set_raw_date n (Present None), []).
Proof. intros [H|H]; unfold set_date_of_node; rewrite H; reflexivity. Qed.

(** The loop visits every node, whatever happened at the earlier ones. *)
Lemma set_dates_loop_preorder (now : datetime) (dic : gmap string (option datetime))
    (c : clade) :
  preorder (set_dates_loop now dic c).1 =
  map (fun n => (set_date_of_node now dic n).1) (preorder c).
Proof.
  revert c. fix IH 1. intros [n cs]. simpl.
  destruct (set_date_of_node now dic n) as [n' out] eqn:E. simpl. f_equal.
  induction cs as [|k cs IHcs]; simpl; [reflexivity|].
  rewrite map_app, IH. f_equal. exact IHcs.
Qed.

(** C7, at a node that carries the date 5 from an earlier assignment and
    is now given a date one day after [now]: the loop prints the message
    and goes on, but the node keeps [raw_date = 5] and so stays
    constrained, while its undated sibling is reset to [None]. *)
Theorem future_date_keeps_stale_raw_date :
  let a := mk_node "A" (Present (Some 5%Z)) 1 1 Absent None in
  let b := mk_node "B" (Present (Some 7%Z)) 1 1 Absent None in
  let r := mk_node "root" Absent 0 0 Absent None in
  let dic : gmap string (option datetime) := {[ "A"%string := Some 86400000000%Z ]} in
  let res := set_dates_loop 0%Z dic (Clade r [Clade a []; Clade b []]) in
  res.2 = [later_than_today] /\
  map raw_date (preorder res.1) = [Present None; Present (Some 5%Z); Present None].
Proof. vm_compute. split; reflexivity. Qed.

(** The same date given to a terminal that never had a [raw_date]:
    the attribute stays unset and the rerooting that ends
    [_set_dates_to_all_nodes] raises on reading it. *)
Lemma future_date_on_fresh_terminal_raises
    (root_with_outgroup : clade -> nat -> clade) (_add_node_params : clade -> clade) :
  let a := mk_node "A" Absent 1 1 Absent None in
  let r := mk_node "root" Absent 0 0 Absent None in
  let dic : gmap string (option datetime) := {[ "A"%string := Some 86400000000%Z ]} in
  _set_dates_to_all_nodes root_with_outgroup _add_node_params 0%Z dic (Clade r [Clade a []])
  = (Raise AttributeError, [later_than_today]).
Proof. vm_compute. reflexivity. Qed.

(** ** The down-pass: branch lengths and distances from the root *)

Lemma set_final_date_finalized (self : TreeTime) (up : option node) (nd nd' : node) :
  _set_final_date self up nd = Ok nd' -> finalized up nd'.
Proof.
  unfold _set_final_date. intros H.
  inv_bind H. inv_bind H. inv_bind H. inv_bind H. injection H as <-.
  destruct up as [parent|]; simpl; split; reflexivity.
Qed.

Lemma set_final_date_runs (self : TreeTime) (up : option node) (nd : node)
    (f : interp) (dc : DateConversion.t) (t : Q) :
  neg_log_prob nd = Present (Some f) -> _min_interp f = Ok t ->
  date2dist self = Some dc ->
  exists nd', _set_final_date self up nd = Ok nd' /\ abs_t nd' = t.
Proof.
  intros Hf Ht Hdc. unfold _set_final_date. rewrite Hf. simpl. rewrite Ht, Hdc. simpl.
  eexists. split; [reflexivity|]. destruct up; reflexivity.
Qed.

Section DownPass.
Variable exp : Q -> Q.
Variable log : Q -> Q.
Variable minimize_scalar : (Q -> result Q) -> Q -> Q -> result OptimizeResult.

Lemma root_leaves_node_finalized (self : TreeTime) (up : option node) (nd nd' : node)
    (g : nat) :
  root_leaves_node exp log minimize_scalar self up nd g = Ok nd' -> finalized up nd'.
Proof.
  unfold root_leaves_node. destruct up as [parent|].
  - intros H. inv_bind H. inv_bind H. inv_bind H. inv_bind H.
    eapply set_final_date_finalized, H.
  - apply set_final_date_finalized.
Qed.

Lemma root_leaves_clade_finalized (self : TreeTime) (g : nat) (c : clade) :
  forall (up : option node) (c' : clade),
    root_leaves_clade exp log minimize_scalar self g up c = Ok c' ->
    finalized up (root c') /\
    Forall (fun e => finalized (Some e.1) e.2) (edges c').
Proof.
  revert c. fix IH 1. intros [nd cs] up c' H. simpl in H.
  bind_inv H as nd' Hnd. bind_inv H as cs0 Hcs0. injection H as <-. simpl.
  split; [eapply root_leaves_node_finalized, Hnd|].
  clear Hnd. revert cs0 Hcs0.
  induction cs as [|k cs IHcs]; intros cs' Hcs; simpl in Hcs.
  - injection Hcs as <-. constructor.
  - bind_inv Hcs as k' Hk'. bind_inv Hcs as cs1 Hcs1. injection Hcs as <-.
    destruct (IH k _ _ Hk') as [Hk Hek].
    specialize (IHcs _ Hcs1). simpl.
    apply Forall_app in IHcs as [Hroots Hrest].
    constructor; [exact Hk|].
    apply Forall_app. split; [exact Hroots|].
    apply Forall_app. split; assumption.
Qed.

End DownPass.

(** C8: when the down-pass returns, the root has distance 0 from the
    root and every other node satisfies branch_length = abs_t -
    abs_t(parent) and dist2root = dist2root(parent) + branch_length,
    with the final values of its parent. *)
Theorem down_pass_distance_recursion
    (exp log : Q -> Q)
    (minimize_scalar : (Q -> result Q) -> Q -> Q -> result OptimizeResult)
    (self self' : TreeTime) (g : nat) :
  _ml_t_root_leaves exp log minimize_scalar self g = Ok self' ->
  dist2root (root (tree self')) = 0 /\
  Forall (fun e =>
            branch_length e.2 = abs_t e.2 - abs_t e.1 /\
            dist2root e.2 = dist2root e.1 + branch_length e.2)
         (edges (tree self')).
Proof.
  unfold _ml_t_root_leaves. intros H. inv_bind H. injection H as <-. simpl.
  destruct (root_leaves_clade_finalized _ _ _ _ _ _ _ _ Ha) as [[_ Hr] He].
  split; [exact Hr | exact He].
Qed.

Lemma down_pass_distance_recursion_witness :
  exists self',
    _ml_t_root_leaves exp_approx log_approx minimize3 example_up_state 4 = Ok self' /\
    map (fun n => (name n, Qred (abs_t n), Qred (branch_length n), Qred (dist2root n)))
        (preorder (tree self'))
    = [(Some "root"%string, 1, 1, 0); (Some "A"%string, 1, 0, 0);
       (Some "B"%string, 2, 1, 1)] /\
    dist2root (root (tree self')) = 0 /\
    Forall (fun e =>
              branch_length e.2 = abs_t e.2 - abs_t e.1 /\
              dist2root e.2 = dist2root e.1 + branch_length e.2)
           (edges (tree self')).
Proof.
  eexists. split; [vm_compute; reflexivity|].
  split; [vm_compute; reflexivity|].
  apply (down_pass_distance_recursion exp_approx log_approx minimize3 example_up_state _ 4).
  vm_compute. reflexivity.
Defined.

(** C10: when the down-pass returns, the root carries the branch length
    1.0 and the distance 0.0, whatever the data. *)
Theorem down_pass_root_branch_length
    (exp log : Q -> Q)
    (minimize_scalar : (Q -> result Q) -> Q -> Q -> result OptimizeResult)
    (self self' : TreeTime) (g : nat) :
  _ml_t_root_leaves exp log minimize_scalar self g = Ok self' ->
  branch_length (root (tree self')) = 1 /\ dist2root (root (tree self')) = 0.
Proof.
  unfold _ml_t_root_leaves. intros H. inv_bind H. injection H as <-. simpl.
  exact (proj1 (root_leaves_clade_finalized _ _ _ _ _ _ _ _ Ha)).
Qed.

Lemma down_pass_root_branch_length_witness :
  exists self',
    _ml_t_root_leaves exp_approx log_approx minimize3 example_up_state 4 = Ok self' /\
    branch_length (root (tree self')) = 1 /\ dist2root (root (tree self')) = 0.
Proof.
  eexists. split; [vm_compute; reflexivity|].
  apply (down_pass_root_branch_length exp_approx log_approx minimize3 example_up_state _ 4).
  vm_compute. reflexivity.
Defined.

(** The same for the two passes of [ml_t] run one after the other. *)
Lemma ml_t_root_branch_length
    (exp log : Q -> Q)
    (minimize_scalar : (Q -> result Q) -> Q -> Q -> result OptimizeResult)
    (self self' : TreeTime) :
  ml_t exp log minimize_scalar self = Ok self' ->
  branch_length (root (tree self')) = 1 /\ dist2root (root (tree self')) = 0.
Proof.
  unfold ml_t, _ml_t_root_leaves. intros H. inv_bind H. inv_bind H.
  injection H as <-. simpl.
  exact (proj1 (root_leaves_clade_finalized _ _ _ _ _ _ _ _ Ha0)).
Qed.

(** ** Grids *)

Lemma qn_S (i : nat) : qn (S i) == qn i + 1.
Proof.
  unfold qn. rewrite Nat2Z.inj_succ, <- Z.add_1_r, inject_Z_plus. reflexivity.
Qed.

Lemma qn_le (i j : nat) : (i <= j)%nat -> qn i <= qn j.
Proof. intros H. unfold qn. rewrite <- Zle_Qle. lia. Qed.

Lemma qn_nonneg (i : nat) : 0 <= qn i.
Proof. apply (qn_le 0 i). lia. Qed.

Lemma qn_pos (i : nat) : (0 < i)%nat -> 0 < qn i.
Proof. intros H. unfold qn. change 0 with (inject_Z 0). rewrite <- Zlt_Qlt. lia. Qed.

Lemma Sorted_map_seq (R : Q -> Q -> Prop) (f : nat -> Q) (n a : nat) :
  (forall i, (a <= i)%nat -> (S i < a + n)%nat -> R (f i) (f (S i))) ->
  Sorted R (map f (seq a n)).
Proof.
  revert a. induction n as [|n IH]; intros a H; simpl; constructor.
  - apply IH. intros i Hi Hlt. apply H; lia.
  - destruct n as [|n]; simpl; constructor. apply H; lia.
Qed.

Lemma Sorted_app_between (m : Q) (l1 l2 : list Q) :
  Sorted Qlt l1 -> Sorted Qlt l2 ->
  Forall (fun a => a < m) l1 -> Forall (fun b => m <= b) l2 ->
  Sorted Qlt (l1 ++ l2).
Proof.
  intros H1 H2 Hlo Hhi. induction H1 as [|a l1 Hs IH Hd]; simpl; [exact H2|].
  inversion Hlo as [|? ? Ha Hl1]; subst. constructor; [apply IH, Hl1|].
  destruct Hd as [|b l1 Hab]; simpl.
  - destruct Hhi as [|b l2 Hb _]; constructor. lra.
  - constructor. exact Hab.
Qed.

Lemma Sorted_Qle_app_between (m : Q) (l1 l2 : list Q) :
  Sorted Qle l1 -> Sorted Qle l2 ->
  Forall (fun a => a <= m) l1 -> Forall (fun b => m <= b) l2 ->
  Sorted Qle (l1 ++ l2).
Proof.
  intros H1 H2 Hlo Hhi. induction H1 as [|a l1 Hs IH Hd]; simpl; [exact H2|].
  inversion Hlo as [|? ? Ha Hl1]; subst. constructor; [apply IH, Hl1|].
  destruct Hd as [|b l1 Hab]; simpl.
  - destruct Hhi as [|b l2 Hb _]; constructor. lra.
  - constructor. exact Hab.
Qed.

Lemma increasing_nondecreasing (l : list Q) : increasing l -> nondecreasing l.
Proof.
  induction 1 as [|a l Hs IH Hd]; constructor; [exact IH|].
  destruct Hd; constructor. apply Qlt_le_weak. assumption.
Qed.

Lemma nondecreasing_le_nth (l : list Q) (i j : nat) :
  nondecreasing l -> (i <= j)%nat -> (j < length l)%nat -> nth i l 0 <= nth j l 0.
Proof.
  intros H Hij. induction Hij as [|j Hij IH]; intros Hj; [apply Qle_refl|].
  eapply Qle_trans; [apply IH; lia|].
  clear -H Hj. revert j Hj. induction H as [|a l Hs IH Hd]; intros j Hj; [simpl in Hj; lia|].
  destruct j as [|j].
  - destruct Hd; simpl in *; [lia | assumption].
  - apply IH. simpl in Hj. lia.
Qed.

Lemma Sorted_Qlt_nth (l : list Q) (i : nat) :
  Sorted Qlt l -> (S i < length l)%nat -> nth i l 0 < nth (S i) l 0.
Proof.
  intros H. revert i. induction H as [|a l Hs IH Hd]; intros i Hi; simpl in Hi; [lia|].
  destruct i as [|i].
  - destruct Hd as [|b l Hab]; simpl in *; [lia | exact Hab].
  - apply IH. lia.
Qed.

(** The samples of [linspace] run from [start] to [stop] in equal steps. *)
Lemma linspace_nth (start stop : Q) (num i : nat) :
  (i < num)%nat ->
  nth i (linspace start stop num) 0
  = qn i * ((stop - start) / qn (num - 1)) + start.
Proof.
  intros Hi. unfold linspace.
  rewrite (nth_indep _ 0 ((fun i => qn i * ((stop - start) / qn (num - 1)) + start) 0%nat))
    by (rewrite length_map, length_seq; exact Hi).
  rewrite (map_nth (fun i => qn i * ((stop - start) / qn (num - 1)) + start)).
  rewrite seq_nth by exact Hi. reflexivity.
Qed.

Lemma linspace_length (start stop : Q) (num : nat) :
  length (linspace start stop num) = num.
Proof. unfold linspace. rewrite length_map, length_seq. reflexivity. Qed.

Lemma linspace_last (start stop : Q) (num : nat) :
  (2 <= num)%nat -> nth (num - 1) (linspace start stop num) 0 == stop.
Proof.
  intros H. rewrite linspace_nth by lia.
  assert (Hd : 0 < qn (num - 1)) by (apply qn_pos; lia).
  field. lra.
Qed.

(** Every sample lies on the segment from [start] to [stop]. *)
Lemma linspace_sample (start stop : Q) (num i : nat) :
  (i < num)%nat ->
  exists t, 0 <= t /\ t <= 1 /\
            nth i (linspace start stop num) 0 == start + t * (stop - start).
Proof.
  intros Hi. rewrite linspace_nth by exact Hi.
  destruct (Nat.eq_dec num 1%nat) as [->|Hn].
  - assert (i = 0)%nat as -> by lia. exists 0. split; [lra|]. split; [lra|].
    change (qn 0) with 0. lra.
  - assert (Hd : 0 < qn (num - 1)) by (apply qn_pos; lia).
    assert (Hle : qn i <= qn (num - 1)) by (apply qn_le; lia).
    pose proof (qn_nonneg i) as H0.
    exists (qn i / qn (num - 1)). split; [|split].
    + apply Qle_shift_div_l; [exact Hd | lra].
    + apply Qle_shift_div_r; [exact Hd | lra].
    + field. lra.
Qed.

Lemma linspace_In (start stop : Q) (num : nat) (s : Q) :
  In s (linspace start stop num) ->
  exists t, 0 <= t /\ t <= 1 /\ s == start + t * (stop - start).
Proof.
  intros H. apply (In_nth _ _ 0) in H as (i & Hi & <-).
  rewrite linspace_length in Hi. apply linspace_sample, Hi.
Qed.

(** Consecutive samples differ by the step, whose sign is that of
    [stop - start]. *)
Lemma linspace_step (start stop : Q) (num i : nat) :
  (S i < num)%nat ->
  exists h, h * qn (num - 1) == stop - start /\
            nth (S i) (linspace start stop num) 0
            == nth i (linspace start stop num) 0 + h.
Proof.
  intros Hi. rewrite !linspace_nth by lia.
  assert (Hd : 0 < qn (num - 1)) by (apply qn_pos; lia).
  exists ((stop - start) / qn (num - 1)). split.
  - field. lra.
  - rewrite qn_S. ring.
Qed.

Lemma Sorted_of_nth (R : Q -> Q -> Prop) (l : list Q) :
  (forall i, (S i < length l)%nat -> R (nth i l 0) (nth (S i) l 0)) -> Sorted R l.
Proof.
  induction l as [|a l IH]; intros H; constructor.
  - apply IH. intros i Hi. apply (H (S i)). simpl. lia.
  - destruct l as [|b l]; constructor. apply (H 0%nat). simpl. lia.
Qed.

Lemma nth_map_Q (f : Q -> Q) (l : list Q) (i : nat) :
  (i < length l)%nat -> nth i (map f l) 0 = f (nth i l 0).
Proof.
  intros Hi. rewrite (nth_indep _ 0 (f 0)) by (rewrite length_map; exact Hi).
  apply map_nth.
Qed.

(** The lower half of a node grid: from [opt - scale] up to, but not
    reaching, [opt]. *)
Lemma grid_root_increasing (opt scale : Q) (m : nat) :
  0 < scale ->
  increasing (map (fun s => opt - scale * s ^ 2) (linspace 1 lit_1e_5 m)).
Proof.
  intros Hs. apply Sorted_of_nth. intros i Hi.
  rewrite length_map, linspace_length in Hi.
  rewrite !nth_map_Q by (rewrite linspace_length; lia).
  destruct (linspace_step 1 lit_1e_5 m i Hi) as (h & Hh & Hstep).
  destruct (linspace_sample 1 lit_1e_5 m (S i) Hi) as (t & Ht0 & Ht1 & Hb).
  assert (Hd : 0 < qn (m - 1)) by (apply qn_pos; lia).
  set (a := nth i (linspace 1 lit_1e_5 m) 0) in *.
  set (b := nth (S i) (linspace 1 lit_1e_5 m) 0) in *.
  change (a ^ 2) with (a * a). change (b ^ 2) with (b * b).
  unfold lit_1e_5 in *.
  assert (Hneg : h < 0) by nra.
  assert (Hb0 : 0 < b) by nra.
  assert (Hab : b < a) by lra.
  assert (b * b < a * a) by nra.
  nra.
Qed.

Lemma grid_root_bounds (opt scale : Q) (m : nat) :
  0 < scale ->
  Forall (fun v => opt - scale <= v /\ v < opt)
         (map (fun s => opt - scale * s ^ 2) (linspace 1 lit_1e_5 m)).
Proof.
  intros Hs. apply List.Forall_forall. intros v Hv.
  apply in_map_iff in Hv as (s & <- & Hin).
  apply linspace_In in Hin as (t & Ht0 & Ht1 & Hb).
  change (s ^ 2) with (s * s). unfold lit_1e_5 in *.
  assert (0 < s) by nra. assert (s <= 1) by nra.
  assert (0 < s * s) by nra. assert (s * s <= 1) by nra.
  split; nra.
Qed.

(** The upper half: from [opt] up to [opt + scale]. *)
Lemma grid_leaves_increasing (opt scale : Q) (m : nat) :
  0 < scale ->
  increasing (map (fun s => opt + scale * s ^ 2) (linspace 0 1 m)).
Proof.
  intros Hs. apply Sorted_of_nth. intros i Hi.
  rewrite length_map, linspace_length in Hi.
  rewrite !nth_map_Q by (rewrite linspace_length; lia).
  destruct (linspace_step 0 1 m i Hi) as (h & Hh & Hstep).
  assert (Hi' : (i < m)%nat) by lia.
  destruct (linspace_sample 0 1 m i Hi') as (t & Ht0 & Ht1 & Ha).
  assert (Hd : 0 < qn (m - 1)) by (apply qn_pos; lia).
  set (a := nth i (linspace 0 1 m) 0) in *.
  set (b := nth (S i) (linspace 0 1 m) 0) in *.
  change (a ^ 2) with (a * a). change (b ^ 2) with (b * b).
  assert (Hpos : 0 < h) by nra.
  assert (Ha0 : 0 <= a) by nra.
  assert (Hab : a < b) by lra.
  assert (a * a < b * b) by nra.
  nra.
Qed.

Lemma grid_leaves_bounds (opt scale : Q) (m : nat) :
  0 < scale ->
  Forall (fun v => opt <= v /\ v <= opt + scale)
         (map (fun s => opt + scale * s ^ 2) (linspace 0 1 m)).
Proof.
  intros Hs. apply List.Forall_forall. intros v Hv.
  apply in_map_iff in Hv as (s & <- & Hin).
  apply linspace_In in Hin as (t & Ht0 & Ht1 & Hb).
  change (s ^ 2) with (s * s).
  assert (0 <= s) by nra. assert (s <= 1) by nra.
  assert (0 <= s * s) by nra. assert (s * s <= 1) by nra.
  split; nra.
Qed.

(** ** _make_node_grid *)

Lemma make_node_grid_ends (self : TreeTime) (opt : Q) (g : nat) (variance : Q) :
  head (_make_node_grid self opt g variance) = Some MIN_T /\
  last (_make_node_grid self opt g variance) = Some MAX_T.
Proof.
  unfold _make_node_grid. split; [reflexivity|].
  rewrite !app_assoc. apply last_snoc.
Qed.

Lemma make_node_grid_length (self : TreeTime) (opt : Q) (g : nat) (variance : Q) :
  length (_make_node_grid self opt g variance) = (2 + (g / 2 - 1) + g / 2)%nat.
Proof.
  unfold _make_node_grid.
  rewrite !length_app, !length_map, !linspace_length. simpl. lia.
Qed.

(** Between the two boundary points every grid point is within [scale]
    of the center. *)
Lemma make_node_grid_sorted (self : TreeTime) (opt : Q) (g : nat) (variance : Q) :
  0 < max_node_abs_t self * variance ->
  MIN_T < opt - max_node_abs_t self * variance ->
  opt + max_node_abs_t self * variance < MAX_T ->
  increasing (_make_node_grid self opt g variance).
Proof.
  intros Hs Hlo Hhi. unfold _make_node_grid.
  set (scale := max_node_abs_t self * variance) in *.
  pose proof (grid_root_increasing opt scale (g / 2 - 1) Hs) as HR.
  pose proof (grid_root_bounds opt scale (g / 2 - 1) Hs) as HRb.
  pose proof (grid_leaves_increasing opt scale (g / 2) Hs) as HL.
  pose proof (grid_leaves_bounds opt scale (g / 2) Hs) as HLb.
  apply (Sorted_app_between (opt - scale)).
  - repeat constructor.
  - apply (Sorted_app_between opt); [exact HR| | |].
    + apply (Sorted_app_between MAX_T); [exact HL|repeat constructor| |].
      * eapply Forall_impl; [exact HLb|]. simpl. intros v [_ Hv]. lra.
      * repeat constructor. lra.
    + eapply Forall_impl; [exact HRb|]. simpl. intros v [_ Hv]. exact Hv.
    + apply Forall_app. split.
      * eapply Forall_impl; [exact HLb|]. simpl. intros v [Hv _]. exact Hv.
      * repeat constructor. lra.
  - repeat constructor. exact Hlo.
  - apply Forall_app. split.
    + eapply Forall_impl; [exact HRb|]. simpl. intros v [Hv _]. exact Hv.
    + apply Forall_app. split.
      * eapply Forall_impl; [exact HLb|]. simpl. intros v [Hv _]. lra.
      * repeat constructor. lra.
Qed.

(** C5 as stated fails: with the center 200000 and the scale 1 the
    grid ends ..., 200001, MAX_T = 100000; it is not even in
    non-decreasing order. *)
Lemma node_grid_center_beyond_MAX_T :
  let self := MkTreeTime example_tree None 4 in
  0 < max_node_abs_t self * lit_0_25 /\
  nth 99 (_make_node_grid self 200000 100 lit_0_25) 0 == 200001 /\
  nth 100 (_make_node_grid self 200000 100 lit_0_25) 0 = MAX_T /\
  ~ increasing (_make_node_grid self 200000 100 lit_0_25) /\
  ~ nondecreasing (_make_node_grid self 200000 100 lit_0_25).
Proof.
  intros self. split; [reflexivity|]. split; [vm_compute; reflexivity|].
  split; [reflexivity|]. split.
  - intros H. apply (Sorted_Qlt_nth _ 99) in H.
    + vm_compute in H. discriminate.
    + rewrite make_node_grid_length. simpl. lia.
  - intros H. apply (nondecreasing_le_nth _ 99 100) in H.
    + vm_compute in H. apply H. reflexivity.
    + lia.
    + rewrite make_node_grid_length. simpl. lia.
Qed.

Lemma make_node_grid_nondecreasing (self : TreeTime) (opt : Q) (g : nat) (variance : Q) :
  0 < max_node_abs_t self * variance ->
  MIN_T <= opt - max_node_abs_t self * variance ->
  opt + max_node_abs_t self * variance <= MAX_T ->
  nondecreasing (_make_node_grid self opt g variance).
Proof.
  intros Hs Hlo Hhi. unfold _make_node_grid.
  set (scale := max_node_abs_t self * variance) in *.
  pose proof (grid_root_increasing opt scale (g / 2 - 1) Hs) as HR.
  pose proof (grid_root_bounds opt scale (g / 2 - 1) Hs) as HRb.
  pose proof (grid_leaves_increasing opt scale (g / 2) Hs) as HL.
  pose proof (grid_leaves_bounds opt scale (g / 2) Hs) as HLb.
  apply (Sorted_Qle_app_between (opt - scale)).
  - repeat constructor.
  - apply (Sorted_Qle_app_between opt); [apply increasing_nondecreasing, HR| | |].
    + apply (Sorted_Qle_app_between MAX_T);
        [apply increasing_nondecreasing, HL|repeat constructor| |].
      * eapply Forall_impl; [exact HLb|]. simpl. intros v [_ Hv]. lra.
      * repeat constructor. apply Qle_refl.
    + eapply Forall_impl; [exact HRb|]. simpl. intros v [_ Hv]. lra.
    + apply Forall_app. split.
      * eapply Forall_impl; [exact HLb|]. simpl. intros v [Hv _]. exact Hv.
      * repeat constructor. lra.
  - repeat constructor. exact Hlo.
  - apply Forall_app. split.
    + eapply Forall_impl; [exact HRb|]. simpl. intros v [Hv _]. exact Hv.
    + apply Forall_app. split.
      * eapply Forall_impl; [exact HLb|]. simpl. intros v [Hv _]. lra.
      * repeat constructor. lra.
Qed.

(** In binary64 the grid is not strictly increasing even for a center
    well inside the range: with [max_node_abs_t = 0.004], the center
    50000 and the variance 0.25 the scale is 0.001, and
    [50000 - 0.001 * (1e-5)**2] rounds to 50000, the first point of the
    upper half.  The points are still in non-decreasing order. *)
Module F64Grid.
Import PrimFloat.
Local Open Scope float_scope.

Lemma node_grid_repeats_center_in_binary64 :
  (0 <? F64.example_depth * F64.example_variance) = true /\
  (F64.MIN_T <? F64.example_center - F64.example_depth * F64.example_variance) = true /\
  (F64.example_center + F64.example_depth * F64.example_variance <? F64.MAX_T) = true /\
  nth 49 F64.example_grid 0 = F64.example_center /\
  nth 50 F64.example_grid 0 = F64.example_center /\
  F64.nondecreasingb F64.example_grid = true.
Proof. vm_compute. repeat split; reflexivity. Qed.

End F64Grid.

(** C5, amended: the first and the last element of the grid are
    [MIN_T] and [MAX_T], whatever the center and the scale; for a
    positive scale and a center at least [scale] away from both [MIN_T]
    and [MAX_T] the grid is in non-decreasing order. *)
Theorem make_node_grid_ordered (self : TreeTime) (opt : Q) (g : nat) (variance : Q) :
  head (_make_node_grid self opt g variance) = Some MIN_T /\
  last (_make_node_grid self opt g variance) = Some MAX_T /\
  (0 < max_node_abs_t self * variance ->
   MIN_T <= opt - max_node_abs_t self * variance ->
   opt + max_node_abs_t self * variance <= MAX_T ->
   nondecreasing (_make_node_grid self opt g variance)).
Proof.
  destruct (make_node_grid_ends self opt g variance) as [Hh Hl].
  split; [exact Hh|]. split; [exact Hl|].
  apply make_node_grid_nondecreasing.
Qed.

Lemma make_node_grid_ordered_witness :
  let self := MkTreeTime example_tree None 4 in
  head (_make_node_grid self 10 100 lit_0_25) = Some MIN_T /\
  last (_make_node_grid self 10 100 lit_0_25) = Some MAX_T /\
  nondecreasing (_make_node_grid self 10 100 lit_0_25).
Proof.
  intros self.
  destruct (make_node_grid_ordered self 10 100 lit_0_25) as (Hh & Hl & Hs).
  split; [exact Hh|]. split; [exact Hl|].
  apply Hs; [reflexivity | discriminate | discriminate].
Defined.

(** ** interp1d objects *)

Lemma insert_by_x_perm (p : Q * Q) (l : list (Q * Q)) :
  Permutation (insert_by_x p l) (p :: l).
Proof.
  induction l as [|q l IH]; simpl; [reflexivity|].
  destruct (Qle_bool p.1 q.1); [reflexivity|].
  rewrite IH. apply perm_swap.
Qed.

Lemma sort_by_x_perm (l : list (Q * Q)) : Permutation (sort_by_x l) l.
Proof.
  induction l as [|p l IH]; simpl; [reflexivity|].
  rewrite insert_by_x_perm. constructor. exact IH.
Qed.

Lemma insert_by_x_sorted (p : Q * Q) (l : list (Q * Q)) :
  Sorted Qle (map fst l) -> Sorted Qle (map fst (insert_by_x p l)).
Proof.
  induction l as [|q l IH]; intros H; simpl.
  - repeat constructor.
  - destruct (Qle_bool p.1 q.1) eqn:E; simpl.
    + constructor; [exact H|]. constructor. apply Qle_bool_iff, E.
    + inversion H as [|? ? Hs Hd]; subst. constructor; [apply IH, Hs|].
      assert (Hqp : q.1 <= p.1).
      { apply Qlt_le_weak, Qltb_lt. unfold Qltb. rewrite E. reflexivity. }
      destruct l as [|r l]; simpl.
      * constructor. exact Hqp.
      * destruct (Qle_bool p.1 r.1); simpl; constructor; [exact Hqp|].
        inversion Hd; subst. assumption.
Qed.

Lemma sort_by_x_sorted (l : list (Q * Q)) : Sorted Qle (map fst (sort_by_x l)).
Proof.
  induction l as [|p l IH]; simpl; [constructor|]. apply insert_by_x_sorted, IH.
Qed.

(** Sample points given in order are kept as they are. *)
Lemma sort_by_x_id (l : list (Q * Q)) :
  Sorted Qle (map fst l) -> sort_by_x l = l.
Proof.
  induction l as [|p l IH]; intros H; simpl; [reflexivity|].
  inversion H as [|? ? Hs Hd]; subst. rewrite (IH Hs).
  destruct l as [|q l]; simpl; [reflexivity|].
  inversion Hd as [|? ? Hpq]; subst. apply Qle_bool_iff in Hpq. rewrite Hpq.
  reflexivity.
Qed.

Lemma interp1d_Ok (xs ys : list Q) (f : interp) :
  interp1d xs ys = Ok f ->
  length xs = length ys /\
  Permutation (interp_x f) xs /\ Permutation (interp_y f) ys /\
  nondecreasing (interp_x f).
Proof.
  unfold interp1d. destruct (length xs =? length ys)%nat eqn:E; simpl; [|discriminate].
  apply Nat.eqb_eq in E. intros [= <-]. simpl.
  split; [exact E|]. split; [|split].
  - rewrite (sort_by_x_perm (zip xs ys)). rewrite fst_zip by lia. reflexivity.
  - rewrite (sort_by_x_perm (zip xs ys)). rewrite snd_zip by lia. reflexivity.
  - apply sort_by_x_sorted.
Qed.

Lemma interp1d_in_order (xs ys : list Q) :
  length xs = length ys -> nondecreasing xs ->
  interp1d xs ys = Ok (Interp xs ys).
Proof.
  intros Hlen Hs. unfold interp1d.
  rewrite (proj2 (Nat.eqb_eq _ _) Hlen). simpl.
  rewrite sort_by_x_id by (rewrite fst_zip by lia; exact Hs).
  rewrite fst_zip, snd_zip by lia. reflexivity.
Qed.

(** A strictly increasing list cannot be obtained by reordering a list
    that holds the same number twice. *)
Lemma increasing_lt_nth (l : list Q) (i j : nat) :
  increasing l -> (i < j)%nat -> (j < length l)%nat -> nth i l 0 < nth j l 0.
Proof.
  intros H Hij. induction Hij as [|j Hij IH]; intros Hj.
  - apply Sorted_Qlt_nth; assumption.
  - eapply Qlt_trans; [apply IH; lia|]. apply Sorted_Qlt_nth; assumption.
Qed.

Lemma increasing_no_repeat (l l' : list Q) (v : Q) (i j : nat) :
  Permutation l' l -> (i < j)%nat -> (j < length l)%nat ->
  nth i l 0 = v -> nth j l 0 = v -> ~ increasing l'.
Proof.
  intros Hp Hij Hj Hi Hv Hinc.
  assert (Hnd : NoDup l').
  { clear -Hinc. induction Hinc as [|a l Hs IH Hd]; constructor; [|exact IH].
    intros Hin. apply list_elem_of_In in Hin.
    apply (In_nth _ _ 0) in Hin as (k & Hk & Hnth).
    assert (a < nth k l 0).
    { clear -Hs Hd Hk. destruct l as [|b l]; [simpl in Hk; lia|].
      inversion Hd; subst. destruct k as [|k]; [assumption|].
      eapply Qlt_trans; [eassumption|].
      apply (increasing_lt_nth (b :: l) 0 (S k)); [exact Hs|lia|exact Hk]. }
    rewrite Hnth in H. apply (Qlt_irrefl a H). }
  rewrite Hp in Hnd. apply NoDup_ListNoDup in Hnd.
  apply (proj1 (List.NoDup_nth l 0) Hnd i j) in Hj; [lia|lia|congruence].
Qed.

(** *** Calls *)

Lemma searchsorted_prefix (xs : list Q) (v : Q) (i : nat) :
  (i < searchsorted xs v)%nat -> nth i xs 0 < v.
Proof.
  revert i. induction xs as [|a xs IH]; intros i Hi; simpl in Hi; [lia|].
  destruct (Qltb a v) eqn:E; [|lia].
  destruct i as [|i]; simpl; [apply Qltb_lt, E | apply IH; lia].
Qed.

Lemma searchsorted_stop (xs : list Q) (v : Q) :
  (searchsorted xs v < length xs)%nat -> v <= nth (searchsorted xs v) xs 0.
Proof.
  induction xs as [|a xs IH]; simpl; [lia|].
  destruct (Qltb a v) eqn:E; intros H.
  - apply IH. lia.
  - apply Qltb_ge, E.
Qed.

Lemma searchsorted_le_length (xs : list Q) (v : Q) :
  (searchsorted xs v <= length xs)%nat.
Proof. induction xs as [|a xs IH]; simpl; [lia|]. destruct (Qltb a v); lia. Qed.

Lemma last_nth (xs : list Q) (d : Q) :
  List.last xs d = nth (length xs - 1) xs d.
Proof.
  induction xs as [|a [|b xs] IH]; [reflexivity..|].
  change (List.last (a :: b :: xs) d) with (List.last (b :: xs) d).
  rewrite IH. simpl. rewrite Nat.sub_0_r. reflexivity.
Qed.

Lemma searchsorted_below_last (xs : list Q) (v d : Q) :
  xs <> [] -> v <= List.last xs d -> (searchsorted xs v < length xs)%nat.
Proof.
  intros Hne Hv.
  destruct (Nat.eq_dec (searchsorted xs v) (length xs)) as [E|E].
  - exfalso. assert (H : nth (length xs - 1) xs 0 < v).
    { apply searchsorted_prefix. destruct xs; [contradiction|]. simpl in *. lia. }
    rewrite last_nth in Hv.
    rewrite (nth_indep _ d 0) in Hv by (destruct xs; [contradiction | simpl; lia]).
    lra.
  - pose proof (searchsorted_le_length xs v). lia.
Qed.

Lemma interp_call_defined (f : interp) (v : Q) :
  callable f ->
  nth 0 (interp_x f) 0 <= v -> v <= List.last (interp_x f) 0 ->
  exists r, interp_call f v = Ok r.
Proof.
  intros [Hlen H01] Hlo Hhi. unfold interp_call.
  destruct (interp_x f) as [|x0 xs] eqn:Ex; [simpl in Hlen; lia|].
  rewrite <- Ex in *.
  assert (Hne : interp_x f <> []) by (rewrite Ex; discriminate).
  set (n := length (interp_x f)) in *.
  assert (Hb1 : Qltb v x0 = false).
  { apply Qltb_ge. rewrite Ex in Hlo. exact Hlo. }
  assert (Hb2 : Qltb (List.last (interp_x f) x0) v = false).
  { apply Qltb_ge. rewrite last_nth in Hhi |- *.
    rewrite (nth_indep _ x0 0) by (unfold n; lia). exact Hhi. }
  rewrite Hb1, Hb2. simpl.
  pose proof (searchsorted_below_last (interp_x f) v 0 Hne Hhi) as Hs.
  set (s := searchsorted (interp_x f) v) in *.
  assert (Hd : ~ nth (Nat.min (Nat.max s 1) (n - 1)) (interp_x f) 0
                 - nth (Nat.min (Nat.max s 1) (n - 1) - 1) (interp_x f) 0 == 0).
  { destruct (Nat.eq_dec s 0%nat) as [E0|E0].
    - rewrite E0. replace (Nat.min (Nat.max 0 1) (n - 1)) with 1%nat by lia.
      simpl Nat.sub. lra.
    - replace (Nat.min (Nat.max s 1) (n - 1)) with s by lia.
      assert (nth (s - 1) (interp_x f) 0 < v)
        by (apply searchsorted_prefix; fold s; lia).
      assert (v <= nth s (interp_x f) 0) by (apply searchsorted_stop; exact Hs).
      lra. }
  rewrite (fdiv_nonzero _ _ Hd). simpl. eauto.
Qed.

(** *** _min_interp *)

Lemma argmin_from_lt (l : list Q) (i best : nat) (v : Q) :
  (best < i)%nat -> (argmin_from i best v l < i + length l)%nat.
Proof.
  revert i best v. induction l as [|a l IH]; intros i best v H; simpl; [lia|].
  destruct (Qltb a v).
  - specialize (IH (S i) i a). lia.
  - specialize (IH (S i) best v). lia.
Qed.

Lemma argmin_lt (l : list Q) (i : nat) : argmin l = Ok i -> (i < length l)%nat.
Proof.
  destruct l as [|a l]; simpl; [discriminate|]. intros [= <-].
  pose proof (argmin_from_lt l 1 0 a). lia.
Qed.

(** The optimum that [_min_interp] reports is a point of the grid. *)
Lemma min_interp_In (f : interp) (o : Q) :
  _min_interp f = Ok o -> In o (interp_x f).
Proof.
  unfold _min_interp. intros H.
  bind_inv H as vals Hvals. bind_inv H as i Hi. injection H as <-.
  apply nth_In. apply argmin_lt in Hi. apply mapR_length in Hvals. lia.
Qed.

Lemma min_interp_defined (f : interp) :
  callable f -> nondecreasing (interp_x f) -> exists o, _min_interp f = Ok o.
Proof.
  intros Hc Hs. unfold _min_interp.
  destruct (mapR_all_ok (interp_call f) (interp_x f)) as (vals & Hvals).
  { apply List.Forall_forall. intros v Hv.
    apply (In_nth _ _ 0) in Hv as (i & Hi & <-).
    apply interp_call_defined; [exact Hc| |].
    - apply nondecreasing_le_nth; [exact Hs|lia|exact Hi].
    - rewrite last_nth. apply nondecreasing_le_nth; [exact Hs|lia|].
      destruct Hc. lia. }
  rewrite Hvals. rsimpl.
  destruct vals as [|v vals].
  - apply mapR_length in Hvals. destruct Hc. simpl in Hvals. lia.
  - simpl. eauto.
Qed.

(** *** Boundary values *)

Lemma py_index_nonneg (len i : nat) :
  (i < len)%nat -> py_index len (Z.of_nat i) = Ok i.
Proof.
  intros H. unfold py_index.
  replace ((0 <=? Z.of_nat i)%Z) with true by (symmetry; apply Z.leb_le; lia).
  replace ((Z.of_nat i <? Z.of_nat len)%Z) with true by (symmetry; apply Z.ltb_lt; lia).
  simpl. rewrite Nat2Z.id. reflexivity.
Qed.

Lemma py_index_neg (len k : nat) :
  (0 < k)%nat -> (k <= len)%nat -> py_index len (- Z.of_nat k) = Ok (len - k)%nat.
Proof.
  intros H0 H. unfold py_index.
  replace ((0 <=? - Z.of_nat k)%Z) with false by (symmetry; apply Z.leb_gt; lia).
  replace ((- Z.of_nat k <? 0)%Z) with true by (symmetry; apply Z.ltb_lt; lia).
  replace ((- Z.of_nat len <=? - Z.of_nat k)%Z) with true by (symmetry; apply Z.leb_le; lia).
  simpl. f_equal. lia.
Qed.

Lemma py_index_first (len : nat) : (1 <= len)%nat -> py_index len 0 = Ok 0%nat.
Proof. intros H. apply (py_index_nonneg len 0). lia. Qed.
Lemma py_index_second (len : nat) : (2 <= len)%nat -> py_index len 1 = Ok 1%nat.
Proof. intros H. apply (py_index_nonneg len 1). lia. Qed.
Lemma py_index_last (len : nat) : (1 <= len)%nat -> py_index len (-1) = Ok (len - 1)%nat.
Proof. intros H. apply (py_index_neg len 1); lia. Qed.
Lemma py_index_before_last (len : nat) :
  (2 <= len)%nat -> py_index len (-2) = Ok (len - 2)%nat.
Proof. intros H. apply (py_index_neg len 2); lia. Qed.

Lemma set_sentinels_spec {A : Type} (outer inner : A) (a : list A) :
  (2 <= length a)%nat ->
  set_sentinels outer inner a =
  Ok (<[(length a - 2)%nat := inner]>
        (<[1%nat := inner]> (<[(length a - 1)%nat := outer]> (<[0%nat := outer]> a)))).
Proof.
  intros H. unfold set_sentinels, setitems. cbn [mapR].
  rewrite py_index_first, py_index_last by lia. rsimpl. cbn [foldl].
  rewrite !length_insert.
  rewrite py_index_second, py_index_before_last by lia. rsimpl. reflexivity.
Qed.

Lemma set_sentinels_short {A : Type} (outer inner : A) (a : list A) :
  (length a < 2)%nat -> set_sentinels outer inner a = Raise IndexError.
Proof.
  intros H. destruct a as [|x [|y a]]; [reflexivity..|simpl in H; lia].
Qed.

Lemma split_last_two {A : Type} (l : list A) :
  (2 <= length l)%nat -> exists mid b1 b0, l = mid ++ [b1; b0].
Proof.
  intros H. rewrite <- (take_drop (length l - 2) l).
  assert (Hd : length (drop (length l - 2) l) = 2%nat) by (rewrite length_drop; lia).
  destruct (drop (length l - 2) l) as [|b1 [|b0 [|? ?]]]; simpl in Hd; try lia.
  eauto.
Qed.

(** On an array of four cells or more the two outermost cells on each
    side are overwritten and nothing else. *)
Lemma set_sentinels_shape {A : Type} (outer inner : A) (a : list A) :
  (4 <= length a)%nat ->
  set_sentinels outer inner a =
  Ok (outer :: inner :: take (length a - 4) (drop 2 a) ++ [inner; outer]).
Proof.
  intros H. rewrite set_sentinels_spec by lia. f_equal.
  destruct a as [|a0 [|a1 rest]]; [simpl in H; lia..|].
  destruct (split_last_two rest) as (mid & b1 & b0 & ->); [simpl in H; lia|].
  simpl length. rewrite !length_app. simpl length.
  replace (S (S (length mid + 2)) - 2)%nat with (S (S (length mid + 0))) by lia.
  replace (S (S (length mid + 2)) - 1)%nat with (S (S (length mid + 1))) by lia.
  replace (S (S (length mid + 2)) - 4)%nat with (length mid) by lia.
  simpl. rewrite drop_0, take_app_length.
  rewrite !insert_app_r. reflexivity.
Qed.

(** ** The convolution *)

Lemma mapR_all_ok_with {A B : Type} (P : B -> Prop) (f : A -> result B) (l : list A) :
  Forall (fun a => exists b, f a = Ok b /\ P b) l ->
  exists bs, mapR f l = Ok bs /\ Forall P bs /\ length bs = length l.
Proof.
  induction 1 as [|a l (b & Hb & HP) _ (bs & Hbs & HPs & Hlen)]; simpl.
  - exists []. repeat split. constructor.
  - rewrite Hb, Hbs. rsimpl. exists (b :: bs). repeat split.
    + constructor; assumption.
    + simpl. lia.
Qed.

Lemma setitems_Ok {A : Type} (P : A -> Prop) (idx : list Z) (v : A) (a a' : list A) :
  setitems idx v a = Ok a' ->
  length a' = length a /\ (P v -> Forall P a -> Forall P a').
Proof.
  unfold setitems. intros H. bind_inv H as js Hjs. injection H as <-.
  clear Hjs. revert a. induction js as [|j js IH]; intros a; simpl.
  - split; auto.
  - destruct (IH (<[j:=v]> a)) as [Hlen HP]. rewrite length_insert in Hlen.
    split; [exact Hlen|]. intros Hv Ha. apply HP; [exact Hv|].
    apply Forall_insert; assumption.
Qed.

Lemma setitems_inner_defined {A : Type} (v : A) (a : list A) :
  (2 <= length a)%nat -> exists a', setitems [1; -2]%Z v a = Ok a'.
Proof.
  intros H. unfold setitems. cbn [mapR].
  rewrite py_index_second, py_index_before_last by lia. rsimpl. eauto.
Qed.

Lemma setitems_outer_defined {A : Type} (v : A) (a : list A) :
  (1 <= length a)%nat -> exists a', setitems [0; -1]%Z v a = Ok a'.
Proof.
  intros H. unfold setitems. cbn [mapR].
  rewrite py_index_first, py_index_last by lia. rsimpl. eauto.
Qed.

Lemma clipQ_bounds (v : Q) : MIN_T <= clipQ MIN_T MAX_T v /\ clipQ MIN_T MAX_T v <= MAX_T.
Proof.
  unfold clipQ. destruct (Qltb v MIN_T) eqn:E1.
  - unfold MIN_T, MAX_T. split; lra.
  - destruct (Qltb MAX_T v) eqn:E2.
    + unfold MIN_T, MAX_T. split; lra.
    + apply Qltb_ge in E1, E2. split; assumption.
Qed.

Section Convolution.
Variable exp : Q -> Q.
Variable log : Q -> Q.
Variable minimize_scalar : (Q -> result Q) -> Q -> Q -> result OptimizeResult.

(** What comes out of the integration, whenever it comes out: values on
    the target grid, the boundary values written over them, the sign
    turned. *)
Lemma convolve_on_grid_Ok (src branch : interp) (source_grid target_grid : list Q)
    (grid2D : list (list Q)) (f : interp) :
  convolve_on_grid exp log src branch source_grid target_grid grid2D = Ok f ->
  exists p_logprob p_sent,
    length p_logprob = length target_grid /\
    set_sentinels MIN_LOG (MIN_LOG / 2) p_logprob = Ok p_sent /\
    interp1d target_grid (map (Qmult (-1)) p_sent) = Ok f.
Proof.
  unfold convolve_on_grid. intros H.
  bind_inv H as l1 H1. bind_inv H as l2 H2. bind_inv H as l3 H3.
  bind_inv H as l4 H4. bind_inv H as l5 H5. bind_inv H as sv Hsv.
  bind_inv H as ps Hps.
  eexists _, ps. split; [|split; [exact Hps | exact H]].
  unfold transpose. rewrite !length_map, length_seq. reflexivity.
Qed.

(** The integration goes through for a source curve that can be called
    on its own grid and a branch curve that reaches over the time axis. *)
Lemma convolve_on_grid_defined (src branch : interp) (target_grid : list Q)
    (grid2D : list (list Q)) :
  callable src -> nondecreasing (interp_x src) ->
  callable branch -> spans_time_axis branch ->
  (2 <= length target_grid)%nat ->
  length grid2D = length (interp_x src) ->
  Forall (fun row => length row = length target_grid) grid2D ->
  exists f, convolve_on_grid exp log src branch (interp_x src) target_grid grid2D = Ok f.
Proof.
  intros Hsrc Hsorted Hbr [Hlo Hhi] Hk Hrows Hcols. unfold convolve_on_grid.
  set (k := length target_grid) in *.
  destruct (mapR_all_ok_with (fun row => length row = k)
              (mapR (interp_call branch)) (map (map (clipQ MIN_T MAX_T)) grid2D))
    as (l1 & -> & Hl1 & Hn1).
  { apply Forall_map. eapply Forall_impl; [exact Hcols|]. simpl. intros row Hrow.
    destruct (mapR_all_ok_with (fun _ => True) (interp_call branch)
                (map (clipQ MIN_T MAX_T) row)) as (vs & Hvs & _ & Hlen).
    - apply Forall_map, List.Forall_forall. intros v _. simpl.
      destruct (clipQ_bounds v) as [Hv1 Hv2].
      destruct (interp_call_defined branch (clipQ MIN_T MAX_T v) Hbr) as (r & Hr);
        [lra | lra | eauto].
    - exists vs. split; [exact Hvs|]. rewrite Hlen, length_map. exact Hrow. }
  rewrite length_map in Hn1. rsimpl.
  destruct (mapR_all_ok_with (fun row => length row = k)
              (setitems [1; -2]%Z (-1 * MIN_LOG / 2)) l1) as (l2 & -> & Hl2 & Hn2).
  { eapply Forall_impl; [exact Hl1|]. simpl. intros row Hrow.
    destruct (setitems_inner_defined (-1 * MIN_LOG / 2) row) as (row' & Hrow'); [lia|].
    exists row'. split; [exact Hrow'|].
    apply (setitems_Ok (fun _ => True)) in Hrow' as [Hlen _]. lia. }
  rsimpl.
  assert (Hm : (2 <= length (interp_x src))%nat) by (destruct Hsrc; assumption).
  destruct (setitems_inner_defined (replicate k (-1 * MIN_LOG / 2)) l2) as (l3 & Hl3); [lia|].
  rewrite Hl3. rsimpl.
  apply (setitems_Ok (fun row => length row = k)) in Hl3 as [Hn3 Hl3].
  specialize (Hl3 (length_replicate _ _) Hl2).
  destruct (mapR_all_ok_with (fun row => length row = k)
              (setitems [0; -1]%Z (-1 * MIN_LOG)) l3) as (l4 & -> & Hl4 & Hn4).
  { eapply Forall_impl; [exact Hl3|]. simpl. intros row Hrow.
    destruct (setitems_outer_defined (-1 * MIN_LOG) row) as (row' & Hrow'); [lia|].
    exists row'. split; [exact Hrow'|].
    apply (setitems_Ok (fun _ => True)) in Hrow' as [Hlen _]. lia. }
  rsimpl.
  destruct (setitems_outer_defined (replicate k (-1 * MIN_LOG)) l4) as (l5 & Hl5); [lia|].
  rewrite Hl5. rsimpl.
  destruct (mapR_all_ok (interp_call src) (interp_x src)) as (sv & ->).
  { apply List.Forall_forall. intros v Hv.
    apply (In_nth _ _ 0) in Hv as (i & Hi & <-).
    apply interp_call_defined; [exact Hsrc| |].
    - apply nondecreasing_le_nth; [exact Hsorted|lia|exact Hi].
    - rewrite last_nth. apply nondecreasing_le_nth; [exact Hsorted|lia|lia]. }
  rsimpl.
  match goal with |- context [set_sentinels ?o ?i ?a] =>
    assert (Hlen : length a = k)
      by (unfold transpose; rewrite !length_map, length_seq; reflexivity);
    rewrite (set_sentinels_spec o i a) by lia; set (p := a) in * end.
  rsimpl. unfold interp1d.
  rewrite length_map, !length_insert, Hlen.
  fold k. rewrite Nat.eqb_refl. simpl. eauto.
Qed.

Lemma opt_branch_length_failure (self : TreeTime) (branch : interp) (r : OptimizeResult) :
  minimize_scalar (interp_call branch) 0 (2 * max_node_abs_t self) = Ok r ->
  success r = false ->
  opt_branch_length minimize_scalar self branch = Ok 0.
Proof. intros Hr Hs. unfold opt_branch_length. rewrite Hr. rsimpl. rewrite Hs. reflexivity. Qed.

Lemma opt_branch_length_success (self : TreeTime) (branch : interp) (r : OptimizeResult) :
  minimize_scalar (interp_call branch) 0 (2 * max_node_abs_t self) = Ok r ->
  success r = true ->
  opt_branch_length minimize_scalar self branch = Ok (opt_x r).
Proof. intros Hr Hs. unfold opt_branch_length. rewrite Hr. rsimpl. rewrite Hs. reflexivity. Qed.

(** The grid of the curve that [_convolve] returns is the node grid
    around (optimum of the source) - (optimal branch length), in both
    directions. *)
Lemma convolve_Ok (self : TreeTime) (src branch : interp) (inverse_time : bool)
    (g : nat) (f : interp) :
  _convolve exp log minimize_scalar self (Some src) (Some branch) inverse_time g = Ok f ->
  exists T L p_logprob p_sent,
    _min_interp src = Ok T /\
    opt_branch_length minimize_scalar self branch = Ok L /\
    length p_logprob = length (_make_node_grid self (T - L) g lit_0_25) /\
    set_sentinels MIN_LOG (MIN_LOG / 2) p_logprob = Ok p_sent /\
    interp1d (_make_node_grid self (T - L) g lit_0_25) (map (Qmult (-1)) p_sent) = Ok f.
Proof.
  unfold _convolve. cbn [the_interp]. rsimpl. intros H.
  bind_inv H as T HT. bind_inv H as L HL.
  apply convolve_on_grid_Ok in H as (p & ps & Hlen & Hps & Hf).
  exists T, L, p, ps. auto.
Qed.

Lemma convolve_defined (self : TreeTime) (src branch : interp) (inverse_time : bool)
    (g : nat) (L : Q) :
  callable src -> nondecreasing (interp_x src) ->
  callable branch -> spans_time_axis branch ->
  opt_branch_length minimize_scalar self branch = Ok L ->
  exists f, _convolve exp log minimize_scalar self (Some src) (Some branch) inverse_time g
            = Ok f.
Proof.
  intros Hsrc Hsorted Hbr Hspan HL. unfold _convolve. cbn [the_interp]. rsimpl.
  destruct (min_interp_defined src Hsrc Hsorted) as (T & ->). rsimpl.
  rewrite HL. rsimpl.
  apply convolve_on_grid_defined; try assumption.
  - rewrite make_node_grid_length. lia.
  - destruct inverse_time; rewrite ?length_map; reflexivity.
  - destruct inverse_time.
    + apply Forall_map, List.Forall_forall. intros s _. cbv beta. apply length_map.
    + apply Forall_map, Forall_map, List.Forall_forall. intros s _. cbv beta.
      rewrite !length_map. reflexivity.
Qed.

Lemma parent_neg_log_prob_Ok (self : TreeTime) (nd : node) (src branch : interp)
    (g : nat) (f : interp) :
  neg_log_prob nd = Present (Some src) -> branch_neg_log_prob nd = Some branch ->
  _parent_neg_log_prob exp log minimize_scalar self nd g = Ok f ->
  exists T L p_logprob p_sent,
    _min_interp src = Ok T /\
    opt_branch_length minimize_scalar self branch = Ok L /\
    length p_logprob = length (_make_node_grid self (T - L) g lit_0_25) /\
    set_sentinels MIN_LOG (MIN_LOG / 2) p_logprob = Ok p_sent /\
    interp1d (_make_node_grid self (T - L) g lit_0_25) (map (Qmult (-1)) p_sent) = Ok f.
Proof.
  intros Hsrc Hbr. unfold _parent_neg_log_prob, _find_node_opt_pos.
  rewrite Hsrc, Hbr. cbn [the_interp getattr]. rsimpl. intros H.
  bind_inv H as o Ho. bind_inv Ho as T HT. injection Ho as <-.
  bind_inv H as L HL. cbn [make_node_grid_opt] in H. rsimpl in H.
  apply convolve_on_grid_Ok in H as (p & ps & Hlen & Hps & Hf).
  exists T, L, p, ps. auto.
Qed.

Lemma parent_neg_log_prob_defined (self : TreeTime) (nd : node) (src branch : interp)
    (g : nat) (L : Q) :
  neg_log_prob nd = Present (Some src) -> branch_neg_log_prob nd = Some branch ->
  callable src -> nondecreasing (interp_x src) ->
  callable branch -> spans_time_axis branch ->
  opt_branch_length minimize_scalar self branch = Ok L ->
  exists f, _parent_neg_log_prob exp log minimize_scalar self nd g = Ok f.
Proof.
  intros Hnd Hb Hsrc Hsorted Hbr Hspan HL.
  unfold _parent_neg_log_prob, _find_node_opt_pos.
  rewrite Hnd, Hb. cbn [the_interp getattr]. rsimpl.
  destruct (min_interp_defined src Hsrc Hsorted) as (T & ->). rsimpl.
  rewrite HL. rsimpl. cbn [make_node_grid_opt]. rsimpl.
  apply convolve_on_grid_defined; try assumption.
  - rewrite make_node_grid_length. lia.
  - rewrite length_map. reflexivity.
  - apply Forall_map, List.Forall_forall. intros s _. cbv beta. apply length_map.
Qed.

End Convolution.

(** C9: when the bounded minimization reports no success, both
    routines take 0.0 for the optimal branch length, build the target
    grid around (optimum of the source) - 0 and return a curve on it; the
    failure does not raise. *)
Theorem optimizer_failure_substitutes_zero
    (exp log : Q -> Q)
    (minimize_scalar : (Q -> result Q) -> Q -> Q -> result OptimizeResult)
    (self : TreeTime) (nd : node) (src branch : interp) (inverse_time : bool)
    (g : nat) (r : OptimizeResult) :
  neg_log_prob nd = Present (Some src) -> branch_neg_log_prob nd = Some branch ->
  callable src -> nondecreasing (interp_x src) ->
  callable branch -> spans_time_axis branch ->
  minimize_scalar (interp_call branch) 0 (2 * max_node_abs_t self) = Ok r ->
  success r = false ->
  opt_branch_length minimize_scalar self branch = Ok 0 /\
  exists T f_convolve f_parent,
    _min_interp src = Ok T /\
    _convolve exp log minimize_scalar self (Some src) (Some branch) inverse_time g
      = Ok f_convolve /\
    Permutation (interp_x f_convolve) (_make_node_grid self (T - 0) g lit_0_25) /\
    _parent_neg_log_prob exp log minimize_scalar self nd g = Ok f_parent /\
    Permutation (interp_x f_parent) (_make_node_grid self (T - 0) g lit_0_25).
Proof.
  intros Hnd Hb Hsrc Hsorted Hbr Hspan Hr Hfail.
  pose proof (opt_branch_length_failure minimize_scalar self branch r Hr Hfail) as H0.
  split; [exact H0|].
  destruct (convolve_defined exp log minimize_scalar self src branch inverse_time g 0
              Hsrc Hsorted Hbr Hspan H0) as (fc & Hfc).
  destruct (parent_neg_log_prob_defined exp log minimize_scalar self nd src branch g 0
              Hnd Hb Hsrc Hsorted Hbr Hspan H0) as (fp & Hfp).
  destruct (convolve_Ok _ _ _ _ _ _ _ _ _ Hfc) as (T & L & p & ps & HT & HL & _ & _ & Hi).
  destruct (parent_neg_log_prob_Ok _ _ _ _ _ _ _ _ _ Hnd Hb Hfp)
    as (T' & L' & p' & ps' & HT' & HL' & _ & _ & Hi').
  rewrite H0 in HL, HL'. injection HL as <-. injection HL' as <-.
  rewrite HT in HT'. injection HT' as <-.
  exists T, fc, fp. split; [exact HT|]. split; [exact Hfc|].
  split; [apply (interp1d_Ok _ _ _ Hi)|]. split; [exact Hfp|].
  apply (interp1d_Ok _ _ _ Hi').
Qed.

Lemma optimizer_failure_substitutes_zero_witness :
  opt_branch_length minimize_fails example_config example_branch = Ok 0 /\
  exists T f_convolve f_parent,
    _min_interp example_source = Ok T /\
    _convolve exp_approx log_approx minimize_fails example_config
      (Some example_source) (Some example_branch) true 100 = Ok f_convolve /\
    Permutation (interp_x f_convolve) (_make_node_grid example_config (T - 0) 100 lit_0_25) /\
    _parent_neg_log_prob exp_approx log_approx minimize_fails example_config
      example_node 100 = Ok f_parent /\
    Permutation (interp_x f_parent) (_make_node_grid example_config (T - 0) 100 lit_0_25).
Proof.
  apply (optimizer_failure_substitutes_zero exp_approx log_approx minimize_fails
           example_config example_node example_source example_branch true 100
           (MkOptimizeResult false 0)).
  - reflexivity.
  - reflexivity.
  - split; [simpl; lia | reflexivity].
  - repeat constructor; discriminate.
  - split; [simpl; lia | reflexivity].
  - split; discriminate.
  - reflexivity.
  - reflexivity.
Defined.

(** ** The direction of the convolution *)

Lemma make_node_grid_In (self : TreeTime) (opt : Q) (g : nat) (variance v : Q) :
  0 < max_node_abs_t self * variance ->
  In v (_make_node_grid self opt g variance) ->
  v = MIN_T \/ v = MAX_T \/
  (opt - max_node_abs_t self * variance <= v /\ v <= opt + max_node_abs_t self * variance).
Proof.
  intros Hs. unfold _make_node_grid.
  set (scale := max_node_abs_t self * variance) in *.
  rewrite !in_app_iff. intros [H|[H|[H|H]]].
  - left. destruct H as [<-|[]]. reflexivity.
  - right. right.
    pose proof (grid_root_bounds opt scale (g / 2 - 1) Hs) as Hb.
    rewrite List.Forall_forall in Hb. destruct (Hb v H). split; lra.
  - right. right.
    pose proof (grid_leaves_bounds opt scale (g / 2) Hs) as Hb.
    rewrite List.Forall_forall in Hb. destruct (Hb v H). split; lra.
  - right. left. destruct H as [<-|[]]. reflexivity.
Qed.

(** C2, the forward direction ([inverse_time = False]): the target grid
    is centered at T - L, where T is the optimum of the source and L the
    optimal branch length, exactly as in the backward direction.  The
    optimum of the returned curve is a point of that grid, so it is
    [MIN_T], [MAX_T] or within [scale] of T - L; it cannot come near
    T + L once 2 L exceeds [scale]. *)
Theorem forward_convolution_centered_at_T_minus_L
    (exp log : Q -> Q)
    (minimize_scalar : (Q -> result Q) -> Q -> Q -> result OptimizeResult)
    (self : TreeTime) (src branch : interp) (g : nat) (f : interp) (o : Q) :
  0 < max_node_abs_t self * lit_0_25 ->
  _convolve exp log minimize_scalar self (Some src) (Some branch) false g = Ok f ->
  _min_interp f = Ok o ->
  exists T L,
    _min_interp src = Ok T /\
    opt_branch_length minimize_scalar self branch = Ok L /\
    Permutation (interp_x f) (_make_node_grid self (T - L) g lit_0_25) /\
    (o = MIN_T \/ o = MAX_T \/
     (T - L - max_node_abs_t self * lit_0_25 <= o /\
      o <= T - L + max_node_abs_t self * lit_0_25)).
Proof.
  intros Hs Hf Ho.
  destruct (convolve_Ok _ _ _ _ _ _ _ _ _ Hf) as (T & L & p & ps & HT & HL & _ & _ & Hi).
  exists T, L. split; [exact HT|]. split; [exact HL|].
  destruct (interp1d_Ok _ _ _ Hi) as (_ & Hperm & _ & _).
  split; [exact Hperm|].
  apply (make_node_grid_In self (T - L) g lit_0_25 o Hs).
  apply (Permutation_in _ Hperm). apply min_interp_In. exact Ho.
Qed.

(** At the input T = 10, L = 4 on a tree of depth 4, in the forward
    direction: T + L = 14, yet the optimum of the returned curve is about
    5.04, a point of the grid around T - L = 6. *)
Lemma forward_convolution_centered_at_T_minus_L_witness :
  exists f o,
    _convolve exp_approx log_approx minimize3 example_config
      (Some example_source) (Some example_branch) false 100 = Ok f /\
    _min_interp f = Ok o /\
    _min_interp example_source = Ok 10 /\
    opt_branch_length minimize3 example_config example_branch = Ok (8 # 2) /\
    o < 6 /\
    exists T L,
      _min_interp example_source = Ok T /\
      opt_branch_length minimize3 example_config example_branch = Ok L /\
      Permutation (interp_x f) (_make_node_grid example_config (T - L) 100 lit_0_25) /\
      (o = MIN_T \/ o = MAX_T \/
       (T - L - max_node_abs_t example_config * lit_0_25 <= o /\
        o <= T - L + max_node_abs_t example_config * lit_0_25)).
Proof.
  eexists _, _.
  split; [vm_compute; reflexivity|].
  split; [vm_compute; reflexivity|].
  split; [reflexivity|]. split; [reflexivity|]. split; [reflexivity|].
  apply (forward_convolution_centered_at_T_minus_L exp_approx log_approx minimize3
           example_config example_source example_branch 100).
  - reflexivity.
  - vm_compute. reflexivity.
  - vm_compute. reflexivity.
Defined.

(** ** The combiner *)

Lemma minQ_spec (d : Q) (l : list Q) :
  (minQ d l = d \/ In (minQ d l) l) /\ minQ d l <= d /\ Forall (fun v => minQ d l <= v) l.
Proof.
  revert d. induction l as [|a l IH]; intros d; simpl.
  - split; [left; reflexivity|]. split; [apply Qle_refl | constructor].
  - destruct (Qltb a d) eqn:E.
    + apply Qltb_lt in E. destruct (IH a) as (Hin & Hle & Hall).
      split; [right; destruct Hin as [->|Hin]; auto|].
      split; [lra|]. constructor; assumption.
    + apply Qltb_ge in E. destruct (IH d) as (Hin & Hle & Hall).
      split; [destruct Hin as [->|Hin]; auto|].
      split; [exact Hle|]. constructor; [lra | assumption].
Qed.

Lemma np_min_spec (l : list Q) (m : Q) :
  np_min l = Ok m -> In m l /\ Forall (fun v => m <= v) l.
Proof.
  destruct l as [|a l]; simpl; [discriminate|]. intros [= <-].
  destruct (minQ_spec a l) as (Hin & Hle & Hall). split.
  - destruct Hin as [->|Hin]; auto.
  - constructor; assumption.
Qed.

Lemma np_min_defined (l : list Q) : l <> [] -> exists m, np_min l = Ok m.
Proof. destruct l; [contradiction|]. simpl. eauto. Qed.

Lemma sentinel_values :
  sentinel_outer == 1000 /\ sentinel_inner == 500 /\ sentinel_inner < sentinel_outer.
Proof. repeat split. Qed.

(** The steps of [_multiply_dists], whenever it returns. *)
Lemma multiply_dists_Ok (self : TreeTime) (interps : list interp) (prefactors : list Q)
    (g : nat) (f : interp) (pre' : Q) :
  _multiply_dists self interps prefactors g = Ok (f, pre') ->
  exists grid node_prob pre sent,
    multiply_grid self interps g = Ok grid /\
    pointwise_sum interps grid = Ok node_prob /\
    np_min node_prob = Ok pre /\
    pre' = sumQ prefactors + pre /\
    set_sentinels sentinel_outer sentinel_inner (map (fun v => v - pre) node_prob)
      = Ok sent /\
    interp1d grid sent = Ok f.
Proof.
  unfold _multiply_dists. intros H.
  bind_inv H as grid Hgrid. bind_inv H as node_prob Hnp. bind_inv H as pre Hpre.
  bind_inv H as sent Hsent. bind_inv H as f' Hf. injection H as <- <-.
  exists grid, node_prob, pre, sent.
  split; [exact Hgrid|]. split; [exact Hnp|]. split; [exact Hpre|].
  split; [reflexivity|]. split; [exact Hsent | exact Hf].
Qed.

Lemma nth_set_sentinels {A : Type} (outer inner d : A) (a sent : list A) (i : nat) :
  set_sentinels outer inner a = Ok sent ->
  (2 <= i)%nat -> (i + 2 < length a)%nat -> nth i sent d = nth i a d.
Proof.
  intros H Hi Hn. rewrite set_sentinels_spec in H by lia. injection H as <-.
  rewrite !nth_lookup, !list_lookup_insert_ne by lia. reflexivity.
Qed.

Lemma Forall_set_sentinels {A : Type} (P : A -> Prop) (outer inner : A) (a sent : list A) :
  set_sentinels outer inner a = Ok sent ->
  P outer -> P inner -> Forall P a -> Forall P sent.
Proof.
  intros H Ho Hi Ha.
  destruct (le_lt_dec 2 (length a)) as [Hn|Hn].
  - rewrite set_sentinels_spec in H by lia. injection H as <-.
    repeat apply Forall_insert; assumption.
  - rewrite set_sentinels_short in H by lia. discriminate.
Qed.

Lemma set_sentinels_length {A : Type} (outer inner : A) (a sent : list A) :
  set_sentinels outer inner a = Ok sent -> length sent = length a /\ (2 <= length a)%nat.
Proof.
  intros H. destruct (le_lt_dec 2 (length a)) as [Hn|Hn].
  - rewrite set_sentinels_spec in H by lia. injection H as <-.
    rewrite !length_insert. auto.
  - rewrite set_sentinels_short in H by lia. discriminate.
Qed.

(** C1 as stated fails on a curve that carries the sentinels: the
    single curve with the values 1000, 500, 600, 500, 1000 is returned
    with the values 1000, 500, 100, 500, 1000, whose minimum is 100. *)
Lemma multiply_dists_minimum_overwritten :
  let self := MkTreeTime example_tree None 4 in
  let d := Interp [MIN_T; 1; 2; 3; MAX_T] [1000; 500; 600; 500; 1000] in
  well_formed d /\
  exists f pre m,
    _multiply_dists self [d] [0] 100 = Ok (f, pre) /\
    map Qred (interp_y f) = [1000; 500; 100; 500; 1000] /\
    np_min (interp_y f) = Ok m /\ m == 100 /\ ~ m == 0.
Proof.
  intros self d. split.
  { split; [repeat constructor|]. split; [reflexivity|].
    exists 1000, 500, [600], 500, 1000. repeat split. }
  eexists _, _, _.
  split; [vm_compute; reflexivity|].
  split; [reflexivity|].
  split; [vm_compute; reflexivity|].
  split; [reflexivity | discriminate].
Qed.

(** C1, amended.  Whenever [_multiply_dists] returns (no division by
    zero on the way): the returned prefactor is the sum of the input
    prefactors plus the minimum [pre] of the pointwise sum; the returned
    curve is the [interp1d] object over the grid and the values [sent],
    the pointwise sum less [pre] with the two outermost values on each
    side then overwritten by 1000 and 500, in this order of points when
    the grid is strictly increasing; the minimum of the returned
    values is never negative, and it is 0 whenever the pointwise sum takes
    its minimum at a grid point that is not one of the two outermost on
    either side. *)
Theorem multiply_dists_normalized (self : TreeTime) (interps : list interp)
    (prefactors : list Q) (g : nat) (f : interp) (pre' : Q) :
  _multiply_dists self interps prefactors g = Ok (f, pre') ->
  exists grid node_prob pre sent m,
    multiply_grid self interps g = Ok grid /\
    pointwise_sum interps grid = Ok node_prob /\
    np_min node_prob = Ok pre /\
    pre' = sumQ prefactors + pre /\
    set_sentinels sentinel_outer sentinel_inner (map (fun v => v - pre) node_prob)
    = Ok sent /\
    ((4 <= length node_prob)%nat ->
     sent = sentinel_outer :: sentinel_inner
            :: take (length node_prob - 4) (drop 2 (map (fun v => v - pre) node_prob))
            ++ [sentinel_inner; sentinel_outer]) /\
    interp1d grid sent = Ok f /\
    (increasing grid -> interp_x f = grid /\ interp_y f = sent) /\
    np_min (interp_y f) = Ok m /\
    0 <= m /\
    ((exists i, (2 <= i)%nat /\ (i + 2 < length node_prob)%nat /\
                nth i node_prob 0 == pre) -> m == 0).
Proof.
  intros H.
  destruct (multiply_dists_Ok _ _ _ _ _ _ H)
    as (grid & node_prob & pre & sent & Hgrid & Hnp & Hpre & -> & Hsent & Hf).
  destruct (interp1d_Ok _ _ _ Hf) as (Hlen & _ & Hperm & _).
  destruct (np_min_spec _ _ Hpre) as [Hin Hall].
  assert (Hnonneg : Forall (fun v => 0 <= v) (interp_y f)).
  { rewrite Hperm. eapply Forall_set_sentinels; [exact Hsent|vm_compute; discriminate..|].
    apply Forall_map. eapply Forall_impl; [exact Hall|]. simpl. intros v Hv. lra. }
  destruct (np_min_defined (interp_y f)) as (m & Hm).
  { intros E. rewrite E in Hperm. apply Permutation_nil in Hperm. subst sent.
    apply set_sentinels_length in Hsent as [Hl Hn]. simpl in Hl. lia. }
  exists grid, node_prob, pre, sent, m.
  split; [exact Hgrid|]. split; [exact Hnp|]. split; [exact Hpre|].
  split; [reflexivity|]. split; [exact Hsent|].
  split.
  { intros Hn. pose proof Hsent as Hs.
    rewrite set_sentinels_shape in Hs by (rewrite length_map; exact Hn).
    injection Hs as <-. rewrite length_map. reflexivity. }
  split; [exact Hf|].
  split.
  { intros Hsorted.
    rewrite (interp1d_in_order grid sent Hlen (increasing_nondecreasing _ Hsorted)) in Hf.
    injection Hf as <-. split; reflexivity. }
  split; [exact Hm|].
  destruct (np_min_spec _ _ Hm) as [Hmin Hmall]. split.
  - rewrite List.Forall_forall in Hnonneg. apply Hnonneg, Hmin.
  - intros (i & Hi & Hn & Hv).
    assert (Hnth : nth i sent 0 = nth i node_prob 0 - pre).
    { rewrite (nth_set_sentinels _ _ 0 _ _ i Hsent) by (rewrite ?length_map; lia).
      apply (nth_map_Q (fun v => v - pre)). lia. }
    assert (Hin' : In (nth i node_prob 0 - pre) (interp_y f)).
    { apply (Permutation_in _ (Permutation_sym Hperm)). rewrite <- Hnth.
      apply nth_In. apply set_sentinels_length in Hsent as [-> _].
      rewrite length_map. lia. }
    rewrite List.Forall_forall in Hmall, Hnonneg.
    specialize (Hmall _ Hin'). specialize (Hnonneg _ Hmin). lra.
Qed.

Lemma multiply_dists_normalized_witness :
  exists f pre',
    _multiply_dists example_config [example_source; example_long_a] [1; 2] 100
    = Ok (f, pre') /\
    pre' == 3 + (6249625 # 12499) /\
    exists m, np_min (interp_y f) = Ok m /\ m == 0.
Proof.
  eexists _, _. split; [vm_compute; reflexivity|]. split; [reflexivity|].
  destruct (multiply_dists_normalized example_config [example_source; example_long_a]
              [1; 2] 100 _ _ ltac:(vm_compute; reflexivity))
    as (grid & node_prob & pre & sent & m & Hg & Hnp & Hpre & _ & _ & _ & _ & _ & Hm & _
        & Hint).
  exists m. split; [exact Hm|]. apply Hint.
  vm_compute in Hg. injection Hg as <-.
  vm_compute in Hnp. injection Hnp as <-.
  vm_compute in Hpre. injection Hpre as <-.
  exists 10%nat. split; [lia|]. split; [simpl; lia | reflexivity].
Defined.

(** ** Sentinels and grids of the curves the core builds *)

Lemma sentinels_at_ends_intro (f : interp) (mid : list Q) :
  interp_y f = sentinel_outer :: sentinel_inner :: mid ++ [sentinel_inner; sentinel_outer] ->
  sentinels_at_ends f.
Proof. intros H. exists sentinel_outer, sentinel_inner, mid, sentinel_inner, sentinel_outer.
  repeat split; [exact H | reflexivity..].
Qed.

Lemma well_formed_length (f : interp) : well_formed f -> (4 <= length (interp_x f))%nat.
Proof.
  intros (_ & -> & o1 & i1 & mid & i2 & o2 & -> & _). simpl. rewrite length_app. simpl. lia.
Qed.

(** *** np.unique *)

Lemma insert_unique_In (v a : Q) (l : list Q) :
  In a (insert_unique v l) -> a = v \/ In a l.
Proof.
  induction l as [|b l IH]; simpl.
  - intros [<-|[]]. auto.
  - destruct (v ?= b); simpl; intros H.
    + auto.
    + destruct H as [<-|H]; auto.
    + destruct H as [<-|H]; auto. destruct (IH H); auto.
Qed.

Lemma insert_unique_increasing (v : Q) (l : list Q) :
  increasing l -> increasing (insert_unique v l).
Proof.
  induction 1 as [|b l Hs IH Hd]; simpl; [repeat constructor|].
  destruct (v ?= b) eqn:E.
  - constructor; assumption.
  - apply Qlt_alt in E. repeat constructor; assumption.
  - apply Qgt_alt in E. constructor; [exact IH|].
    destruct l as [|c l]; simpl; [constructor; exact E|].
    inversion Hd; subst. destruct (v ?= c); constructor; assumption.
Qed.

Lemma insert_unique_covers (v a : Q) (l : list Q) :
  a == v \/ (exists b, In b l /\ a == b) ->
  exists b, In b (insert_unique v l) /\ a == b.
Proof.
  induction l as [|c l IH]; simpl.
  - intros [H|(b & [] & _)]. exists v. auto.
  - destruct (v ?= c) eqn:E; simpl.
    + apply Qeq_alt in E. intros [H|(b & Hb & Hab)].
      * exists c. split; [auto|]. rewrite H. exact E.
      * exists b. auto.
    + intros [H|(b & Hb & Hab)]; [exists v; auto | exists b; auto].
    + intros [H|(b & [<-|Hb] & Hab)].
      * destruct IH as (b & Hb & Hab); [auto|]. exists b. auto.
      * exists c. auto.
      * destruct IH as (b' & Hb' & Hab'); [right; eauto|]. exists b'. auto.
Qed.

Lemma np_unique_increasing (l : list Q) : increasing (np_unique l).
Proof.
  induction l as [|a l IH]; simpl; [constructor|]. apply insert_unique_increasing, IH.
Qed.

Lemma np_unique_In (a : Q) (l : list Q) : In a (np_unique l) -> In a l.
Proof.
  induction l as [|c l IH]; simpl; [auto|]. intros H.
  apply insert_unique_In in H as [->|H]; auto.
Qed.

Lemma np_unique_covers (a : Q) (l : list Q) :
  In a l -> exists b, In b (np_unique l) /\ a == b.
Proof.
  induction l as [|c l IH]; simpl; [intros []|]. intros [<-|H].
  - apply insert_unique_covers. left. reflexivity.
  - apply insert_unique_covers. right. apply IH, H.
Qed.

Lemma increasing_head_least (a : Q) (l : list Q) :
  increasing (a :: l) -> Forall (fun b => a < b) l.
Proof.
  intros H. apply Sorted_StronglySorted in H; [|intros x y z; apply Qlt_trans].
  inversion H; subst. assumption.
Qed.

(** A strictly increasing list whose points all occur in another
    strictly increasing list is no longer than that list. *)
Lemma increasing_embedding (l u : list Q) :
  increasing l -> increasing u ->
  (forall a, In a l -> exists b, In b u /\ a == b) ->
  (length l <= length u)%nat.
Proof.
  intros Hl Hu. revert l Hl. induction Hu as [|c u Hs IH Hd]; intros l Hl Hsub.
  - destruct l as [|a l]; [simpl; lia|].
    destruct (Hsub a (or_introl eq_refl)) as (b & [] & _).
  - destruct l as [|a l]; [simpl; lia|].
    pose proof (increasing_head_least a l Hl) as Hal.
    pose proof (increasing_head_least c u (Sorted_cons Hs Hd)) as Hcu.
    rewrite List.Forall_forall in Hal, Hcu.
    assert (Htail : forall a', In a' l -> exists b, In b u /\ a' == b).
    { intros a' Ha'. destruct (Hsub a' (or_intror Ha')) as (b & [<-|Hb] & Hab).
      - exfalso. destruct (Hsub a (or_introl eq_refl)) as (b0 & [<-|Hb0] & Hab0).
        + specialize (Hal _ Ha'). lra.
        + specialize (Hal _ Ha'). specialize (Hcu _ Hb0). lra.
      - eauto. }
    inversion Hl; subst.
    destruct (Hsub a (or_introl eq_refl)) as (b & [<-|Hb] & Hab).
    + simpl. specialize (IH l ltac:(assumption) Htail). lia.
    + assert (length (a :: l) <= length u)%nat; [|simpl in *; lia].
      apply IH; [exact Hl|]. intros a' [<-|Ha']; [eauto | apply Htail, Ha'].
Qed.

(** *** Monotone images of linspace *)

Lemma linspace_map_increasing (h : Q -> Q) (a b : Q) (m : nat) :
  a < b ->
  (forall s t, a <= s -> s < t -> t <= b -> h s < h t) ->
  increasing (map h (linspace a b m)).
Proof.
  intros Hab Hh. apply Sorted_of_nth. intros i Hi.
  rewrite length_map, linspace_length in Hi.
  rewrite !nth_map_Q by (rewrite linspace_length; lia).
  destruct (linspace_step a b m i Hi) as (d & Hd & Hstep).
  assert (Hi' : (i < m)%nat) by lia.
  destruct (linspace_sample a b m i Hi') as (t & Ht0 & Ht1 & Hs).
  destruct (linspace_sample a b m (S i) Hi) as (t' & Ht0' & Ht1' & Hs').
  assert (Hq : 0 < qn (m - 1)) by (apply qn_pos; lia).
  assert (Hdpos : 0 < d) by nra.
  apply Hh; nra.
Qed.

Lemma linspace_map_increasing_rev (h : Q -> Q) (a b : Q) (m : nat) :
  b < a ->
  (forall s t, b <= t -> t < s -> s <= a -> h s < h t) ->
  increasing (map h (linspace a b m)).
Proof.
  intros Hab Hh. apply Sorted_of_nth. intros i Hi.
  rewrite length_map, linspace_length in Hi.
  rewrite !nth_map_Q by (rewrite linspace_length; lia).
  destruct (linspace_step a b m i Hi) as (d & Hd & Hstep).
  assert (Hi' : (i < m)%nat) by lia.
  destruct (linspace_sample a b m i Hi') as (t & Ht0 & Ht1 & Hs).
  destruct (linspace_sample a b m (S i) Hi) as (t' & Ht0' & Ht1' & Hs').
  assert (Hq : 0 < qn (m - 1)) by (apply qn_pos; lia).
  assert (Hdneg : d < 0) by nra.
  apply Hh; nra.
Qed.

Lemma linspace_map_bounds (h : Q -> Q) (a b lo hi : Q) (m : nat) :
  (forall s, Qmin a b <= s -> s <= Qmax a b -> lo <= h s /\ h s <= hi) ->
  Forall (fun v => lo <= v /\ v <= hi) (map h (linspace a b m)).
Proof.
  intros Hh. apply Forall_map, List.Forall_forall. intros s Hs.
  apply linspace_In in Hs as (t & Ht0 & Ht1 & Hs).
  apply Hh.
  - apply Q.min_case_strong; [intros ? ? E H; rewrite <- E; exact H | |]; intros; nra.
  - apply Q.max_case_strong; [intros ? ? E H; rewrite <- E; exact H | |]; intros; nra.
Qed.

(** *** The constraint of a dated node *)

Lemma delta_neg_log_prob_well_formed (log : Q -> Q) (t : Q) :
  0 < t -> t * (1 + lit_1e_10) < MAX_T ->
  exists f, delta_neg_log_prob log t = Ok f /\ well_formed f /\
            interp_x f = [MIN_T; t * (1 - lit_1e_10); t * 1; t * (1 + lit_1e_10); MAX_T].
Proof.
  intros Ht Hmax. unfold delta_neg_log_prob.
  assert (Hinc : increasing
            ([MIN_T] ++ map (Qmult t) [1 - lit_1e_10; 1; 1 + lit_1e_10] ++ [MAX_T])).
  { simpl. unfold lit_1e_10, MIN_T, MAX_T in *. repeat constructor; nra. }
  rewrite interp1d_in_order; [|reflexivity|apply increasing_nondecreasing, Hinc].
  eexists. split; [reflexivity|]. split; [|reflexivity].
  split; [exact Hinc|]. split; [reflexivity|].
  apply (sentinels_at_ends_intro _ [-1 * log lit_1e10]). reflexivity.
Qed.

Lemma Qle_bool_false (a b : Q) : b < a -> Qle_bool a b = false.
Proof.
  intros H. destruct (Qle_bool a b) eqn:E; [|reflexivity].
  apply Qle_bool_iff in E. lra.
Qed.

Lemma Qle_bool_true (a b : Q) : a <= b -> Qle_bool a b = true.
Proof. apply Qle_bool_iff. Qed.

(** The constraint of a node dated at a negative time: [interp1d] puts
    the three middle points, which the source lists in decreasing order,
    in increasing order. *)
Lemma delta_neg_log_prob_negative (log : Q -> Q) (t : Q) :
  t < 0 -> MIN_T < t * (1 + lit_1e_10) ->
  exists f, delta_neg_log_prob log t = Ok f /\ well_formed f /\
            interp_x f = [MIN_T; t * (1 + lit_1e_10); t * 1; t * (1 - lit_1e_10); MAX_T].
Proof.
  intros Ht Hmin. unfold delta_neg_log_prob, interp1d.
  cbn [length app map Nat.eqb negb]. unfold sort_by_x.
  cbn [zip zip_with foldr insert_by_x fst].
  assert (Hlo : t * (1 + lit_1e_10) < t * 1) by (unfold lit_1e_10; nra).
  assert (Hhi : t * 1 < t * (1 - lit_1e_10)) by (unfold lit_1e_10; nra).
  assert (Hmax : t * (1 - lit_1e_10) < MAX_T) by (unfold lit_1e_10, MAX_T; nra).
  rewrite (Qle_bool_true (t * (1 + lit_1e_10)) MAX_T) by lra.
  cbn [insert_by_x fst].
  rewrite (Qle_bool_false (t * 1) (t * (1 + lit_1e_10))) by lra.
  cbn [insert_by_x fst].
  rewrite (Qle_bool_true (t * 1) MAX_T) by lra.
  cbn [insert_by_x fst].
  rewrite (Qle_bool_false (t * (1 - lit_1e_10)) (t * (1 + lit_1e_10))) by lra.
  cbn [insert_by_x fst].
  rewrite (Qle_bool_false (t * (1 - lit_1e_10)) (t * 1)) by lra.
  cbn [insert_by_x fst].
  rewrite (Qle_bool_true (t * (1 - lit_1e_10)) MAX_T) by lra.
  cbn [insert_by_x fst].
  rewrite (Qle_bool_true MIN_T (t * (1 + lit_1e_10))) by lra.
  eexists. split; [reflexivity|]. cbn [map fst snd interp_x interp_y].
  split; [|reflexivity].
  split; [cbn [interp_x]; repeat constructor; lra|].
  split; [reflexivity|].
  apply (sentinels_at_ends_intro _ [-1 * log lit_1e10]). reflexivity.
Qed.

(** The three middle points of the constraint are distinct exactly when
    the time is not 0. *)
Lemma delta_points_distinct (t : Q) :
  ~ t == 0 <->
  (~ t * (1 - lit_1e_10) == t * 1 /\ ~ t * 1 == t * (1 + lit_1e_10)).
Proof.
  unfold lit_1e_10. split.
  - intros Ht. split; intros H; apply Ht; nra.
  - intros [H _] Ht. apply H. rewrite Ht. ring.
Qed.

Lemma delta_neg_log_prob_distinct (log : Q -> Q) (t : Q) :
  ~ t * (1 - lit_1e_10) == t * 1 ->
  ~ t * 1 == t * (1 + lit_1e_10) ->
  Forall (fun x => MIN_T < x /\ x < MAX_T)
         (map (Qmult t) [1 - lit_1e_10; 1; 1 + lit_1e_10]) ->
  exists f, delta_neg_log_prob log t = Ok f /\ well_formed f.
Proof.
  intros H1 H2 Hr.
  assert (Ht : ~ t == 0) by (apply delta_points_distinct; auto).
  cbn [map] in Hr. inversion Hr as [|? ? _ Hr']; subst.
  inversion Hr' as [|? ? _ Hr'']; subst. inversion Hr'' as [|? ? [Hlo Hhi] _]; subst.
  destruct (Q_dec t 0) as [[Hneg|Hpos]|Hz]; [| |contradiction].
  - destruct (delta_neg_log_prob_negative log t Hneg Hlo) as (f & Hf & Hwf & _). eauto.
  - destruct (delta_neg_log_prob_well_formed log t Hpos Hhi) as (f & Hf & Hwf & _). eauto.
Qed.

(** *** The output of the convolution *)

Lemma sentinel_shape_neg (p ps : list Q) :
  (4 <= length p)%nat -> set_sentinels MIN_LOG (MIN_LOG / 2) p = Ok ps ->
  exists mid,
    map (Qmult (-1)) ps
    = sentinel_outer :: sentinel_inner :: mid ++ [sentinel_inner; sentinel_outer].
Proof.
  intros Hn H. rewrite set_sentinels_shape in H by exact Hn. injection H as <-.
  exists (map (Qmult (-1)) (take (length p - 4) (drop 2 p))).
  simpl. rewrite map_app. reflexivity.
Qed.

Section CoreCurves.
Variable exp : Q -> Q.
Variable log : Q -> Q.
Variable minimize_scalar : (Q -> result Q) -> Q -> Q -> result OptimizeResult.

Lemma convolve_well_formed (self : TreeTime) (src branch : interp) (inverse_time : bool)
    (g : nat) (f : interp) :
  (4 <= g)%nat ->
  _convolve exp log minimize_scalar self (Some src) (Some branch) inverse_time g = Ok f ->
  exists T L,
    _min_interp src = Ok T /\
    opt_branch_length minimize_scalar self branch = Ok L /\
    (0 < max_node_abs_t self * lit_0_25 ->
     MIN_T < T - L - max_node_abs_t self * lit_0_25 ->
     T - L + max_node_abs_t self * lit_0_25 < MAX_T ->
     well_formed f /\ interp_x f = _make_node_grid self (T - L) g lit_0_25).
Proof.
  intros Hg H.
  destruct (convolve_Ok _ _ _ _ _ _ _ _ _ H) as (T & L & p & ps & HT & HL & Hlen & Hps & Hf).
  exists T, L. split; [exact HT|]. split; [exact HL|]. intros Hs Hlo Hhi.
  pose proof (make_node_grid_sorted self (T - L) g lit_0_25 Hs Hlo Hhi) as Hinc.
  assert (Hn : (4 <= length p)%nat).
  { rewrite Hlen, make_node_grid_length.
    pose proof (Nat.div_le_lower_bound g 2 2). lia. }
  destruct (set_sentinels_length _ _ _ _ Hps) as [Hlps _].
  rewrite interp1d_in_order in Hf.
  2: { rewrite length_map. lia. }
  2: apply increasing_nondecreasing, Hinc.
  injection Hf as <-. unfold well_formed. cbn [interp_x interp_y].
  split; [|reflexivity].
  split; [exact Hinc|]. split; [rewrite length_map; lia|].
  destruct (sentinel_shape_neg p ps Hn Hps) as (mid & Hmid).
  apply (sentinels_at_ends_intro _ mid). exact Hmid.
Qed.

Lemma convolve_carries_sentinels (self : TreeTime) (src branch : interp)
    (inverse_time : bool) (g : nat) (f : interp) :
  (4 <= g)%nat ->
  _convolve exp log minimize_scalar self (Some src) (Some branch) inverse_time g = Ok f ->
  exists T L,
    _min_interp src = Ok T /\
    opt_branch_length minimize_scalar self branch = Ok L /\
    (0 < max_node_abs_t self * lit_0_25 ->
     MIN_T < T - L - max_node_abs_t self * lit_0_25 ->
     T - L + max_node_abs_t self * lit_0_25 < MAX_T ->
     nondecreasing (interp_x f) /\
     length (interp_x f) = length (interp_y f) /\
     sentinels_at_ends f).
Proof.
  intros Hg H.
  destruct (convolve_well_formed self src branch inverse_time g f Hg H)
    as (T & L & HT & HL & Hwf).
  exists T, L. split; [exact HT|]. split; [exact HL|]. intros Hs Hlo Hhi.
  destruct (Hwf Hs Hlo Hhi) as [(Hinc & Hlen & Hsent) _].
  split; [apply increasing_nondecreasing, Hinc|]. split; assumption.
Qed.

End CoreCurves.

(** *** The output of the combiner *)

Lemma sum_axis0_length (k : nat) (rows : list (list Q)) :
  Forall (fun row => length row = k) rows -> length (sum_axis0 k rows) = k.
Proof.
  unfold sum_axis0. induction 1 as [|row rows Hrow _ IH]; simpl.
  - apply length_replicate.
  - rewrite length_zip_with. lia.
Qed.

Lemma pointwise_sum_length (interps : list interp) (grid node_prob : list Q) :
  pointwise_sum interps grid = Ok node_prob -> length node_prob = length grid.
Proof.
  unfold pointwise_sum. intros H. bind_inv H as rows Hrows. injection H as <-.
  apply sum_axis0_length. apply mapR_Forall2 in Hrows.
  induction Hrows as [|k row ks rows Hk _ IH]; constructor; [|exact IH].
  apply mapR_length in Hk. exact Hk.
Qed.

(** Whatever grid the combiner chose, if it is strictly increasing and
    has four points or more the result carries the sentinels at its
    ends. *)
Lemma multiply_dists_on_increasing_grid (self : TreeTime) (interps : list interp)
    (prefactors : list Q) (g : nat) (f : interp) (pre : Q) (grid : list Q) :
  _multiply_dists self interps prefactors g = Ok (f, pre) ->
  multiply_grid self interps g = Ok grid ->
  increasing grid -> (4 <= length grid)%nat ->
  well_formed f /\ interp_x f = grid.
Proof.
  intros H Hgrid Hinc Hn.
  destruct (multiply_dists_Ok _ _ _ _ _ _ H)
    as (grid' & node_prob & pre0 & sent & Hgrid' & Hnp & Hpre & _ & Hsent & Hf).
  rewrite Hgrid in Hgrid'. injection Hgrid' as <-.
  pose proof (pointwise_sum_length _ _ _ Hnp) as Hlen.
  destruct (set_sentinels_length _ _ _ _ Hsent) as [Hls _]. rewrite length_map in Hls.
  rewrite interp1d_in_order in Hf; [|lia | apply increasing_nondecreasing, Hinc].
  injection Hf as <-. unfold well_formed. cbn [interp_x interp_y].
  split; [|reflexivity].
  split; [exact Hinc|]. split; [lia|].
  rewrite set_sentinels_shape in Hsent by (rewrite length_map; lia).
  injection Hsent as <-. eapply sentinels_at_ends_intro. reflexivity.
Qed.

Lemma np_min_lengths_lt (interps : list interp) (m : Q) (bound : nat) :
  np_min (map (fun k => inject_Z (Z.of_nat (length (interp_x k)))) interps) = Ok m ->
  (Qltb m (qn bound) = true <->
   Exists (fun k => (length (interp_x k) < bound)%nat) interps).
Proof.
  intros H. apply np_min_spec in H as [Hin Hall].
  rewrite Qltb_lt, List.Exists_exists. split.
  - intros Hm. apply in_map_iff in Hin as (k & <- & Hk). exists k. split; [exact Hk|].
    unfold qn in Hm. rewrite <- Zlt_Qlt in Hm. lia.
  - intros (k & Hk & Hlt). rewrite List.Forall_forall in Hall.
    eapply Qle_lt_trans; [apply Hall, in_map_iff; eauto|].
    unfold qn. rewrite <- Zlt_Qlt. lia.
Qed.

(** When one of the inputs is short the grid is the union of the input
    grids, strictly increasing by [np.unique]; with four points or more
    the sentinels sit at its ends. *)
Lemma multiply_dists_union_carries_sentinels (self : TreeTime) (interps : list interp)
    (prefactors : list Q) (g : nat) (f : interp) (pre : Q) :
  _multiply_dists self interps prefactors g = Ok (f, pre) ->
  Exists (fun k => (length (interp_x k) < 10)%nat) interps ->
  (4 <= length (np_unique (concat (map interp_x interps))))%nat ->
  well_formed f /\ interp_x f = np_unique (concat (map interp_x interps)).
Proof.
  intros H Hshort Hn.
  assert (Hgrid : multiply_grid self interps g
                  = Ok (np_unique (concat (map interp_x interps)))).
  { destruct (multiply_dists_Ok _ _ _ _ _ _ H) as (grid & _ & _ & _ & Hgrid & _).
    unfold multiply_grid in *. bind_inv Hgrid as m Hm. rewrite Hm. rsimpl.
    apply (np_min_lengths_lt _ _ 10) in Hm. change (qn 10) with 10 in Hm.
    rewrite (proj2 Hm Hshort). reflexivity. }
  apply (multiply_dists_on_increasing_grid _ _ _ _ _ _ _ H Hgrid);
    [apply np_unique_increasing | exact Hn].
Qed.

(** When every input is long the grid is a fresh node grid. *)
Lemma multiply_dists_fresh_well_formed (self : TreeTime) (interps : list interp)
    (prefactors : list Q) (g : nat) (f : interp) (pre : Q) :
  _multiply_dists self interps prefactors g = Ok (f, pre) ->
  Forall (fun k => (10 <= length (interp_x k))%nat) interps ->
  (4 <= g)%nat ->
  exists center scale,
    multiply_grid self interps g = Ok (_make_node_grid self center g scale) /\
    (0 < max_node_abs_t self * scale ->
     MIN_T < center - max_node_abs_t self * scale ->
     center + max_node_abs_t self * scale < MAX_T ->
     well_formed f /\ interp_x f = _make_node_grid self center g scale).
Proof.
  intros H Hlong Hg.
  destruct (multiply_dists_Ok _ _ _ _ _ _ H) as (grid & _ & _ & _ & Hgrid & _).
  pose proof Hgrid as Hgrid0.
  unfold multiply_grid in Hgrid. bind_inv Hgrid as m Hm.
  assert (Hge : Qltb m 10 = false).
  { destruct (Qltb m 10) eqn:E; [|reflexivity].
    apply (proj1 (np_min_lengths_lt _ _ 10 Hm)) in E.
    apply List.Exists_exists in E as (k & Hk & Hlt).
    rewrite List.Forall_forall in Hlong. specialize (Hlong k Hk). lia. }
  rewrite Hge in Hgrid.
  bind_inv Hgrid as opts Hopts. bind_inv Hgrid as hi Hhi. bind_inv Hgrid as lo Hlo.
  bind_inv Hgrid as scale Hscale. bind_inv Hgrid as center Hcenter.
  injection Hgrid as <-.
  exists center, scale. split; [exact Hgrid0|]. intros Hs Hl Hu.
  apply (multiply_dists_on_increasing_grid _ _ _ _ _ _ _ H Hgrid0).
  - apply make_node_grid_sorted; assumption.
  - rewrite make_node_grid_length. pose proof (Nat.div_le_lower_bound g 2 2). lia.
Qed.

Lemma multiply_dists_fresh_carries_sentinels (self : TreeTime) (interps : list interp)
    (prefactors : list Q) (g : nat) (f : interp) (pre : Q) :
  _multiply_dists self interps prefactors g = Ok (f, pre) ->
  Forall (fun k => (10 <= length (interp_x k))%nat) interps ->
  (4 <= g)%nat ->
  exists center scale,
    multiply_grid self interps g = Ok (_make_node_grid self center g scale) /\
    (0 < max_node_abs_t self * scale ->
     MIN_T < center - max_node_abs_t self * scale ->
     center + max_node_abs_t self * scale < MAX_T ->
     nondecreasing (interp_x f) /\
     length (interp_x f) = length (interp_y f) /\
     sentinels_at_ends f).
Proof.
  intros H Hlong Hg.
  destruct (multiply_dists_fresh_well_formed self interps prefactors g f pre H Hlong Hg)
    as (center & scale & Hgrid & Hwf).
  exists center, scale. split; [exact Hgrid|]. intros Hs Hlo Hhi.
  destruct (Hwf Hs Hlo Hhi) as [(Hinc & Hlen & Hsent) _].
  split; [apply increasing_nondecreasing, Hinc|]. split; assumption.
Qed.

(** *** The branch-length curves *)

Lemma branch_len_curve_spec (prob : Q -> Q) (mid : list Q) :
  nondecreasing ([MIN_T; - lit_1e_30] ++ mid ++ [MAX_T]) ->
  (1 <= length mid)%nat ->
  exists f,
    branch_len_curve prob mid = Ok f /\
    interp_x f = [MIN_T; - lit_1e_30] ++ mid ++ [MAX_T] /\
    length (interp_x f) = length (interp_y f) /\
    sentinels_at_ends f.
Proof.
  intros Hs Hn. unfold branch_len_curve.
  change (drop 2 ([MIN_T; - lit_1e_30] ++ mid ++ [MAX_T])) with (mid ++ [MAX_T]).
  rewrite removelast_last.
  rewrite set_sentinels_shape
    by (rewrite !length_app, length_map; simpl; lia).
  rsimpl.
  match goal with |- context [interp1d ?xs ?ys] =>
    assert (Hlen : length xs = length ys)
      by (rewrite !length_map; simpl; rewrite !length_app, !length_take, !length_drop,
            !length_app, !length_map; simpl; lia);
    rewrite (interp1d_in_order xs ys Hlen Hs)
  end.
  eexists. split; [reflexivity|]. cbn [interp_x interp_y].
  split; [reflexivity|]. split; [exact Hlen|].
  eapply sentinels_at_ends_intro. cbn [interp_y map].
  rewrite map_app. reflexivity.
Qed.

(** A branch shorter than 1e-5: the grid runs from 0 to sigma. *)
Lemma branch_len_grid_short (self : TreeTime) (nd : node) (n : nat) :
  branch_length nd < lit_1e_5 ->
  lit_0_1 * max_node_abs_t self < MAX_T ->
  exists mid,
    branch_len_grid self nd n = Ok mid /\ length mid = n /\
    increasing ([MIN_T; - lit_1e_30] ++ mid ++ [MAX_T]).
Proof.
  intros Hbl Hmax. unfold branch_len_grid.
  rewrite (proj2 (Qltb_lt _ _) Hbl).
  set (sigma := Qmax lit_0_01 (lit_0_1 * max_node_abs_t self)).
  assert (Hs0 : 0 < sigma).
  { eapply Qlt_le_trans; [|apply Q.le_max_l]. reflexivity. }
  assert (Hs1 : sigma < MAX_T).
  { unfold sigma. apply Q.max_lub_lt; [reflexivity | exact Hmax]. }
  eexists. split; [reflexivity|]. split; [rewrite length_map; apply linspace_length|].
  change ([MIN_T; - lit_1e_30] ++ ?m ++ [MAX_T])
    with ([MIN_T] ++ ([- lit_1e_30] ++ (m ++ [MAX_T]))).
  assert (Hb : Forall (fun v => 0 <= v /\ v <= sigma)
                 (map (fun s => sigma * s ^ 2) (linspace 0 1 n))).
  { apply linspace_map_bounds. intros s Hlo Hhi.
    rewrite Q.min_l in Hlo by lra. rewrite Q.max_r in Hhi by lra.
    assert (0 <= s * s) by nra. assert (s * s <= 1) by nra.
    change (s ^ 2) with (s * s). split; nra. }
  apply (Sorted_app_between (- lit_1e_30)); [repeat constructor| | |].
  - apply (Sorted_app_between 0); [repeat constructor| | |].
    + apply (Sorted_app_between MAX_T); [|repeat constructor| |].
      * apply linspace_map_increasing; [reflexivity|]. intros s t Hs Hst Ht.
        change (s ^ 2) with (s * s). change (t ^ 2) with (t * t).
        assert (s * s < t * t) by nra. nra.
      * eapply Forall_impl; [exact Hb|]. simpl. intros v [_ Hv]. lra.
      * repeat constructor. lra.
    + repeat constructor.
    + apply Forall_app. split.
      * eapply Forall_impl; [exact Hb|]. simpl. intros v [Hv _]. exact Hv.
      * repeat constructor. unfold MAX_T. lra.
  - repeat constructor.
  - constructor; [apply Qle_refl|]. apply Forall_app. split.
    + eapply Forall_impl; [exact Hb|]. simpl. intros v [Hv _].
      unfold lit_1e_30. lra.
    + repeat constructor. unfold MAX_T, lit_1e_30. lra.
Qed.

(** A longer branch: the grid runs from 0 to the branch length and on
    to the branch length plus 3 sigma. *)
Lemma branch_len_grid_long (self : TreeTime) (nd : node) (n : nat) (avg : Q) :
  lit_1e_5 <= branch_length nd ->
  average_branch_len self = Ok avg ->
  branch_length nd + 3 * Qmax avg (branch_length nd) < MAX_T ->
  exists mid,
    branch_len_grid self nd n = Ok mid /\ length mid = (n / 2 + n / 2)%nat /\
    nondecreasing ([MIN_T; - lit_1e_30] ++ mid ++ [MAX_T]).
Proof.
  intros Hbl Havg Hmax. unfold branch_len_grid.
  rewrite (proj2 (Qltb_ge _ _) Hbl), Havg. rsimpl.
  set (bl := branch_length nd) in *.
  set (sigma := Qmax avg bl) in *.
  assert (Hbl0 : 0 < bl) by (unfold lit_1e_5 in Hbl; lra).
  assert (Hs0 : 0 < sigma).
  { eapply Qlt_le_trans; [exact Hbl0 | apply Q.le_max_r]. }
  eexists. split; [reflexivity|].
  split; [rewrite length_app, !length_map, !linspace_length; reflexivity|].
  change ([MIN_T; - lit_1e_30] ++ ?m ++ [MAX_T])
    with ([MIN_T] ++ ([- lit_1e_30] ++ (m ++ [MAX_T]))).
  assert (HbL : Forall (fun v => 0 <= v /\ v <= bl)
                 (map (fun s => bl * (1 - s ^ 2)) (linspace 1 0 (n / 2)))).
  { apply linspace_map_bounds. intros s Hlo Hhi.
    rewrite Q.min_r in Hlo by lra. rewrite Q.max_l in Hhi by lra.
    assert (0 <= s * s) by nra. assert (s * s <= 1) by nra.
    change (s ^ 2) with (s * s). split; nra. }
  assert (HbR : Forall (fun v => bl <= v /\ v <= bl + 3 * sigma)
                 (map (fun s => bl + 3 * sigma * s ^ 2) (linspace 0 1 (n / 2)))).
  { apply linspace_map_bounds. intros s Hlo Hhi.
    rewrite Q.min_l in Hlo by lra. rewrite Q.max_r in Hhi by lra.
    assert (0 <= s * s) by nra. assert (s * s <= 1) by nra.
    change (s ^ 2) with (s * s). split; nra. }
  apply (Sorted_Qle_app_between (- lit_1e_30)); [repeat constructor| | |].
  - apply (Sorted_Qle_app_between 0); [repeat constructor| | |].
    + apply (Sorted_Qle_app_between MAX_T); [|repeat constructor| |].
      * apply (Sorted_Qle_app_between bl).
        -- apply increasing_nondecreasing, linspace_map_increasing_rev; [reflexivity|].
           intros s t Ht Hts Hs.
           change (s ^ 2) with (s * s). change (t ^ 2) with (t * t).
           assert (t * t < s * s) by nra. nra.
        -- apply increasing_nondecreasing, linspace_map_increasing; [reflexivity|].
           intros s t Hs Hst Ht.
           change (s ^ 2) with (s * s). change (t ^ 2) with (t * t).
           assert (s * s < t * t) by nra. nra.
        -- eapply Forall_impl; [exact HbL|]. simpl. intros v [_ Hv]. exact Hv.
        -- eapply Forall_impl; [exact HbR|]. simpl. intros v [Hv _]. exact Hv.
      * apply Forall_app. split.
        -- eapply Forall_impl; [exact HbL|]. simpl. intros v [_ Hv]. lra.
        -- eapply Forall_impl; [exact HbR|]. simpl. intros v [_ Hv]. lra.
      * repeat constructor. apply Qle_refl.
    + repeat constructor. unfold lit_1e_30. lra.
    + apply Forall_app. split; [apply Forall_app; split|].
      * eapply Forall_impl; [exact HbL|]. simpl. intros v [Hv _]. exact Hv.
      * eapply Forall_impl; [exact HbR|]. simpl. intros v [Hv _]. lra.
      * repeat constructor. unfold MAX_T. lra.
  - repeat constructor. unfold MIN_T, lit_1e_30. lra.
  - constructor; [apply Qle_refl|]. apply Forall_app. split; [apply Forall_app; split|].
    + eapply Forall_impl; [exact HbL|]. simpl. intros v [Hv _]. unfold lit_1e_30. lra.
    + eapply Forall_impl; [exact HbR|]. simpl. intros v [Hv _]. unfold lit_1e_30. lra.
    + repeat constructor. unfold MAX_T, lit_1e_30. lra.
Qed.

Section BranchCurves.
Variable prob_t : list (list Q) -> list (list Q) -> Q -> Q.

Lemma branch_interpolator_short (self : TreeTime) (parent nd : node) (n : nat) :
  (1 <= n)%nat ->
  branch_length nd < lit_1e_5 ->
  lit_0_1 * max_node_abs_t self < MAX_T ->
  exists f,
    _make_branch_len_interpolator prob_t self (Some parent) nd n
    = Ok (set_branch_neg_log_prob nd (Some f)) /\
    well_formed f.
Proof.
  intros Hn Hbl Hmax. unfold _make_branch_len_interpolator.
  destruct (branch_len_grid_short self nd n Hbl Hmax) as (mid & -> & Hlen & Hinc).
  rsimpl.
  destruct (branch_len_curve_spec (prob_t (profile parent) (profile nd)) mid)
    as (f & -> & Hx & Hxy & Hsent); [apply increasing_nondecreasing, Hinc | lia|].
  rsimpl. exists f. split; [reflexivity|].
  split; [rewrite Hx; exact Hinc|]. split; assumption.
Qed.

Lemma branch_interpolator_long (self : TreeTime) (parent nd : node) (n : nat) (avg : Q) :
  (2 <= n)%nat ->
  lit_1e_5 <= branch_length nd ->
  average_branch_len self = Ok avg ->
  branch_length nd + 3 * Qmax avg (branch_length nd) < MAX_T ->
  exists f,
    _make_branch_len_interpolator prob_t self (Some parent) nd n
    = Ok (set_branch_neg_log_prob nd (Some f)) /\
    nondecreasing (interp_x f) /\
    length (interp_x f) = length (interp_y f) /\
    sentinels_at_ends f.
Proof.
  intros Hn Hbl Havg Hmax. unfold _make_branch_len_interpolator.
  destruct (branch_len_grid_long self nd n avg Hbl Havg Hmax) as (mid & -> & Hlen & Hs).
  rsimpl.
  destruct (branch_len_curve_spec (prob_t (profile parent) (profile nd)) mid)
    as (f & -> & Hx & Hxy & Hsent); [exact Hs| |].
  { pose proof (Nat.div_le_lower_bound n 2 1). lia. }
  rsimpl. exists f. split; [reflexivity|].
  split; [rewrite Hx; exact Hs|]. split; assumption.
Qed.

End BranchCurves.

(** The branch grid of a longer branch holds the branch length itself
    twice, as the last point of its left half and the first point of its
    right half, so the grid of the curve is not strictly increasing. *)
Lemma branch_grid_repeats_branch_length :
  let a := mk_node "A" (Present None) 1 1 Absent None in
  let r := mk_node "root" (Present None) 0 0 Absent None in
  let self := MkTreeTime (Clade r [Clade a []; Clade a []]) None 1 in
  exists nd' f,
    _make_branch_len_interpolator prob_parabola self (Some r) a 25 = Ok nd' /\
    branch_neg_log_prob nd' = Some f /\
    nth 13 (interp_x f) 0 == 1 /\ nth 14 (interp_x f) 0 == 1 /\
    ~ increasing (interp_x f).
Proof.
  intros a r self. eexists _, _.
  split; [vm_compute; reflexivity|]. split; [reflexivity|].
  split; [reflexivity|]. split; [reflexivity|].
  intros H. apply (Sorted_Qlt_nth _ 13) in H; [|simpl; lia].
  vm_compute in H. discriminate.
Qed.

(** C6 as stated fails: the constraint of a node dated at time 0 has
    the grid MIN_T, 0, 0, 0, MAX_T. *)
Lemma delta_at_zero_not_increasing :
  exists f,
    delta_neg_log_prob log_approx 0 = Ok f /\
    map Qred (interp_x f) = [MIN_T; 0; 0; 0; MAX_T] /\
    ~ increasing (interp_x f).
Proof.
  eexists. split; [vm_compute; reflexivity|]. split; [reflexivity|].
  intros H. apply (Sorted_Qlt_nth _ 1) in H; [|simpl; lia].
  vm_compute in H. discriminate.
Qed.

(** C6, amended.  The curves built by the core carry the value 1000 at
    the outermost and 500 at the next-to-outermost point on each side
    (500 < 1000), as follows.
    - The constraint of a node dated at [abs_t]: on a strictly increasing
      grid, when the three points [abs_t (1 - 1e-10)], [abs_t],
      [abs_t (1 + 1e-10)] are distinct and lie strictly between [MIN_T]
      and [MAX_T].
    - The branch curve of a branch shorter than 1e-5, for [n >= 1] and
      [sigma = max(0.01, 0.1 max_node_abs_t)] below [MAX_T]: on a
      strictly increasing grid.
    - The branch curve of a branch of length 1e-5 or more, for [n >= 2],
      when [average_branch_len] returns [avg] and
      [branch_length + 3 max(avg, branch_length) < MAX_T]: on a grid in
      non-decreasing order.
    - The output of [_convolve] for a grid size of 4 or more, with T the
      optimum of the source and L the branch length chosen, when
      [scale = 0.25 max_node_abs_t] is positive and
      [MIN_T < T - L - scale], [T - L + scale < MAX_T]: on a grid in
      non-decreasing order.
    - The output of [_multiply_dists] when an input has fewer than 10
      points and the union of the input grids has four points or more:
      on a strictly increasing grid.
    - The output of [_multiply_dists] when every input has 10 points or
      more and the grid size is 4 or more, on the grid
      [_make_node_grid(center, grid_size, scale)] it builds, when
      [max_node_abs_t * scale] is positive and the center is more than
      that away from [MIN_T] and [MAX_T]: on a grid in non-decreasing
      order. *)
Theorem core_curves_carry_sentinels :
  sentinel_inner < sentinel_outer /\
  (forall (log : Q -> Q) (t : Q),
      ~ t * (1 - lit_1e_10) == t * 1 ->
      ~ t * 1 == t * (1 + lit_1e_10) ->
      Forall (fun x => MIN_T < x /\ x < MAX_T)
             (map (Qmult t) [1 - lit_1e_10; 1; 1 + lit_1e_10]) ->
      exists f, delta_neg_log_prob log t = Ok f /\ well_formed f) /\
  (forall prob_t (self : TreeTime) (parent nd : node) (n : nat),
      (1 <= n)%nat -> branch_length nd < lit_1e_5 ->
      Qmax lit_0_01 (lit_0_1 * max_node_abs_t self) < MAX_T ->
      exists f,
        _make_branch_len_interpolator prob_t self (Some parent) nd n
        = Ok (set_branch_neg_log_prob nd (Some f)) /\
        well_formed f) /\
  (forall prob_t (self : TreeTime) (parent nd : node) (n : nat) (avg : Q),
      (2 <= n)%nat -> lit_1e_5 <= branch_length nd ->
      average_branch_len self = Ok avg ->
      branch_length nd + 3 * Qmax avg (branch_length nd) < MAX_T ->
      exists f,
        _make_branch_len_interpolator prob_t self (Some parent) nd n
        = Ok (set_branch_neg_log_prob nd (Some f)) /\
        nondecreasing (interp_x f) /\
        length (interp_x f) = length (interp_y f) /\
        sentinels_at_ends f) /\
  (forall exp log minimize_scalar (self : TreeTime) (src branch : interp)
          (inverse_time : bool) (g : nat) (f : interp),
      (4 <= g)%nat ->
      _convolve exp log minimize_scalar self (Some src) (Some branch) inverse_time g
      = Ok f ->
      exists T L,
        _min_interp src = Ok T /\
        opt_branch_length minimize_scalar self branch = Ok L /\
        (0 < max_node_abs_t self * lit_0_25 ->
         MIN_T < T - L - max_node_abs_t self * lit_0_25 ->
         T - L + max_node_abs_t self * lit_0_25 < MAX_T ->
         nondecreasing (interp_x f) /\
         length (interp_x f) = length (interp_y f) /\
         sentinels_at_ends f)) /\
  (forall (self : TreeTime) (interps : list interp) (prefactors : list Q) (g : nat)
          (f : interp) (pre : Q),
      _multiply_dists self interps prefactors g = Ok (f, pre) ->
      Exists (fun k => (length (interp_x k) < 10)%nat) interps ->
      (4 <= length (np_unique (concat (map interp_x interps))))%nat ->
      well_formed f) /\
  (forall (self : TreeTime) (interps : list interp) (prefactors : list Q) (g : nat)
          (f : interp) (pre : Q),
      _multiply_dists self interps prefactors g = Ok (f, pre) ->
      Forall (fun k => (10 <= length (interp_x k))%nat) interps ->
      (4 <= g)%nat ->
      exists center scale,
        multiply_grid self interps g = Ok (_make_node_grid self center g scale) /\
        (0 < max_node_abs_t self * scale ->
         MIN_T < center - max_node_abs_t self * scale ->
         center + max_node_abs_t self * scale < MAX_T ->
         nondecreasing (interp_x f) /\
         length (interp_x f) = length (interp_y f) /\
         sentinels_at_ends f)).
Proof.
  split; [reflexivity|].
  split; [intros; apply delta_neg_log_prob_distinct; assumption|].
  split.
  { intros prob_t self parent nd n Hn Hbl Hsigma.
    apply branch_interpolator_short; [exact Hn | exact Hbl|].
    eapply Qle_lt_trans; [apply Q.le_max_r | exact Hsigma]. }
  split; [intros; eapply branch_interpolator_long; eassumption|].
  split; [intros; eapply convolve_carries_sentinels; eassumption|].
  split.
  { intros self interps prefactors g f pre H Hshort Hn.
    apply (multiply_dists_union_carries_sentinels self interps prefactors g f pre
             H Hshort Hn). }
  intros; eapply multiply_dists_fresh_carries_sentinels; eassumption.
Qed.

Lemma example_source_well_formed : well_formed example_source.
Proof.
  split; [repeat constructor|]. split; [reflexivity|].
  exists 1000, 500, [0], 500, 1000. repeat split.
Qed.

Lemma core_curves_carry_sentinels_witness :
  (exists f, delta_neg_log_prob log_approx 1 = Ok f /\ well_formed f) /\
  (exists f, delta_neg_log_prob log_approx (-1) = Ok f /\ well_formed f) /\
  (exists f,
      _make_branch_len_interpolator prob_parabola example_config (Some example_node)
        example_short_node 25
      = Ok (set_branch_neg_log_prob example_short_node (Some f)) /\
      well_formed f) /\
  (exists f,
      _make_branch_len_interpolator prob_parabola
        (MkTreeTime example_tree None 2) (Some example_short_node) example_node 25
      = Ok (set_branch_neg_log_prob example_node (Some f)) /\
      nondecreasing (interp_x f) /\
      length (interp_x f) = length (interp_y f) /\
      sentinels_at_ends f) /\
  (exists f,
      _convolve exp_approx log_approx minimize3 example_config
        (Some example_source) (Some example_branch) true 4 = Ok f /\
      nondecreasing (interp_x f) /\
      length (interp_x f) = length (interp_y f) /\
      sentinels_at_ends f) /\
  (exists f pre,
      _multiply_dists example_config [example_source; example_long_a] [0; 0] 100
      = Ok (f, pre) /\
      well_formed f) /\
  (exists f pre center scale,
      _multiply_dists example_config [example_long_a; example_long_b] [0; 0] 4
      = Ok (f, pre) /\
      multiply_grid example_config [example_long_a; example_long_b] 4
      = Ok (_make_node_grid example_config center 4 scale)).
Proof.
  destruct core_curves_carry_sentinels
    as (_ & Hdelta & Hshort & Hlong & Hconv & Hunion & Hfresh).
  split.
  { apply (Hdelta log_approx 1); [discriminate | discriminate |].
    repeat constructor. }
  split.
  { apply (Hdelta log_approx (-1)); [discriminate | discriminate |].
    repeat constructor. }
  split.
  { apply (Hshort prob_parabola example_config example_node example_short_node 25%nat);
      [lia | reflexivity | reflexivity]. }
  split.
  { apply (Hlong prob_parabola (MkTreeTime example_tree None 2) example_short_node
             example_node 25%nat (3 # 2));
      [lia | discriminate | reflexivity | reflexivity]. }
  split.
  { eexists. split; [vm_compute; reflexivity|].
    destruct (Hconv exp_approx log_approx minimize3 example_config example_source
                example_branch true 4%nat _ ltac:(lia) ltac:(vm_compute; reflexivity))
      as (T & L & HT & HL & Hwf).
    vm_compute in HT. injection HT as <-. vm_compute in HL. injection HL as <-.
    apply Hwf; reflexivity. }
  split.
  { eexists _, _. split; [vm_compute; reflexivity|].
    apply (Hunion example_config [example_source; example_long_a] [0; 0] 100%nat _ _
             ltac:(vm_compute; reflexivity)).
    - constructor. simpl. lia.
    - vm_compute. lia. }
  eexists _, _.
  destruct (Hfresh example_config [example_long_a; example_long_b] [0; 0] 4%nat _ _
              ltac:(vm_compute; reflexivity))
    as (center & scale & Hgrid & _).
  - repeat constructor; simpl; lia.
  - lia.
  - exists center, scale. split; [vm_compute; reflexivity | exact Hgrid].
Defined.

(** * Further properties *)

(** ** DateConversion *)

(** X1: [get_branch_len] does not depend on the order of its two dates,
    and with a negative slope (dates counted in days before present on a
    tree that grows towards the present) it is negative for any two
    different dates. *)
Theorem get_branch_len_symmetric_signed (dc : DateConversion.t) (d1 d2 : Q) :
  DateConversion.get_branch_len dc d1 d2 == DateConversion.get_branch_len dc d2 d1 /\
  (DateConversion.slope dc < 0 -> ~ d1 == d2 ->
   DateConversion.get_branch_len dc d1 d2 < 0).
Proof.
  unfold DateConversion.get_branch_len.
  assert (Hsym : Qabs (d1 - d2) == Qabs (d2 - d1)).
  { rewrite <- (Qabs_opp (d2 - d1)). apply Qabs_wd. ring. }
  split.
  - rewrite Hsym. reflexivity.
  - intros Hs Hne.
    assert (Hpos : 0 < Qabs (d1 - d2)).
    { destruct (Qlt_le_dec 0 (Qabs (d1 - d2))) as [H|H]; [exact H|].
      exfalso. apply Hne.
      pose proof (Qabs_nonneg (d1 - d2)) as H0.
      assert (Hz : Qabs (d1 - d2) == 0) by lra.
      revert Hz. apply Qabs_case; intros; lra. }
    nra.
Qed.

Lemma get_branch_len_symmetric_signed_witness :
  DateConversion.get_branch_len example_conversion 100 50
  == DateConversion.get_branch_len example_conversion 50 100 /\
  DateConversion.get_branch_len example_conversion 100 50 < 0.
Proof.
  destruct (get_branch_len_symmetric_signed example_conversion 100 50) as [Hs Hn].
  split; [exact Hs|]. apply Hn; [reflexivity | discriminate].
Defined.

(** X2: for a slope other than 0, [get_date] returns the absolute value
    of the quotient [(intersect - abs_t) / slope], which is never
    negative, and it returns the same number for the conversion with the
    opposite slope: only the size of the slope matters. *)
Theorem get_date_absolute_quotient (dc : DateConversion.t) (t : Q) :
  ~ DateConversion.slope dc == 0 ->
  exists v out v' out',
    DateConversion.get_date dc t = Ok (v, out) /\
    v == Qabs ((DateConversion.intersect dc - t) / DateConversion.slope dc) /\
    0 <= v /\
    DateConversion.get_date
      (DateConversion.Make (- DateConversion.slope dc) (DateConversion.intersect dc)
         (DateConversion.r_val dc) (DateConversion.pi_val dc) (DateConversion.sigma dc)) t
    = Ok (v', out') /\
    v' == v.
Proof.
  intros Hs.
  set (dc' := DateConversion.Make (- DateConversion.slope dc) (DateConversion.intersect dc)
                (DateConversion.r_val dc) (DateConversion.pi_val dc)
                (DateConversion.sigma dc)).
  assert (Hs' : ~ DateConversion.slope dc' == 0) by (cbn; lra).
  destruct (get_date_spec dc t Hs) as (v & out & Hget & Hv & _).
  destruct (get_date_spec dc' t Hs') as (v' & out' & Hget' & Hv' & _).
  exists v, out, v', out'. split; [exact Hget|].
  assert (Hq : (DateConversion.intersect dc - t) / DateConversion.slope dc
               == - ((t - DateConversion.intersect dc) / DateConversion.slope dc))
    by (field; exact Hs).
  assert (Hvq : v == Qabs ((DateConversion.intersect dc - t) / DateConversion.slope dc)).
  { rewrite Hv. transitivity
      (Qabs (- ((t - DateConversion.intersect dc) / DateConversion.slope dc)));
      [symmetry; apply Qabs_opp | apply Qabs_wd; symmetry; exact Hq]. }
  split; [exact Hvq|].
  split; [rewrite Hv; apply Qabs_nonneg|].
  split; [exact Hget'|].
  rewrite Hv', Hv. cbn [DateConversion.slope DateConversion.intersect dc'].
  transitivity (Qabs (- ((t - DateConversion.intersect dc) / DateConversion.slope dc)));
    [apply Qabs_wd; field; exact Hs | apply Qabs_opp].
Qed.

Lemma get_date_absolute_quotient_witness :
  exists v out v' out',
    DateConversion.get_date example_conversion 1 = Ok (v, out) /\
    v == Qabs ((3 - 1) / - (1 # 50)) /\
    0 <= v /\
    DateConversion.get_date (DateConversion.Make (- - (1 # 50)) 3 0 0 0) 1 = Ok (v', out') /\
    v' == v.
Proof. apply (get_date_absolute_quotient example_conversion 1). discriminate. Defined.

Module F64Date.
Import PrimFloat.
Local Open Scope float_scope.

(** The round trip through the fit and [get_date] is not exact: with
    the slope -0.02 and the intersect 3 the date 1 comes back as
    1.0000000000000009. *)
Lemma get_date_round_trip_inexact_in_binary64 :
  (F64.get_date (-0.02) 3 (1 * (-0.02) + 3) =? 1) = false /\
  (1 <? F64.get_date (-0.02) 3 (1 * (-0.02) + 3)) = true.
Proof. vm_compute. split; reflexivity. Qed.

End F64Date.

(** ** Setting the dates and rerooting *)

Lemma set_raw_date_same (n : node) : set_raw_date n (raw_date n) = n.
Proof. destruct n. reflexivity. Qed.

Lemma set_date_of_node_effect (now : datetime) (dic : gmap string (option datetime))
    (n : node) :
  let n' := (set_date_of_node now dic n).1 in
  set_raw_date n (raw_date n') = n' /\
  (raw_date n' = raw_date n \/ raw_date n' = Present None \/
   exists d, raw_date n' = Present (Some d) /\ (0 <= d)%Z).
Proof.
  unfold set_date_of_node.
  destruct (name n ≫= (dic !!.)) as [[d|]|]; simpl.
  - destruct (timedelta_days now d <? 0)%Z eqn:E; simpl.
    + split; [apply set_raw_date_same | auto].
    + split; [reflexivity|]. right. right. eexists. split; [reflexivity|].
      apply Z.ltb_ge in E. exact E.
  - split; [reflexivity | auto].
  - split; [reflexivity | auto].
Qed.

(** X3: the loop of [_set_dates_to_all_nodes] changes nothing but
    [raw_date], keeps the nodes in place, and never stores a negative
    number of days: each node keeps its old [raw_date], or gets [None],
    or gets a number of days that is not negative. *)
Theorem set_dates_loop_effect (now : datetime) (dic : gmap string (option datetime))
    (c : clade) :
  Forall2 (fun n n' =>
             set_raw_date n (raw_date n') = n' /\
             (raw_date n' = raw_date n \/ raw_date n' = Present None \/
              exists d, raw_date n' = Present (Some d) /\ (0 <= d)%Z))
          (preorder c) (preorder (set_dates_loop now dic c).1).
Proof.
  rewrite set_dates_loop_preorder.
  induction (preorder c) as [|n l IH]; simpl; constructor; [|exact IH].
  apply set_date_of_node_effect.
Qed.

Lemma key_le_total (a b : option Z) : key_le a b = false -> key_le b a = true.
Proof.
  destruct a as [u|], b as [v|]; simpl; try discriminate; try reflexivity.
  intros H. apply Z.leb_gt in H. apply Z.leb_le. lia.
Qed.

Lemma key_le_trans (a b c : option Z) :
  key_le a b = true -> key_le b c = true -> key_le a c = true.
Proof.
  destruct a as [u|], b as [v|], c as [w|]; simpl; try discriminate; try reflexivity.
  rewrite !Z.leb_le. lia.
Qed.

Lemma key_le_refl (a : option Z) : key_le a a = true.
Proof. destruct a; simpl; [apply Z.leb_refl | reflexivity]. Qed.

Lemma last_sorted_from_spec (l pre : list (option Z)) (best : nat) :
  (best < length pre)%nat ->
  Forall (fun k => key_le k (nth best pre None) = true) pre ->
  let r := last_sorted_from (length pre) best (nth best pre None) l in
  (r < length (pre ++ l))%nat /\
  Forall (fun k => key_le k (nth r (pre ++ l) None) = true) (pre ++ l).
Proof.
  revert pre best. induction l as [|k l IH]; intros pre best Hb Hall; simpl.
  - rewrite app_nil_r. auto.
  - assert (Happ : pre ++ k :: l = (pre ++ [k]) ++ l) by (rewrite <- app_assoc; reflexivity).
    assert (Hlen : S (length pre) = length (pre ++ [k]))
      by (rewrite length_app; simpl; lia).
    rewrite Happ, Hlen.
    destruct (key_le (nth best pre None) k) eqn:E.
    + assert (Hk : nth (length pre) (pre ++ [k]) None = k)
        by (rewrite app_nth2, Nat.sub_diag by lia; reflexivity).
      pose proof (IH (pre ++ [k]) (length pre)) as IH'.
      rewrite Hk in IH'. apply IH'.
      * rewrite length_app. simpl. lia.
      * apply Forall_app. split.
        -- eapply Forall_impl; [exact Hall|]. simpl. intros a Ha.
           eapply key_le_trans; eassumption.
        -- repeat constructor. apply key_le_refl.
    + assert (Hk : nth best (pre ++ [k]) None = nth best pre None)
        by (apply app_nth1; exact Hb).
      pose proof (IH (pre ++ [k]) best) as IH'.
      rewrite Hk in IH'. apply IH'.
      * rewrite length_app. simpl. lia.
      * apply Forall_app. split; [exact Hall|].
        repeat constructor. apply key_le_total, E.
Qed.

Lemma last_sorted_spec (keys : list (option Z)) (i : nat) :
  last_sorted keys = Ok i ->
  (i < length keys)%nat /\
  Forall (fun k => key_le k (nth i keys None) = true) keys.
Proof.
  destruct keys as [|k l]; simpl; [discriminate|]. intros [= <-].
  apply (last_sorted_from_spec l [k] 0); [simpl; lia|].
  repeat constructor. apply key_le_refl.
Qed.

(** X4: [reroot_to_oldest] hands [root_with_outgroup] a terminal whose
    [raw_date] is the largest among the terminals, an undated terminal
    counting below every dated one; it reads [raw_date] on every
    terminal. *)
Theorem reroot_to_oldest_picks_largest_raw_date
    (root_with_outgroup : clade -> nat -> clade) (_add_node_params : clade -> clade)
    (c c' : clade) :
  reroot_to_oldest root_with_outgroup _add_node_params c = Ok c' ->
  exists keys i,
    Forall2 (fun n k => raw_date n = Present k) (get_terminals c) keys /\
    (i < length keys)%nat /\
    Forall (fun k => key_le k (nth i keys None) = true) keys /\
    c' = _add_node_params
           (Clade (set_raw_date (root (root_with_outgroup c i)) (Present None))
                  (clades (root_with_outgroup c i))).
Proof.
  unfold reroot_to_oldest. intros H.
  bind_inv H as keys Hkeys. bind_inv H as i Hi. injection H as <-.
  exists keys, i. destruct (last_sorted_spec keys i Hi) as [Hlt Hmax].
  split; [|auto].
  unfold reroot_keys in Hkeys. apply mapR_Forall2 in Hkeys.
  eapply Forall2_impl; [exact Hkeys|]. simpl. intros n k Hn.
  destruct (raw_date n); simpl in Hn; [discriminate|]. injection Hn as <-. reflexivity.
Qed.

Lemma reroot_to_oldest_picks_largest_raw_date_witness :
  exists keys i,
    Forall2 (fun n k => raw_date n = Present k) (get_terminals example_tree) keys /\
    (i < length keys)%nat /\
    Forall (fun k => key_le k (nth i keys None) = true) keys /\
    nth i keys None = Some 100%Z.
Proof.
  destruct (reroot_to_oldest_picks_largest_raw_date (fun c _ => c) (fun c => c)
              example_tree _ eq_refl) as (keys & i & Hk & Hi & Hmax & _).
  exists keys, i. split; [exact Hk|]. split; [exact Hi|]. split; [exact Hmax|].
  assert (Hkeys : keys = [Some 100%Z; Some 50%Z]).
  { simpl in Hk. inversion Hk as [|? ? ? ? H1 Hk']; subst.
    inversion Hk' as [|? ? ? ? H2 Hk'']; subst. inversion Hk''; subst.
    simpl in H1, H2. congruence. }
  subst keys. destruct i as [|[|i]]; [reflexivity| |simpl in Hi; lia].
  inversion Hmax as [|? ? Hbad _]. simpl in Hbad. discriminate.
Defined.

Lemma get_terminals_nonempty (c : clade) : get_terminals c <> [].
Proof.
  revert c. fix IH 1. intros [n [|k cs]]; simpl; [discriminate|].
  intros H. apply app_eq_nil in H as [Hk _]. exact (IH k Hk).
Qed.

(** X5: the property [average_branch_len] divides by zero exactly on a
    tree with a single terminal; on every other tree it is the total
    branch length over twice the number of terminals less one. *)
Theorem average_branch_len_single_terminal (self : TreeTime) :
  (count_terminals (tree self) = 1%nat -> average_branch_len self = Raise DivByZero) /\
  (count_terminals (tree self) <> 1%nat ->
   average_branch_len self
   = Ok (total_branch_length (tree self)
         / inject_Z ((Z.of_nat (count_terminals (tree self)) - 1) * 2))).
Proof.
  unfold average_branch_len. split; intros H.
  - rewrite H. reflexivity.
  - apply fdiv_nonzero.
    assert (Hpos : (1 <= count_terminals (tree self))%nat).
    { unfold count_terminals. pose proof (get_terminals_nonempty (tree self)).
      destruct (get_terminals (tree self)); [contradiction | simpl; lia]. }
    intros Hz. unfold Qeq in Hz. simpl in Hz. lia.
Qed.

Lemma average_branch_len_single_terminal_witness :
  average_branch_len example_config = Raise DivByZero /\
  average_branch_len example_self = Ok (3 / inject_Z 2).
Proof.
  destruct (average_branch_len_single_terminal example_config) as [H1 _].
  destruct (average_branch_len_single_terminal example_self) as [_ H2].
  split; [apply H1; reflexivity|].
  etransitivity; [apply H2; discriminate | reflexivity].
Defined.

(** ** The optimum of a curve *)

Lemma searchsorted_at_sample (xs : list Q) (i : nat) :
  increasing xs -> (i < length xs)%nat -> searchsorted xs (nth i xs 0) = i.
Proof.
  revert i. induction xs as [|a xs IH]; intros i Hinc Hi; simpl in Hi; [lia|].
  destruct i as [|i]; simpl.
  - rewrite (proj2 (Qltb_ge a a)) by apply Qle_refl. reflexivity.
  - pose proof (increasing_head_least a xs Hinc) as Hleast.
    rewrite List.Forall_forall in Hleast.
    rewrite (proj2 (Qltb_lt a (nth i xs 0))) by (apply Hleast, nth_In; lia).
    f_equal. apply IH; [inversion Hinc; assumption | lia].
Qed.

(** A call at a grid point returns the sample stored there. *)
Lemma interp_call_at_sample (f : interp) (i : nat) :
  increasing (interp_x f) -> length (interp_x f) = length (interp_y f) ->
  (2 <= length (interp_x f))%nat -> (i < length (interp_x f))%nat ->
  exists r, interp_call f (nth i (interp_x f) 0) = Ok r /\ r == nth i (interp_y f) 0.
Proof.
  destruct f as [xs ys]. cbn [interp_x interp_y]. intros Hinc Hlen Hn Hi.
  unfold interp_call. cbn [interp_x interp_y].
  pose proof (increasing_nondecreasing xs Hinc) as Hnd.
  assert (Hb1 : Qltb (nth i xs 0) (nth 0 xs 0) = false).
  { apply Qltb_ge. apply nondecreasing_le_nth; [exact Hnd|lia|exact Hi]. }
  assert (Hb2 : forall d, Qltb (List.last xs d) (nth i xs 0) = false).
  { intros d. apply Qltb_ge. rewrite last_nth.
    rewrite (nth_indep _ d 0) by lia.
    apply nondecreasing_le_nth; [exact Hnd | lia | lia]. }
  pose proof (searchsorted_at_sample xs i Hinc Hi) as Hs.
  destruct xs as [|x0 xs']; [simpl in Hn; lia|].
  change (nth 0 (x0 :: xs') 0) with x0 in Hb1.
  rewrite Hb1, Hb2. cbn [orb]. cbv zeta. rewrite Hs.
  set (xs := x0 :: xs') in *.
  destruct (Nat.eq_dec i 0%nat) as [->|Hi0].
  - replace (Nat.min (Nat.max 0 1) (length xs - 1)) with 1%nat by lia.
    change (1 - 1)%nat with 0%nat.
    assert (H01 : nth 0 xs 0 < nth 1 xs 0)
      by (apply increasing_lt_nth; [exact Hinc | lia | lia]).
    rewrite fdiv_nonzero by lra. rsimpl. eexists. split; [reflexivity|]. ring.
  - replace (Nat.min (Nat.max i 1) (length xs - 1)) with i by lia.
    assert (Hlt : nth (i - 1) xs 0 < nth i xs 0)
      by (apply increasing_lt_nth; [exact Hinc | lia | exact Hi]).
    rewrite fdiv_nonzero by lra. rsimpl. eexists. split; [reflexivity|].
    field. lra.
Qed.

Lemma argmin_from_spec (l pre : list Q) (best : nat) :
  (best < length pre)%nat ->
  Forall (fun v => nth best pre 0 <= v) pre ->
  let r := argmin_from (length pre) best (nth best pre 0) l in
  (r < length (pre ++ l))%nat /\
  Forall (fun v => nth r (pre ++ l) 0 <= v) (pre ++ l).
Proof.
  revert pre best. induction l as [|a l IH]; intros pre best Hb Hall; simpl.
  - rewrite app_nil_r. auto.
  - assert (Happ : pre ++ a :: l = (pre ++ [a]) ++ l) by (rewrite <- app_assoc; reflexivity).
    assert (Hlen : S (length pre) = length (pre ++ [a]))
      by (rewrite length_app; simpl; lia).
    rewrite Happ, Hlen.
    destruct (Qltb a (nth best pre 0)) eqn:E.
    + apply Qltb_lt in E.
      assert (Hk : nth (length pre) (pre ++ [a]) 0 = a)
        by (rewrite app_nth2, Nat.sub_diag by lia; reflexivity).
      pose proof (IH (pre ++ [a]) (length pre)) as IH'.
      rewrite Hk in IH'. apply IH'.
      * rewrite length_app. simpl. lia.
      * apply Forall_app. split.
        -- eapply Forall_impl; [exact Hall|]. simpl. intros v Hv. lra.
        -- repeat constructor. apply Qle_refl.
    + apply Qltb_ge in E.
      assert (Hk : nth best (pre ++ [a]) 0 = nth best pre 0)
        by (apply app_nth1; exact Hb).
      pose proof (IH (pre ++ [a]) best) as IH'.
      rewrite Hk in IH'. apply IH'.
      * rewrite length_app. simpl. lia.
      * apply Forall_app. split; [exact Hall|]. repeat constructor. exact E.
Qed.

Lemma argmin_spec (l : list Q) (i : nat) :
  argmin l = Ok i ->
  (i < length l)%nat /\ Forall (fun v => nth i l 0 <= v) l.
Proof.
  destruct l as [|a l]; simpl; [discriminate|]. intros [= <-].
  apply (argmin_from_spec l [a] 0); [simpl; lia|].
  repeat constructor. apply Qle_refl.
Qed.

Lemma Forall2_nth_Q (P : Q -> Q -> Prop) (l k : list Q) (i : nat) :
  Forall2 P l k -> (i < length l)%nat -> P (nth i l 0) (nth i k 0).
Proof.
  intros H. revert i. induction H as [|a b l k Hab _ IH]; intros i Hi; simpl in Hi; [lia|].
  destruct i as [|i]; simpl; [exact Hab | apply IH; lia].
Qed.

(** The index that [_min_interp] picks. *)
Lemma min_interp_spec (f : interp) :
  increasing (interp_x f) -> length (interp_x f) = length (interp_y f) ->
  (2 <= length (interp_x f))%nat ->
  exists i,
    (i < length (interp_x f))%nat /\
    _min_interp f = Ok (nth i (interp_x f) 0) /\
    Forall (fun v => nth i (interp_y f) 0 <= v) (interp_y f).
Proof.
  intros Hinc Hlen Hn. unfold _min_interp.
  destruct (mapR_all_ok_with (fun _ => True) (interp_call f) (interp_x f))
    as (vals & Hvals & _ & Hlv).
  { apply List.Forall_forall. intros v Hv.
    apply (In_nth _ _ 0) in Hv as (j & Hj & <-).
    destruct (interp_call_at_sample f j Hinc Hlen Hn Hj) as (r & Hr & _). eauto. }
  rewrite Hvals. rsimpl.
  destruct (argmin vals) as [i|e] eqn:Hi.
  2: { destruct vals; [simpl in Hlv; lia | discriminate]. }
  rsimpl. destruct (argmin_spec vals i Hi) as [Hlt Hmin].
  exists i. split; [lia|]. split; [reflexivity|].
  assert (Hsame : forall j, (j < length (interp_x f))%nat ->
                            nth j vals 0 == nth j (interp_y f) 0).
  { intros j Hj. destruct (interp_call_at_sample f j Hinc Hlen Hn Hj) as (r & Hr & Hry).
    apply mapR_Forall2 in Hvals.
    pose proof (Forall2_nth_Q _ _ _ j Hvals Hj) as Hj'. simpl in Hj'.
    rewrite Hr in Hj'. injection Hj' as ->. exact Hry. }
  apply List.Forall_forall. intros v Hv.
  apply (In_nth _ _ 0) in Hv as (j & Hj & <-).
  rewrite List.Forall_forall in Hmin.
  assert (Hij : nth i vals 0 <= nth j vals 0) by (apply Hmin, nth_In; lia).
  rewrite <- (Hsame i) by lia. rewrite <- (Hsame j) by lia. exact Hij.
Qed.



(** X7: the constraint that [_ml_t_init] gives a node dated at a time
    t, 0 < t and t (1 + 1e-10) < MAX_T, has its optimum at t itself,
    provided the logarithm of 1e10 is above -500. *)
Theorem delta_optimum_is_node_time (log : Q -> Q) (t : Q) :
  0 < t -> t * (1 + lit_1e_10) < MAX_T -> -500 < log lit_1e10 ->
  exists f o,
    delta_neg_log_prob log t = Ok f /\ _min_interp f = Ok o /\ o == t.
Proof.
  intros Ht Hmax Hlog.
  destruct (delta_neg_log_prob_well_formed log t Ht Hmax) as (f & Hf & (Hinc & Hlen & _) & Hx).
  assert (Hy : interp_y f
               = map (Qmult (-1)) [MIN_LOG; MIN_LOG / 2; log lit_1e10; MIN_LOG / 2; MIN_LOG]).
  { unfold delta_neg_log_prob in Hf.
    apply interp1d_Ok in Hf as Hok. 
    rewrite interp1d_in_order in Hf; [injection Hf as <-; reflexivity|reflexivity|].
    apply increasing_nondecreasing.
    change ([MIN_T] ++ map (Qmult t) [1 - lit_1e_10; 1; 1 + lit_1e_10] ++ [MAX_T])
      with [MIN_T; t * (1 - lit_1e_10); t * 1; t * (1 + lit_1e_10); MAX_T].
    rewrite <- Hx. exact Hinc. }
  destruct (min_interp_spec f Hinc Hlen) as (i & Hi & Hmin & Hlow).
  { rewrite Hx. simpl. lia. }
  exists f, (nth i (interp_x f) 0). split; [exact Hf|]. split; [exact Hmin|].
  rewrite Hy in Hlow. rewrite Hx in Hi |- *. simpl in Hi.
  rewrite List.Forall_forall in Hlow.
  assert (H2 : nth i (interp_y f) 0 <= -1 * log lit_1e10).
  { rewrite Hy. apply Hlow. simpl. auto. }
  rewrite Hy in H2.
  assert (Hhalf : MIN_LOG / 2 == -500) by reflexivity.
  assert (Hfull : MIN_LOG == -1000) by reflexivity.
  destruct i as [|[|[|[|[|i]]]]]; cbn [map nth] in H2 |- *; try lia;
    try rewrite Hhalf in H2; try rewrite Hfull in H2; try lra.
Qed.

Lemma delta_optimum_is_node_time_witness :
  exists f o,
    delta_neg_log_prob log_approx 1 = Ok f /\ _min_interp f = Ok o /\ o == 1.
Proof. apply (delta_optimum_is_node_time log_approx 1); reflexivity. Defined.

(** ** Reading the dates file *)

Section ReadDatesFacts.
Variable strptime : string -> string -> result datetime.

Lemma try_strptime_cases (instr fmt : string) :
  match try_strptime strptime instr fmt with
  | Ok (Some d) => strptime instr fmt = Ok d
  | Ok None => strptime instr fmt = Raise ValueError
  | Raise e => strptime instr fmt = Raise e /\ e <> ValueError
  end.
Proof.
  unfold try_strptime. destruct (strptime instr fmt) as [d|[]]; try reflexivity;
    split; (reflexivity || discriminate).
Qed.

Lemma str_to_date_not_ValueError (instr : string) :
  str_to_date strptime instr <> Raise ValueError.
Proof.
  unfold str_to_date.
  pose proof (try_strptime_cases instr "%Y.%m.%d") as H1.
  pose proof (try_strptime_cases instr "%Y.%m") as H2.
  pose proof (try_strptime_cases instr "%Y") as H3.
  destruct (try_strptime strptime instr "%Y.%m.%d") as [[d|]|e]; rsimpl;
    [discriminate| |intros [= ->]; tauto].
  destruct (try_strptime strptime instr "%Y.%m") as [[d|]|e]; rsimpl;
    [discriminate| |intros [= ->]; tauto].
  destruct (try_strptime strptime instr "%Y") as [[d|]|e];
    [discriminate|discriminate|intros [= ->]; tauto].
Qed.

Lemma dates_entry_not_ValueError (s : string) :
  dates_entry strptime s <> Raise ValueError.
Proof.
  unfold dates_entry. destruct (py_split comma s !! 1%nat) as [f|]; rsimpl; [|discriminate].
  pose proof (str_to_date_not_ValueError (strip f)) as H.
  destruct (str_to_date strptime (strip f)) as [d|e]; rsimpl; [discriminate|].
  intros [= ->]. apply H. reflexivity.
Qed.

Lemma dates_step_Ok (dic : gmap string (option datetime)) (s : string) :
  dates_step strptime (Ok dic) s
  = if is_comment s then Ok dic
    else '(k, d) ← dates_entry strptime s; Ok (<[k := d]> dic).
Proof. reflexivity. Qed.

Lemma foldl_step_Raise (e : exn) (l : list string) :
  foldl (dates_step strptime) (Raise e) l = Raise e.
Proof. induction l as [|s l IH]; simpl; [reflexivity | exact IH]. Qed.

Lemma foldl_step_not_ValueError (l : list string) acc :
  acc <> Raise ValueError -> foldl (dates_step strptime) acc l <> Raise ValueError.
Proof.
  revert acc. induction l as [|s l IH]; intros acc Hacc; cbn [foldl]; [exact Hacc|].
  apply IH. destruct acc as [dic|e]; [|exact Hacc]. rewrite dates_step_Ok.
  destruct (is_comment s); [discriminate|].
  pose proof (dates_entry_not_ValueError s) as H.
  destruct (dates_entry strptime s) as [[k d]|e]; rsimpl; [discriminate|].
  intros [= ->]. apply H. reflexivity.
Qed.

Lemma dates_comprehension_not_ValueError (l : list string) :
  dates_comprehension strptime l <> Raise ValueError.
Proof. apply foldl_step_not_ValueError. discriminate. Qed.

Lemma foldl_step_Ok_inv (l : list string) acc dic :
  foldl (dates_step strptime) acc l = Ok dic -> exists dic0, acc = Ok dic0.
Proof.
  destruct acc as [dic0|e]; [eauto|]. rewrite foldl_step_Raise. discriminate.
Qed.

Lemma py_split_no_sep (sep : Ascii.ascii) (s : string) :
  ~ In sep (String.list_ascii_of_string s) -> py_split sep s = [s].
Proof.
  induction s as [|c s IH]; simpl; intros H; [reflexivity|].
  destruct (Ascii.eqb_spec c sep) as [->|Hc]; [exfalso; apply H; left; reflexivity|].
  rewrite IH; [reflexivity|]. intros Hin. apply H. right. exact Hin.
Qed.

Lemma foldl_step_size (l : list string) dic0 dic :
  foldl (dates_step strptime) (Ok dic0) l = Ok dic ->
  (size dic + length (List.filter is_comment l) <= size dic0 + length l)%nat.
Proof.
  revert dic0. induction l as [|s l IH]; intros dic0 H; cbn [foldl] in H.
  - injection H as <-. simpl. lia.
  - simpl. rewrite dates_step_Ok in H. destruct (is_comment s); simpl.
    + apply IH in H. lia.
    + destruct (dates_entry strptime s) as [[k d]|e]; rsimpl in H.
      * apply IH in H. pose proof (map_size_insert k d dic0) as Hs.
        destruct (dic0 !! k); simpl in Hs; lia.
      * rewrite foldl_step_Raise in H. discriminate.
Qed.

Lemma foldl_step_keeps (l : list string) dic0 dic (k : string) v :
  foldl (dates_step strptime) (Ok dic0) l = Ok dic ->
  dic0 !! k = Some v ->
  Forall (fun s' => is_comment s' = true \/ nth 0 (py_split comma s') EmptyString <> k) l ->
  dic !! k = Some v.
Proof.
  revert dic0. induction l as [|s l IH]; intros dic0 H Hk Hall; cbn [foldl] in H.
  - injection H as <-. exact Hk.
  - inversion Hall as [|s0 l0 Hs Hl]; subst. rewrite dates_step_Ok in H.
    destruct (is_comment s) eqn:Ec.
    + eapply IH; eauto.
    + destruct Hs as [Hs|Hs]; [discriminate|].
      destruct (dates_entry strptime s) as [[k' d]|e] eqn:Ee; rsimpl in H.
      * eapply IH; [exact H| |exact Hl].
        unfold dates_entry in Ee.
        destruct (py_split comma s !! 1%nat) as [f|]; rsimpl in Ee; [|discriminate].
        destruct (str_to_date strptime (strip f)); rsimpl in Ee; [|discriminate].
        injection Ee as <- <-. rewrite lookup_insert_ne; [exact Hk | exact Hs].
      * rewrite foldl_step_Raise in H. discriminate.
Qed.

Lemma read_dates_file_result (all_ss : list string) (verbose : option Z) :
  (_read_dates_file strptime all_ss verbose).1 = dates_comprehension strptime all_ss.
Proof.
  unfold _read_dates_file.
  pose proof (dates_comprehension_not_ValueError all_ss) as Hnv.
  destruct (dates_comprehension strptime all_ss) as [dic|e]; [reflexivity|].
  destruct e; try reflexivity. congruence.
Qed.

Lemma only_ValueError_step (l : list string) acc :
  (forall a b e', strptime a b = Raise e' -> e' = ValueError) ->
  (forall e, acc = Raise e -> e = IndexError) ->
  forall e, foldl (dates_step strptime) acc l = Raise e -> e = IndexError.
Proof.
  intros Hv. revert acc. induction l as [|s l IH]; intros acc Hacc e; cbn [foldl]; [apply Hacc|].
  apply IH. intros e1. destruct acc as [dic|e0].
  - rewrite dates_step_Ok. destruct (is_comment s); [discriminate|].
    unfold dates_entry.
    destruct (py_split comma s !! 1%nat) as [f|]; rsimpl; [|congruence].
    unfold str_to_date.
    pose proof (try_strptime_cases (strip f) "%Y.%m.%d") as H1.
    pose proof (try_strptime_cases (strip f) "%Y.%m") as H2.
    pose proof (try_strptime_cases (strip f) "%Y") as H3.
    destruct (try_strptime strptime (strip f) "%Y.%m.%d") as [[d|]|e2]; rsimpl;
      [discriminate| |destruct H1 as [H1 H1']; apply Hv in H1; contradiction].
    destruct (try_strptime strptime (strip f) "%Y.%m") as [[d|]|e2]; rsimpl;
      [discriminate| |destruct H2 as [H2 H2']; apply Hv in H2; contradiction].
    destruct (try_strptime strptime (strip f) "%Y") as [[d|]|e2]; rsimpl;
      [discriminate|discriminate|destruct H3 as [H3 H3']; apply Hv in H3; contradiction].
  - simpl. apply Hacc.
Qed.

(** X8: the handler of [ValueError] in [_read_dates_file] is never
    entered: [str_to_date] absorbs every [ValueError] of [strptime], so
    the message about a corrupted file is never printed and the result is
    that of the dictionary comprehension, error or not. *)
Theorem read_dates_file_never_reports_corruption
    (all_ss : list string) (verbose : option Z) :
  let r := _read_dates_file strptime all_ss verbose in
  ~ In corrupted_message r.2 /\ r.1 = dates_comprehension strptime all_ss.
Proof.
  cbv zeta. unfold _read_dates_file.
  pose proof (dates_comprehension_not_ValueError all_ss) as Hnv.
  assert (Hpre : ~ In corrupted_message
                   ((if (3 <? default 10%Z verbose)%Z then [reading_message] else []) ++
                    (if (5 <? default 10%Z verbose)%Z
                     then [loaded_message (length all_ss)] else []))).
  { intros Hin. apply in_app_or in Hin.
    destruct Hin as [Hin|Hin].
    - destruct (3 <? default 10%Z verbose)%Z; simpl in Hin; [|tauto].
      destruct Hin as [Hin|[]]. discriminate.
    - destruct (5 <? default 10%Z verbose)%Z; simpl in Hin; [|tauto].
      destruct Hin as [Hin|[]]. discriminate. }
  destruct (dates_comprehension strptime all_ss) as [dic|e]; cbn [fst snd].
  - split; [|reflexivity]. intros Hin. apply in_app_or in Hin.
    destruct Hin as [Hin|Hin]; [tauto|].
    destruct (3 <? default 10%Z verbose)%Z; simpl in Hin; [|tauto].
    destruct Hin as [Hin|[]]. discriminate.
  - destruct e; try (split; [exact Hpre | reflexivity]). congruence.
Qed.

(** X9: [str_to_date] returns [None] exactly when [strptime] rejects
    the string with a [ValueError] in each of the three formats. *)
Theorem str_to_date_none_iff_three_rejections (instr : string) :
  str_to_date strptime instr = Ok None <->
  Forall (fun fmt => strptime instr fmt = Raise ValueError) ["%Y.%m.%d"; "%Y.%m"; "%Y"]%string.
Proof.
  unfold str_to_date.
  pose proof (try_strptime_cases instr "%Y.%m.%d") as H1.
  pose proof (try_strptime_cases instr "%Y.%m") as H2.
  pose proof (try_strptime_cases instr "%Y") as H3.
  split.
  - intros H.
    destruct (try_strptime strptime instr "%Y.%m.%d") as [[d|]|e]; rsimpl in H;
      [discriminate| |discriminate].
    destruct (try_strptime strptime instr "%Y.%m") as [[d|]|e]; rsimpl in H;
      [discriminate| |discriminate].
    destruct (try_strptime strptime instr "%Y") as [[d|]|e];
      [discriminate| |discriminate].
    repeat constructor; assumption.
  - intros H. inversion H as [|? ? Ha H']; subst. inversion H' as [|? ? Hb H'']; subst.
    inversion H'' as [|? ? Hc _]; subst.
    unfold try_strptime. rewrite Ha, Hb, Hc. reflexivity.
Qed.

(** X10: a line that is not a comment and holds no comma makes
    [_read_dates_file] raise; when [strptime] raises nothing but
    [ValueError] the exception is the [IndexError] of [s.split(',')[1]],
    which the handler does not catch. *)
Theorem read_dates_file_line_without_comma
    (all_ss : list string) (verbose : option Z) (s : string) :
  In s all_ss -> is_comment s = false ->
  ~ In comma (String.list_ascii_of_string s) ->
  exists e,
    (_read_dates_file strptime all_ss verbose).1 = Raise e /\
    ((forall a b e', strptime a b = Raise e' -> e' = ValueError) -> e = IndexError).
Proof.
  intros Hin Hc Hno. rewrite read_dates_file_result.
  apply in_split in Hin as (pre & post & ->).
  unfold dates_comprehension. rewrite foldl_app. cbn [foldl].
  destruct (foldl (dates_step strptime) (Ok ∅) pre) as [dic|e0] eqn:Epre.
  - rewrite dates_step_Ok, Hc. unfold dates_entry.
    rewrite (py_split_no_sep comma s Hno). cbn [lookup list_lookup]. rsimpl.
    rewrite foldl_step_Raise. eauto.
  - cbn [dates_step mbind result_bind]. rewrite foldl_step_Raise.
    exists e0. split; [reflexivity|]. intros Hv.
    eapply (only_ValueError_step pre (Ok ∅) Hv); [discriminate | exact Epre].
Qed.

(** X11: when the dictionary is returned, a name is mapped to the date
    of the last line that starts with it: later lines that are comments
    or carry another name leave the entry alone. *)
Theorem read_dates_file_last_line_wins
    (pre post : list string) (s : string) (verbose : option Z)
    (dic : gmap string (option datetime)) :
  (_read_dates_file strptime (pre ++ s :: post) verbose).1 = Ok dic ->
  is_comment s = false ->
  Forall (fun s' => is_comment s' = true
                    \/ nth 0 (py_split comma s') EmptyString
                       <> nth 0 (py_split comma s) EmptyString) post ->
  exists field d,
    py_split comma s !! 1%nat = Some field /\
    str_to_date strptime (strip field) = Ok d /\
    dic !! nth 0 (py_split comma s) EmptyString = Some d.
Proof.
  rewrite read_dates_file_result. unfold dates_comprehension.
  rewrite foldl_app. cbn [foldl]. intros H Hc Hpost.
  destruct (foldl_step_Ok_inv _ _ _ H) as (dic1 & H1).
  rewrite H1 in H.
  destruct (foldl (dates_step strptime) (Ok ∅) pre) as [dic0|e0]; [|discriminate].
  rewrite dates_step_Ok, Hc in H1. unfold dates_entry in H1.
  destruct (py_split comma s !! 1%nat) as [f|]; rsimpl in H1; [|discriminate].
  destruct (str_to_date strptime (strip f)) as [d|e] eqn:Ed; rsimpl in H1; [|discriminate].
  injection H1 as <-. exists f, d. split; [reflexivity|]. split; [exact Ed|].
  eapply foldl_step_keeps; [exact H | apply lookup_insert_eq | exact Hpost].
Qed.

(** X12: the number of entries that the closing message reports as
    parsed leaves out every comment line, so each comment is counted
    among the corrupted lines; the message is printed last whenever the
    verbosity is above 3. *)
Theorem read_dates_file_counts_comments_as_corrupted
    (all_ss : list string) (verbose : option Z)
    (dic : gmap string (option datetime)) :
  (_read_dates_file strptime all_ss verbose).1 = Ok dic ->
  (size dic + length (List.filter is_comment all_ss) <= length all_ss)%nat /\
  ((3 < default 10 verbose)%Z ->
   List.last (_read_dates_file strptime all_ss verbose).2 EmptyString
   = parsed_message (size dic) (length all_ss)).
Proof.
  intros H. pose proof H as H'. rewrite read_dates_file_result in H'. split.
  - apply foldl_step_size in H'. rewrite map_size_empty in H'. lia.
  - intros Hv. unfold _read_dates_file. rewrite H'. cbn [snd].
    apply Z.ltb_lt in Hv. rewrite Hv. apply last_last.
Qed.
End ReadDatesFacts.

Lemma read_dates_file_line_without_comma_witness :
  exists e,
    (_read_dates_file strptime_year (example_dates_lines ++ ["C 2001"%string]) None).1
    = Raise e /\
    ((forall a b e', strptime_year a b = Raise e' -> e' = ValueError) -> e = IndexError).
Proof.
  apply (read_dates_file_line_without_comma strptime_year
           (example_dates_lines ++ ["C 2001"%string]) None "C 2001"%string).
  - apply in_or_app. right. left. reflexivity.
  - reflexivity.
  - vm_compute. intuition discriminate.
Defined.

Lemma read_dates_file_last_line_wins_witness :
  exists dic,
    (_read_dates_file strptime_year example_dates_lines None).1 = Ok dic /\
    dic !! "A"%string = Some (Some ((2010 - 1970) * 365 * 86400000000)%Z) /\
    exists field d,
      py_split comma ("A,2010" +:+ newline) !! 1%nat = Some field /\
      str_to_date strptime_year (strip field) = Ok d /\
      dic !! nth 0 (py_split comma ("A,2010" +:+ newline)) EmptyString = Some d.
Proof.
  eexists. split; [vm_compute; reflexivity|]. split; [vm_compute; reflexivity|].
  apply (read_dates_file_last_line_wins strptime_year
           ["#name,date" +:+ newline; "A,2000" +:+ newline; "B, 1990" +:+ newline] []
           ("A,2010" +:+ newline) None).
  - vm_compute. reflexivity.
  - reflexivity.
  - constructor.
Defined.

Lemma read_dates_file_counts_comments_as_corrupted_witness :
  exists dic,
    (_read_dates_file strptime_year example_dates_lines None).1 = Ok dic /\
    size dic = 2%nat /\
    (size dic + length (List.filter is_comment example_dates_lines)
     <= length example_dates_lines)%nat /\
    ((3 < default 10 None)%Z ->
     List.last (_read_dates_file strptime_year example_dates_lines None).2 EmptyString
     = parsed_message (size dic) (length example_dates_lines)).
Proof.
  eexists. split; [vm_compute; reflexivity|]. split; [vm_compute; reflexivity|].
  apply (read_dates_file_counts_comments_as_corrupted strptime_year example_dates_lines None).
  vm_compute. reflexivity.
Defined.

(** ** The two copies of the backward convolution *)

(** X13: for a node that carries a distribution, [_parent_neg_log_prob]
    computes what [_convolve] computes against the time axis from the
    node's distribution and its branch curve, errors included. *)
Theorem parent_neg_log_prob_is_backward_convolve
    (exp log : Q -> Q)
    (minimize_scalar : (Q -> result Q) -> Q -> Q -> result OptimizeResult)
    (self : TreeTime) (n : node) (g : nat) (src : interp) :
  neg_log_prob n = Present (Some src) ->
  _parent_neg_log_prob exp log minimize_scalar self n g
  = _convolve exp log minimize_scalar self (Some src) (branch_neg_log_prob n) true g.
Proof.
  intros Hs. unfold _parent_neg_log_prob, _convolve, _find_node_opt_pos.
  rewrite Hs. cbn [the_interp getattr]. rsimpl.
  destruct (_min_interp src) as [o|e]; rsimpl; [|reflexivity].
  destruct (branch_neg_log_prob n) as [br|]; cbn [the_interp]; rsimpl; [|reflexivity].
  destruct (opt_branch_length minimize_scalar self br) as [l|e]; rsimpl; reflexivity.
Qed.

Lemma parent_neg_log_prob_is_backward_convolve_witness :
  _parent_neg_log_prob exp_approx log_approx minimize3 example_config example_node 4
  = _convolve exp_approx log_approx minimize3 example_config (Some example_source)
      (branch_neg_log_prob example_node) true 4.
Proof.
  apply (parent_neg_log_prob_is_backward_convolve exp_approx log_approx minimize3
           example_config example_node 4 example_source).
  reflexivity.
Defined.

(** ** The fit stored by the plot *)



(** ** The final date of a node *)

(** What [_set_final_date] reads and what it leaves alone. *)
Lemma set_final_date_effect (self : TreeTime) (up : option node) (nd nd' : node) :
  _set_final_date self up nd = Ok nd' ->
  exists f dc,
    neg_log_prob nd = Present (Some f) /\ _min_interp f = Ok (abs_t nd') /\
    date2dist self = Some dc /\
    date nd' = match fdiv (abs_t nd' - DateConversion.intersect dc)
                       (DateConversion.slope dc) with
               | Ok d => Some d
               | Raise _ => None
               end /\
    name nd' = name nd /\ raw_date nd' = raw_date nd /\
    neg_log_prob nd' = neg_log_prob nd /\
    branch_neg_log_prob nd' = branch_neg_log_prob nd /\
    ml_t_prefactor nd' = ml_t_prefactor nd /\ profile nd' = profile nd.
Proof.
  unfold _set_final_date. intros H.
  bind_inv H as nlp Hnlp. bind_inv H as f Hf. bind_inv H as t Ht. bind_inv H as dc Hdc.
  injection H as <-.
  destruct (neg_log_prob nd) as [|[f0|]] eqn:En; simpl in Hnlp; try discriminate;
    injection Hnlp as <-; simpl in Hf; try discriminate.
  injection Hf as <-.
  destruct (date2dist self) as [dc0|]; [|discriminate]. injection Hdc as <-.
  exists f0, dc0. destruct up as [parent|]; cbn; rewrite ?En; repeat split; auto.
Qed.

(** X15: for a conversion with a slope other than 0, the date that
    [_set_final_date] stores is the quotient
    [(abs_t - intersect) / slope] at the final time of the node; a
    conversion object with the same slope and intersect, asked by
    [get_date] at that time, returns the absolute value of the stored
    date and prints its warning exactly when the stored date is
    positive. *)
Theorem set_final_date_agrees_with_get_date
    (self : TreeTime) (up : option node) (nd nd' : node) (dc dc' : DateConversion.t) :
  _set_final_date self up nd = Ok nd' ->
  date2dist self = Some dc ->
  ~ DateConversion.slope dc == 0 ->
  DateConversion.slope dc' = DateConversion.slope dc ->
  DateConversion.intersect dc' = DateConversion.intersect dc ->
  exists d v out,
    date nd' = Some d /\
    d = (abs_t nd' - DateConversion.intersect dc) / DateConversion.slope dc /\
    DateConversion.get_date dc' (abs_t nd') = Ok (v, out) /\
    v == Qabs d /\
    out = if Qltb 0 d then [DateConversion.negative_date_warning] else [].
Proof.
  intros H Hdc Hs Hs' Hi'.
  destruct (set_final_date_effect _ _ _ _ H) as (f & dc0 & _ & _ & Hdc0 & Hdate & _).
  rewrite Hdc in Hdc0. injection Hdc0 as <-.
  rewrite (fdiv_nonzero _ _ Hs) in Hdate.
  assert (Hsn : ~ DateConversion.slope dc' == 0) by (rewrite Hs'; exact Hs).
  destruct (get_date_spec dc' (abs_t nd') Hsn) as (v & out & Hg & Hv & Hout).
  rewrite Hs', Hi' in Hv, Hout.
  eexists _, v, out. split; [exact Hdate|]. split; [reflexivity|].
  split; [exact Hg|]. split; [exact Hv | exact Hout].
Qed.

Lemma set_final_date_agrees_with_get_date_witness :
  exists nd' d v out,
    _set_final_date example_config None example_node = Ok nd' /\
    date nd' = Some d /\ d == -350 /\
    DateConversion.get_date example_conversion (abs_t nd') = Ok (v, out) /\
    v == Qabs d /\ out = [].
Proof.
  destruct (_set_final_date example_config None example_node) as [nd'|e] eqn:E;
    [|vm_compute in E; discriminate].
  destruct (set_final_date_agrees_with_get_date example_config None example_node nd'
              example_conversion example_conversion E)
    as (d & v & out & H1 & H2 & H3 & H4 & H5);
    [reflexivity | vm_compute; discriminate | reflexivity | reflexivity |].
  exists nd', d, v, out. split; [reflexivity|]. split; [exact H1|].
  vm_compute in E. injection E as <-.
  split; [rewrite H2; reflexivity|]. split; [exact H3|]. split; [exact H4|].
  rewrite H5, H2. reflexivity.
Defined.

(** ** The two passes over the tree *)

Section Passes.
Variable exp : Q -> Q.
Variable log : Q -> Q.
Variable minimize_scalar : (Q -> result Q) -> Q -> Q -> result OptimizeResult.

Lemma same_placement_refl (n : node) : same_placement n n.
Proof. repeat split. Qed.

Lemma leaves_root_node_effect (self : TreeTime) (nd nd' : node) (cs : list node) (g : nat) :
  leaves_root_node exp log minimize_scalar self nd cs g = Ok nd' ->
  same_placement nd nd' /\ (forall f, neg_log_prob nd = Present (Some f) -> nd' = nd).
Proof.
  unfold leaves_root_node. intros H.
  assert (Hgen :
    (nlps ← mapR (fun k => f ← getattr (neg_log_prob k); Ok (k, f)) cs;
     match omap (fun kf => match snd kf with Some f => Some (fst kf, f) | None => None end)
                nlps with
     | [] => Ok nd
     | _ =>
         msgs ← mapR (fun kf =>
                        _convolve exp log minimize_scalar self (Some (snd kf))
                          (branch_neg_log_prob (fst kf)) true g)
                     (omap (fun kf => match snd kf with
                                      | Some f => Some (fst kf, f) | None => None end) nlps);
         '(new_neglogprob, prefactor) ←
           _multiply_dists self msgs (map ml_t_prefactor cs) g;
         Ok (set_ml_t_prefactor (set_neg_log_prob nd (Some new_neglogprob))
               (ml_t_prefactor nd + prefactor))
     end) = Ok nd' -> same_placement nd nd').
  { clear H. intros H. bind_inv H as nlps Hn.
    destruct (omap _ nlps) as [|kf inf].
    - injection H as <-. apply same_placement_refl.
    - bind_inv H as msgs Hm. bind_inv H as fp Hfp. destruct fp as [f p].
      injection H as <-. repeat split. }
  destruct (neg_log_prob nd) as [|[f|]] eqn:En.
  - split; [apply Hgen, H | discriminate].
  - injection H as <-. split; [apply same_placement_refl | reflexivity].
  - split; [apply Hgen, H | discriminate].
Qed.

Lemma leaves_root_clade_effect (self : TreeTime) (g : nat) (c : clade) :
  forall c' : clade,
    leaves_root_clade exp log minimize_scalar self g c = Ok c' ->
    Forall2 (fun n n' => same_placement n n' /\
                         forall f, neg_log_prob n = Present (Some f) -> n' = n)
            (preorder c) (preorder c') /\
    get_terminals c' = get_terminals c.
Proof.
  revert c. fix IH 1. intros [nd cs] c' H.
  assert (Hcs : forall cs',
             mapR (leaves_root_clade exp log minimize_scalar self g) cs = Ok cs' ->
             Forall2 (fun n n' => same_placement n n' /\
                                  forall f, neg_log_prob n = Present (Some f) -> n' = n)
                     (flat_map preorder cs) (flat_map preorder cs') /\
             flat_map get_terminals cs' = flat_map get_terminals cs /\
             length cs' = length cs).
  { clear H. induction cs as [|k cs IHcs]; intros cs' Hcs; simpl in Hcs.
    - injection Hcs as <-. simpl. split; [constructor | split; reflexivity].
    - bind_inv Hcs as k' Hk'. bind_inv Hcs as cs1 Hcs1. injection Hcs as <-.
      destruct (IH k _ Hk') as [Hk Htk].
      destruct (IHcs _ Hcs1) as (Hrest & Htrest & Hlen). simpl.
      split; [apply Forall2_app; assumption|].
      split; [rewrite Htk, Htrest; reflexivity | rewrite Hlen; reflexivity]. }
  destruct cs as [|k cs].
  - simpl in H. injection H as <-. simpl. split; [|reflexivity].
    constructor; [|constructor]. split; [apply same_placement_refl | reflexivity].
  - cbn [leaves_root_clade] in H. bind_inv H as cs' Hcs'. bind_inv H as nd' Hnd'.
    injection H as <-. destruct (Hcs _ Hcs') as (Hpre & Hterm & Hlen).
    split.
    + cbn [preorder]. constructor; [|exact Hpre].
      eapply leaves_root_node_effect, Hnd'.
    + destruct cs' as [|k' cs'']; [simpl in Hlen; lia|]. exact Hterm.
Qed.

Lemma root_leaves_node_effect (self : TreeTime) (up : option node) (nd nd' : node)
    (g : nat) :
  root_leaves_node exp log minimize_scalar self up nd g = Ok nd' ->
  name nd' = name nd /\ raw_date nd' = raw_date nd /\
  branch_neg_log_prob nd' = branch_neg_log_prob nd /\ profile nd' = profile nd /\
  at_optimum nd'.
Proof.
  unfold root_leaves_node. destruct up as [parent|].
  - intros H. bind_inv H as nlp Hnlp. bind_inv H as up_nlp Hup. bind_inv H as msg Hmsg.
    bind_inv H as nd1 Hnd1.
    destruct (set_final_date_effect _ _ _ _ H)
      as (f & dc & Hf & Hmin & _ & _ & Hn & Hr & Hp & Hb & _ & Hpr).
    assert (Hsame : name nd1 = name nd /\ raw_date nd1 = raw_date nd /\
                    branch_neg_log_prob nd1 = branch_neg_log_prob nd /\
                    profile nd1 = profile nd).
    { destruct nlp as [own|].
      - bind_inv Hnd1 as fp Hfp. destruct fp as [fin pre].
        bind_inv Hnd1 as o1 Ho1. bind_inv Hnd1 as upf Hupf. bind_inv Hnd1 as o2 Ho2.
        injection Hnd1 as <-. repeat split.
      - injection Hnd1 as <-. repeat split. }
    destruct Hsame as (H1 & H2 & H3 & H4).
    repeat split; try congruence.
    exists f. split; [congruence | exact Hmin].
  - intros H.
    destruct (set_final_date_effect _ _ _ _ H)
      as (f & dc & Hf & Hmin & _ & _ & Hn & Hr & Hp & Hb & _ & Hpr).
    repeat split; try assumption. exists f. split; [congruence | exact Hmin].
Qed.

Lemma root_leaves_clade_effect (self : TreeTime) (g : nat) (c : clade) :
  forall (up : option node) (c' : clade),
    root_leaves_clade exp log minimize_scalar self g up c = Ok c' ->
    Forall2 (fun n n' => name n' = name n /\ raw_date n' = raw_date n /\
                         branch_neg_log_prob n' = branch_neg_log_prob n /\
                         profile n' = profile n /\ at_optimum n')
            (preorder c) (preorder c').
Proof.
  revert c. fix IH 1. intros [nd cs] up c' H. simpl in H.
  bind_inv H as nd' Hnd. bind_inv H as cs0 Hcs0. injection H as <-. simpl.
  constructor; [eapply root_leaves_node_effect, Hnd|].
  clear Hnd. revert cs0 Hcs0.
  induction cs as [|k cs IHcs]; intros cs' Hcs; simpl in Hcs.
  - injection Hcs as <-. constructor.
  - bind_inv Hcs as k' Hk'. bind_inv Hcs as cs1 Hcs1. injection Hcs as <-.
    simpl. apply Forall2_app; [eapply IH, Hk' | apply IHcs, Hcs1].
Qed.

Lemma leaves_root_unconstrained (self : TreeTime) (g : nat) (c : clade) :
  Forall (fun n => neg_log_prob n = Present None) (preorder c) ->
  leaves_root_clade exp log minimize_scalar self g c = Ok c.
Proof.
  revert c. fix IH 1. intros [nd cs] Hall.
  simpl in Hall. inversion Hall as [|? ? Hnd Hrest]; subst.
  assert (Hcs : mapR (leaves_root_clade exp log minimize_scalar self g) cs = Ok cs).
  { clear Hall Hnd. induction cs as [|k cs IHcs]; [reflexivity|].
    simpl in Hrest. apply Forall_app in Hrest as [Hk Hrest].
    simpl. rewrite (IH k Hk). rsimpl. rewrite (IHcs Hrest). reflexivity. }
  assert (Hroots : Forall (fun n => neg_log_prob n = Present None) (map root cs)).
  { clear Hall Hnd Hcs. induction cs as [|k cs IHcs]; [constructor|].
    simpl in Hrest. apply Forall_app in Hrest as [Hk Hrest].
    simpl. constructor; [|apply IHcs, Hrest].
    destruct k as [kn kcs]. simpl in Hk. inversion Hk; subst. assumption. }
  destruct cs as [|k cs]; [reflexivity|].
  cbn [leaves_root_clade]. rewrite Hcs. rsimpl.
  unfold leaves_root_node. rewrite Hnd.
  assert (Hn : forall ks, Forall (fun n => neg_log_prob n = Present None) ks ->
               exists nlps,
                 mapR (fun k => f ← getattr (neg_log_prob k); Ok (k, f)) ks = Ok nlps /\
                 omap (fun kf : node * option interp =>
                         match snd kf with Some f => Some (fst kf, f) | None => None end)
                      nlps = []).
  { intros ks Hks. induction Hks as [|n ks Hn _ (nlps & Hm & Ho)].
    - exists []. split; reflexivity.
    - exists ((n, None) :: nlps). simpl. rewrite Hn. simpl. rewrite Hm. simpl.
      split; [reflexivity | exact Ho]. }
  destruct (Hn _ Hroots) as (nlps & Hm & Ho). rewrite Hm. rsimpl. rewrite Ho.
  reflexivity.
Qed.

(** X16: the up-pass changes nothing but the distribution of a node and
    its prefactor; the terminals come out as they went in, and so does
    every node that already carried a distribution, whatever its
    sub-clades say. *)
Theorem up_pass_changes_distributions_only (self self' : TreeTime) (g : nat) :
  _ml_t_leaves_root exp log minimize_scalar self g = Ok self' ->
  get_terminals (tree self') = get_terminals (tree self) /\
  Forall2 (fun n n' => same_placement n n' /\
                       forall f, neg_log_prob n = Present (Some f) -> n' = n)
          (preorder (tree self)) (preorder (tree self')).
Proof.
  unfold _ml_t_leaves_root. intros H. bind_inv H as c Hc. injection H as <-.
  cbn [tree with_tree].
  destruct (leaves_root_clade_effect _ _ _ _ Hc) as [Hpre Hterm].
  split; assumption.
Qed.

(** X17: when the down-pass returns, every node carries a distribution
    and its time [abs_t] is the optimum of that distribution; names, raw
    dates, branch curves and profiles are those of the tree that went
    in, node by node. *)
Theorem down_pass_leaves_every_node_at_its_optimum (self self' : TreeTime) (g : nat) :
  _ml_t_root_leaves exp log minimize_scalar self g = Ok self' ->
  Forall2 (fun n n' => name n' = name n /\ raw_date n' = raw_date n /\
                       branch_neg_log_prob n' = branch_neg_log_prob n /\
                       profile n' = profile n /\ at_optimum n')
          (preorder (tree self)) (preorder (tree self')).
Proof.
  unfold _ml_t_root_leaves. intros H. bind_inv H as c Hc. injection H as <-.
  cbn [tree with_tree]. eapply root_leaves_clade_effect, Hc.
Qed.

(** X18: on a tree in which no node has a distribution, the up-pass
    leaves the tree as it is and [ml_t] stops with an [AttributeError]
    at the root, where [_set_final_date] reads the grid of [None]. *)
Theorem ml_t_without_distributions_raises (self : TreeTime) :
  Forall (fun n => neg_log_prob n = Present None) (preorder (tree self)) ->
  _ml_t_leaves_root exp log minimize_scalar self 100 = Ok self /\
  ml_t exp log minimize_scalar self = Raise AttributeError.
Proof.
  intros Hall. unfold ml_t, _ml_t_leaves_root.
  rewrite (leaves_root_unconstrained self 100 (tree self) Hall). rsimpl.
  assert (Hs : with_tree self (tree self) = self) by (destruct self; reflexivity).
  rewrite Hs. split; [reflexivity|].
  unfold _ml_t_root_leaves. destruct (tree self) as [nd cs] eqn:Et.
  simpl in Hall. inversion Hall as [|? ? Hnd _]; subst.
  cbn [root_leaves_clade root_leaves_node]. unfold _set_final_date. rewrite Hnd.
  reflexivity.
Qed.
End Passes.

Lemma up_pass_changes_distributions_only_witness :
  exists s s',
    example_init = Ok s /\
    _ml_t_leaves_root exp_approx log_approx minimize3 s 4 = Ok s' /\
    get_terminals (tree s') = get_terminals (tree s) /\
    Forall2 (fun n n' => same_placement n n' /\
                         forall f, neg_log_prob n = Present (Some f) -> n' = n)
            (preorder (tree s)) (preorder (tree s')).
Proof.
  eexists. eexists. split; [vm_compute; reflexivity|].
  split; [vm_compute; reflexivity|].
  apply (up_pass_changes_distributions_only exp_approx log_approx minimize3 _ _ 4).
  vm_compute. reflexivity.
Defined.

Lemma down_pass_leaves_every_node_at_its_optimum_witness :
  exists self',
    _ml_t_root_leaves exp_approx log_approx minimize3 example_up_state 4 = Ok self' /\
    Forall2 (fun n n' => name n' = name n /\ raw_date n' = raw_date n /\
                         branch_neg_log_prob n' = branch_neg_log_prob n /\
                         profile n' = profile n /\ at_optimum n')
            (preorder (tree example_up_state)) (preorder (tree self')).
Proof.
  eexists. split; [vm_compute; reflexivity|].
  apply (down_pass_leaves_every_node_at_its_optimum exp_approx log_approx minimize3
           example_up_state _ 4).
  vm_compute. reflexivity.
Defined.

Lemma ml_t_without_distributions_raises_witness :
  _ml_t_leaves_root exp_approx log_approx minimize3 example_undated_self 100
  = Ok example_undated_self /\
  ml_t exp_approx log_approx minimize3 example_undated_self = Raise AttributeError.
Proof.
  apply (ml_t_without_distributions_raises exp_approx log_approx minimize3
           example_undated_self).
  repeat constructor.
Defined.

(** ** Initialising the nodes *)

Section Init.
Variable linregress : list Q -> list Q -> result (Q * Q * Q * Q * Q).
Variable log : Q -> Q.
Variable prob_t : list (list Q) -> list (list Q) -> Q -> Q.

Lemma make_branch_len_interpolator_effect (self : TreeTime) (up : option node)
    (nd nd' : node) (n : nat) :
  _make_branch_len_interpolator prob_t self up nd n = Ok nd' ->
  exists b, nd' = set_branch_neg_log_prob nd b.
Proof.
  unfold _make_branch_len_interpolator. destruct up as [parent|].
  - intros H. bind_inv H as grid Hg. bind_inv H as f Hf. injection H as <-. eauto.
  - intros [= <-]. eauto.
Qed.

Lemma ml_t_init_node_effect (self self1 : TreeTime) (dc : DateConversion.t)
    (up : option node) (nd nd1 : node) :
  ml_t_init_node log prob_t self dc up nd = Ok (self1, nd1) ->
  initialised log dc nd nd1 /\
  abs_t nd1 <= max_node_abs_t self1 /\
  max_node_abs_t self <= max_node_abs_t self1 /\
  date2dist self1 = date2dist self.
Proof.
  unfold ml_t_init_node. intros H.
  bind_inv H as rd Hrd. bind_inv H as nd0 Hnd0. bind_inv H as nd2 Hnd2.
  injection H as <- <-.
  apply make_branch_len_interpolator_effect in Hnd2 as (b & ->).
  assert (Hmax : abs_t nd0
                 <= max_node_abs_t (if Qltb (max_node_abs_t self) (abs_t nd0)
                                    then with_max_node_abs_t self (abs_t nd0) else self)
                 /\ max_node_abs_t self
                    <= max_node_abs_t (if Qltb (max_node_abs_t self) (abs_t nd0)
                                       then with_max_node_abs_t self (abs_t nd0) else self)
                 /\ date2dist (if Qltb (max_node_abs_t self) (abs_t nd0)
                               then with_max_node_abs_t self (abs_t nd0) else self)
                    = date2dist self).
  { destruct (Qltb (max_node_abs_t self) (abs_t nd0)) eqn:E.
    - apply Qltb_lt in E. cbn. repeat split; [apply Qle_refl | lra].
    - apply Qltb_ge in E. repeat split; [exact E | apply Qle_refl]. }
  destruct Hmax as (H1 & H2 & H3).
  split; [|split; [exact H1 | split; [exact H2 | exact H3]]].
  unfold initialised. destruct (raw_date nd) as [|[d|]] eqn:Er; simpl in Hrd;
    [discriminate| |]; injection Hrd as <-.
  - bind_inv Hnd0 as f Hf. injection Hnd0 as <-. cbn. rewrite Er.
    repeat split; eauto.
  - injection Hnd0 as <-. cbn. rewrite Er. repeat split.
Qed.

Lemma ml_t_init_clade_effect (dc : DateConversion.t) (c : clade) :
  forall (self self' : TreeTime) (up : option node) (c' : clade),
    ml_t_init_clade log prob_t self dc up c = Ok (self', c') ->
    Forall2 (initialised log dc) (preorder c) (preorder c') /\
    Forall (fun n => abs_t n <= max_node_abs_t self') (preorder c') /\
    max_node_abs_t self <= max_node_abs_t self' /\
    date2dist self' = date2dist self.
Proof.
  revert c. fix IH 1. intros [nd cs] self self' up c' H.
  cbn [ml_t_init_clade] in H.
  bind_inv H as p Hp. destruct p as [self1 nd1].
  bind_inv H as q Hq. destruct q as [self2 cs2]. injection H as <- <-.
  assert (Hgo :
    Forall2 (initialised log dc) (flat_map preorder cs) (flat_map preorder cs2) /\
    Forall (fun n => abs_t n <= max_node_abs_t self2) (flat_map preorder cs2) /\
    max_node_abs_t self1 <= max_node_abs_t self2 /\
    date2dist self2 = date2dist self1).
  { clear Hp. revert self1 self2 cs2 Hq.
    induction cs as [|k cs IHcs]; intros self1 self2 cs2 Hq.
    - injection Hq as <- <-. simpl.
      split; [constructor | split; [constructor | split; [apply Qle_refl | reflexivity]]].
    - bind_inv Hq as p Hp. destruct p as [selfk k'].
      bind_inv Hq as q Hq'. destruct q as [selfr cs0']. injection Hq as <- <-.
      destruct (IH k _ _ _ _ Hp) as (Hk1 & Hk2 & Hk3 & Hk4).
      destruct (IHcs _ _ _ Hq') as (Hr1 & Hr2 & Hr3 & Hr4).
      simpl. split; [apply Forall2_app; assumption|].
      split; [|split; [eapply Qle_trans; eassumption | congruence]].
      apply Forall_app. split; [|exact Hr2].
      eapply Forall_impl; [exact Hk2|]. simpl. intros n Hn.
      eapply Qle_trans; eassumption. }
  destruct (ml_t_init_node_effect _ _ _ _ _ _ Hp) as (Hi & Hb & Hm & Hd).
  destruct Hgo as (Hg1 & Hg2 & Hg3 & Hg4). simpl.
  split; [constructor; assumption|].
  split; [|split; [eapply Qle_trans; eassumption | congruence]].
  constructor; [eapply Qle_trans; eassumption | exact Hg2].
Qed.

Lemma ml_t_init_effect (self self' : TreeTime) (dc : DateConversion.t) :
  date2dist self = Some dc ->
  (_ml_t_init log prob_t self).1 = Ok self' ->
  Forall2 (initialised log dc) (preorder (tree self)) (preorder (tree self')) /\
  Forall (fun n => abs_t n <= max_node_abs_t self') (preorder (tree self')) /\
  max_node_abs_t self <= max_node_abs_t self' /\
  date2dist self' = Some dc /\
  (_ml_t_init log prob_t self).2 = [].
Proof.
  intros Hdc. unfold _ml_t_init. rewrite Hdc. cbn [fst snd]. intros H.
  bind_inv H as p Hp. destruct p as [self1 c]. injection H as <-.
  destruct (ml_t_init_clade_effect _ _ _ _ _ _ Hp) as (H1 & H2 & H3 & H4).
  cbn [tree with_tree max_node_abs_t date2dist].
  repeat split; try assumption. congruence.
Qed.

(** X19: when [_ml_t_init] returns on an object that has a conversion,
    every node has prefactor 0, a dated node sits on the fitted line and
    carries the narrow well at that time, an undated node sits at its
    distance from the root with no distribution, and the depth
    [max_node_abs_t] that is left is at least the time of every node and
    at least what it was; nothing is printed. *)
Theorem ml_t_init_places_and_bounds_every_node
    (self self' : TreeTime) (dc : DateConversion.t) :
  date2dist self = Some dc ->
  (_ml_t_init log prob_t self).1 = Ok self' ->
  Forall2 (initialised log dc) (preorder (tree self)) (preorder (tree self')) /\
  Forall (fun n => abs_t n <= max_node_abs_t self') (preorder (tree self')) /\
  max_node_abs_t self <= max_node_abs_t self' /\
  date2dist self' = Some dc /\
  (_ml_t_init log prob_t self).2 = [].
Proof. apply ml_t_init_effect. Qed.

(** X20: [init_date_constraints] never reaches the message of
    [_ml_t_init] about a missing conversion: it prints nothing, passes on
    the exception of [from_tree] when the fit fails, and when it returns
    the object holds the conversion that [from_tree] fitted and every
    node is initialised for that conversion. *)
Theorem init_date_constraints_fits_then_initialises (self : TreeTime) :
  (init_date_constraints linregress log prob_t self).2 = [] /\
  (forall e, from_tree linregress (tree self) = Raise e ->
             (init_date_constraints linregress log prob_t self).1 = Raise e) /\
  (forall self', (init_date_constraints linregress log prob_t self).1 = Ok self' ->
     exists dc,
       from_tree linregress (tree self) = Ok dc /\
       date2dist self' = Some dc /\
       Forall2 (initialised log dc) (preorder (tree self)) (preorder (tree self')) /\
       Forall (fun n => abs_t n <= max_node_abs_t self') (preorder (tree self'))).
Proof.
  unfold init_date_constraints.
  destruct (from_tree linregress (tree self)) as [dc|e0] eqn:Ef.
  - set (s := MkTreeTime (tree self) (Some dc) (max_node_abs_t self)).
    split; [|split].
    + unfold _ml_t_init. reflexivity.
    + discriminate.
    + intros self' H. exists dc. split; [reflexivity|].
      destruct (ml_t_init_effect s self' dc eq_refl H) as (H1 & H2 & _ & H4 & _).
      repeat split; assumption.
  - split; [reflexivity|]. split; [intros e [= <-]; reflexivity | discriminate].
Qed.
End Init.

Lemma ml_t_init_places_and_bounds_every_node_witness :
  exists self',
    (_ml_t_init log_approx prob_parabola example_self).1 = Ok self' /\
    map (fun n => (name n, Qred (abs_t n))) (preorder (tree self'))
    = [(Some "root"%string, 0); (Some "A"%string, 1); (Some "B"%string, 2)] /\
    Qred (max_node_abs_t self') = 2 /\
    Forall2 (initialised log_approx example_conversion)
            (preorder (tree example_self)) (preorder (tree self')) /\
    Forall (fun n => abs_t n <= max_node_abs_t self') (preorder (tree self')) /\
    max_node_abs_t example_self <= max_node_abs_t self' /\
    date2dist self' = Some example_conversion /\
    (_ml_t_init log_approx prob_parabola example_self).2 = [].
Proof.
  eexists. split; [vm_compute; reflexivity|].
  split; [vm_compute; reflexivity|]. split; [vm_compute; reflexivity|].
  apply (ml_t_init_places_and_bounds_every_node log_approx prob_parabola example_self _
           example_conversion); [reflexivity|].
  vm_compute. reflexivity.
Defined.

Lemma init_date_constraints_fits_then_initialises_witness :
  exists self',
    (init_date_constraints linregress_chord log_approx prob_parabola
       (MkTreeTime example_tree None 0)).1 = Ok self' /\
    date2dist self' = Some (DateConversion.Make (- (1 # 50)) 3 1 0 0) /\
    Forall2 (initialised log_approx (DateConversion.Make (- (1 # 50)) 3 1 0 0))
            (preorder example_tree) (preorder (tree self')).
Proof.
  destruct (init_date_constraints_fits_then_initialises linregress_chord log_approx
              prob_parabola (MkTreeTime example_tree None 0)) as (_ & _ & H).
  destruct (init_date_constraints linregress_chord log_approx prob_parabola
              (MkTreeTime example_tree None 0)).1 as [self'|e] eqn:E;
    [|vm_compute in E; discriminate].
  destruct (H self' eq_refl) as (dc & Hf & Hd & Hall & _).
  vm_compute in Hf. injection Hf as <-.
  exists self'. split; [reflexivity|]. split; [exact Hd | exact Hall].
Defined.

(** ** Dates that are not in the future *)

Lemma set_dates_loop_terminals (now : datetime) (dic : gmap string (option datetime))
    (c : clade) :
  get_terminals (set_dates_loop now dic c).1 =
  map (fun n => (set_date_of_node now dic n).1) (get_terminals c).
Proof.
  revert c. fix IH 1. intros [n cs]. simpl.
  destruct (set_date_of_node now dic n) as [n' out] eqn:E. simpl.
  assert (Hfm : flat_map get_terminals (map fst (map (set_dates_loop now dic) cs))
                = map (fun n => (set_date_of_node now dic n).1)
                      (flat_map get_terminals cs)).
  { induction cs as [|k cs IHcs]; simpl; [reflexivity|].
    rewrite map_app, IH. f_equal. exact IHcs. }
  destruct cs as [|k cs]; [simpl; rewrite E; reflexivity|]. exact Hfm.
Qed.

Lemma set_dates_loop_output (now : datetime) (dic : gmap string (option datetime))
    (c : clade) :
  (set_dates_loop now dic c).2 =
  concat (map (fun n => (set_date_of_node now dic n).2) (preorder c)).
Proof.
  revert c. fix IH 1. intros [n cs]. simpl.
  destruct (set_date_of_node now dic n) as [n' out] eqn:E. simpl. f_equal.
  induction cs as [|k cs IHcs]; simpl; [reflexivity|].
  rewrite map_app, concat_app, IH. f_equal. exact IHcs.
Qed.

Lemma set_date_of_node_no_future (now : datetime) (dic : gmap string (option datetime))
    (n : node) :
  (forall k d, dic !! k = Some (Some d) -> (d <= now)%Z) ->
  (set_date_of_node now dic n).2 = [] /\
  exists v, raw_date (set_date_of_node now dic n).1 = Present v.
Proof.
  intros Hpast. unfold set_date_of_node.
  destruct (name n ≫= (dic !!.)) as [[d|]|] eqn:E; simpl; [|eauto..].
  assert (Hd : (d <= now)%Z).
  { destruct (name n) as [k|]; simpl in E; [|discriminate]. eapply Hpast, E. }
  assert (Hdays : (timedelta_days now d <? 0)%Z = false).
  { apply Z.ltb_ge. unfold timedelta_days. apply Z.div_pos; lia. }
  rewrite Hdays. simpl. eauto.
Qed.

(** X21: when no date of the dictionary is later than [now],
    [_set_dates_to_all_nodes] prints nothing, every terminal has a
    [raw_date] to sort by when the tree is rerooted, and the call
    returns. *)
Theorem set_dates_without_future_dates_returns
    (root_with_outgroup : clade -> nat -> clade) (_add_node_params : clade -> clade)
    (now : datetime) (dic : gmap string (option datetime)) (c : clade) :
  (forall k d, dic !! k = Some (Some d) -> (d <= now)%Z) ->
  exists c',
    _set_dates_to_all_nodes root_with_outgroup _add_node_params now dic c = (Ok c', []).
Proof.
  intros Hpast. unfold _set_dates_to_all_nodes.
  pose proof (set_dates_loop_terminals now dic c) as Hterm.
  pose proof (set_dates_loop_output now dic c) as Hout.
  destruct (set_dates_loop now dic c) as [c1 out]. cbn [fst snd] in Hterm, Hout.
  assert (Hnil : out = []).
  { rewrite Hout. clear Hout. induction (preorder c) as [|n l IH]; [reflexivity|].
    simpl. rewrite (proj1 (set_date_of_node_no_future now dic n Hpast)). exact IH. }
  clear Hout. subst out.
  unfold reroot_to_oldest, reroot_keys.
  destruct (mapR_all_ok_with (fun _ => True) (fun n => getattr (raw_date n))
              (get_terminals c1)) as (keys & Hkeys & _ & Hlen).
  { rewrite Hterm. apply List.Forall_forall. intros n' Hn'.
    apply in_map_iff in Hn' as (n & <- & _).
    destruct (set_date_of_node_no_future now dic n Hpast) as [_ (v & Hv)].
    rewrite Hv. exists v. split; [reflexivity | exact I]. }
  rewrite Hkeys. rsimpl.
  destruct keys as [|k keys].
  - pose proof (get_terminals_nonempty c1) as Hne.
    destruct (get_terminals c1); [contradiction | simpl in Hlen; lia].
  - cbn [last_sorted]. rsimpl. eexists. reflexivity.
Qed.

Lemma set_dates_without_future_dates_returns_witness :
  exists c',
    _set_dates_to_all_nodes (fun c _ => c) (fun c => c) 8640000000000%Z
      {[ "A"%string := Some 0%Z ]} example_tree = (Ok c', []).
Proof.
  apply (set_dates_without_future_dates_returns (fun c _ => c) (fun c => c)
           8640000000000%Z {[ "A"%string := Some 0%Z ]} example_tree).
  intros k d H. apply lookup_singleton_Some in H as [_ H]. injection H as <-. lia.
Defined.

(** ** Curves that do not cover the grid of the combiner *)

Lemma mapR_cases {A B : Type} (e : exn) (f : A -> result B) (l : list A) :
  Forall (fun a => (exists b, f a = Ok b) \/ f a = Raise e) l ->
  (exists bs, mapR f l = Ok bs) \/ mapR f l = Raise e.
Proof.
  induction 1 as [|a l [(b & Hb)|Hb] _ [(bs & Hbs)|Hbs]]; simpl.
  - left. eauto.
  - rewrite Hb, Hbs. rsimpl. left. eauto.
  - rewrite Hb, Hbs. rsimpl. right. reflexivity.
  - rewrite Hb. rsimpl. right. reflexivity.
  - rewrite Hb. rsimpl. right. reflexivity.
Qed.

Lemma mapR_raises {A B : Type} (e : exn) (f : A -> result B) (l : list A) :
  Forall (fun a => (exists b, f a = Ok b) \/ f a = Raise e) l ->
  Exists (fun a => f a = Raise e) l ->
  mapR f l = Raise e.
Proof.
  intros Hall Hex. induction Hall as [|a l Ha Hall IH]; [inversion Hex|].
  simpl. destruct Ha as [(b & Hb)|Hb]; rewrite Hb; rsimpl; [|reflexivity].
  inversion Hex as [? ? Hbad|? ? Hex']; subst; [congruence|].
  rewrite (IH Hex'). reflexivity.
Qed.

Lemma interp_call_cases (f : interp) (v : Q) :
  callable f -> (exists r, interp_call f v = Ok r) \/ interp_call f v = Raise ValueError.
Proof.
  intros Hc. pose proof Hc as [Hlen H01].
  destruct (interp_x f) as [|x0 xs] eqn:Ex; [simpl in Hlen; lia|].
  destruct (Qltb v x0 || Qltb (List.last (interp_x f) x0) v) eqn:E.
  - right. unfold interp_call. rewrite Ex. rewrite Ex in E. rewrite E. reflexivity.
  - left. apply orb_false_iff in E as [E1 E2].
    apply Qltb_ge in E1. apply Qltb_ge in E2.
    apply interp_call_defined; [exact Hc | rewrite Ex; exact E1 |].
    rewrite last_nth. rewrite last_nth in E2.
    rewrite (nth_indep _ 0 x0) by (rewrite Ex; simpl; lia). exact E2.
Qed.

Lemma interp_call_below (f : interp) (v : Q) :
  interp_x f <> [] -> v < nth 0 (interp_x f) 0 -> interp_call f v = Raise ValueError.
Proof.
  intros Hne Hv. unfold interp_call.
  destruct (interp_x f) as [|x0 xs]; [contradiction|].
  simpl in Hv. rewrite (proj2 (Qltb_lt v x0) Hv). reflexivity.
Qed.

(** X22: the combiner does not extrapolate.  When one of its inputs is
    short, so that the grid is the union of the input grids, and one
    input starts to the left of another, [_multiply_dists] raises the
    [ValueError] of the curve that is called below its range. *)
Theorem multiply_dists_raises_outside_common_range
    (self : TreeTime) (interps : list interp) (prefactors : list Q) (g : nat)
    (f k : interp) :
  Forall callable interps ->
  Exists (fun h => (length (interp_x h) < 10)%nat) interps ->
  In f interps -> In k interps ->
  nth 0 (interp_x f) 0 < nth 0 (interp_x k) 0 ->
  _multiply_dists self interps prefactors g = Raise ValueError.
Proof.
  intros Hcall Hshort Hf Hk Hlt. unfold _multiply_dists.
  assert (Hgrid : multiply_grid self interps g
                  = Ok (np_unique (concat (map interp_x interps)))).
  { unfold multiply_grid.
    destruct (np_min_defined
                (map (fun h => inject_Z (Z.of_nat (length (interp_x h)))) interps))
      as (m & Hm).
    { destruct interps; [inversion Hshort | discriminate]. }
    rewrite Hm. rsimpl.
    pose proof (proj2 (np_min_lengths_lt interps m 10 Hm) Hshort) as Hq.
    change (qn 10) with 10 in Hq. rewrite Hq. reflexivity. }
  rewrite Hgrid. rsimpl.
  set (grid := np_unique (concat (map interp_x interps))).
  assert (Hsum : pointwise_sum interps grid = Raise ValueError).
  { unfold pointwise_sum.
    rewrite (mapR_raises ValueError (fun h => mapR (interp_call h) grid) interps);
      [reflexivity| |].
    - rewrite List.Forall_forall in Hcall. apply List.Forall_forall. intros h Hh.
      apply mapR_cases. apply List.Forall_forall. intros v _.
      apply interp_call_cases, Hcall, Hh.
    - apply List.Exists_exists. exists k. split; [exact Hk|].
      rewrite List.Forall_forall in Hcall.
      apply mapR_raises.
      + apply List.Forall_forall. intros v _. apply interp_call_cases, Hcall, Hk.
      + assert (Hin : In (nth 0 (interp_x f) 0) (concat (map interp_x interps))).
        { apply in_concat. exists (interp_x f). split; [apply in_map, Hf|].
          apply nth_In. destruct (Hcall f Hf). lia. }
        apply np_unique_covers in Hin as (b & Hb & Hab).
        apply List.Exists_exists. exists b. split; [exact Hb|].
        apply interp_call_below.
        * destruct (Hcall k Hk) as [Hl _]. destruct (interp_x k); [simpl in Hl; lia|].
          discriminate.
        * rewrite <- Hab. exact Hlt. }
  rewrite Hsum. reflexivity.
Qed.

Lemma multiply_dists_raises_outside_common_range_witness :
  _multiply_dists example_config [example_early; example_late] [0; 0] 4
  = Raise ValueError.
Proof.
  apply (multiply_dists_raises_outside_common_range example_config
           [example_early; example_late] [0; 0] 4 example_early example_late).
  - repeat constructor; simpl; lia.
  - left. simpl. lia.
  - left. reflexivity.
  - right. left. reflexivity.
  - reflexivity.
Defined.

(** ** A tree with one terminal *)

(** X23: on a tree with a single terminal, one turn of the loop of
    [_ml_t_init] at a node below the root on a branch of length 1e-5 or
    more stops with the division by zero of [average_branch_len], which
    the branch grid needs for its width. *)
Theorem ml_t_init_node_single_terminal_raises
    (log : Q -> Q) (prob_t : list (list Q) -> list (list Q) -> Q -> Q)
    (self : TreeTime) (dc : DateConversion.t) (parent nd : node) :
  count_terminals (tree self) = 1%nat ->
  raw_date nd <> Absent ->
  lit_1e_5 <= branch_length nd ->
  ml_t_init_node log prob_t self dc (Some parent) nd = Raise DivByZero.
Proof.
  intros Hone Hrd Hbl. unfold ml_t_init_node.
  assert (Hgrid : forall (s : TreeTime) (n : node),
             tree s = tree self -> branch_length n = branch_length nd ->
             _make_branch_len_interpolator prob_t s (Some parent) n 25 = Raise DivByZero).
  { intros s n Hs Hn. unfold _make_branch_len_interpolator, branch_len_grid.
    rewrite Hn, (proj2 (Qltb_ge _ _) Hbl).
    unfold average_branch_len. rewrite Hs, Hone. reflexivity. }
  assert (Hself : forall t, tree (if Qltb (max_node_abs_t self) t
                                  then with_max_node_abs_t self t else self) = tree self).
  { intros t. destruct (Qltb (max_node_abs_t self) t); reflexivity. }
  destruct (raw_date nd) as [|[d|]]; [contradiction| |]; cbn [getattr]; rsimpl.
  - unfold delta_neg_log_prob, interp1d. cbn [length app map Nat.eqb negb]. rsimpl.
    rewrite Hgrid; [reflexivity | apply Hself | reflexivity].
  - rewrite Hgrid; [reflexivity | apply Hself | reflexivity].
Qed.

Lemma ml_t_init_node_single_terminal_raises_witness :
  ml_t_init_node log_approx prob_parabola example_config example_conversion
    (Some example_node) example_node = Raise DivByZero.
Proof.
  apply (ml_t_init_node_single_terminal_raises log_approx prob_parabola example_config
           example_conversion example_node example_node).
  - reflexivity.
  - discriminate.
  - vm_compute. discriminate.
Defined.

(** ** The pass that only sets the final dates *)

Lemma root_leaves_tmp_clade_effect (self : TreeTime) (c : clade) :
  forall (up : option node) (c' : clade),
    root_leaves_tmp_clade self up c = Ok c' ->
    Forall2 (fun n n' => neg_log_prob n' = neg_log_prob n /\
                         ml_t_prefactor n' = ml_t_prefactor n /\
                         name n' = name n /\ at_optimum n')
            (preorder c) (preorder c') /\
    finalized up (root c') /\
    Forall (fun e => finalized (Some e.1) e.2) (edges c').
Proof.
  revert c. fix IH 1. intros [nd cs] up c' H. simpl in H.
  bind_inv H as nd' Hnd. bind_inv H as cs0 Hcs0. injection H as <-. simpl.
  assert (Hcs : Forall2 (fun n n' => neg_log_prob n' = neg_log_prob n /\
                                     ml_t_prefactor n' = ml_t_prefactor n /\
                                     name n' = name n /\ at_optimum n')
                        (flat_map preorder cs) (flat_map preorder cs0) /\
                Forall (fun e => finalized (Some e.1) e.2)
                       (map (fun k => (nd', root k)) cs0 ++ flat_map edges cs0)).
  { clear Hnd. revert cs0 Hcs0.
    induction cs as [|k cs IHcs]; intros cs' Hcs; simpl in Hcs.
    - injection Hcs as <-. split; constructor.
    - bind_inv Hcs as k' Hk'. bind_inv Hcs as cs1 Hcs1. injection Hcs as <-.
      destruct (IH k _ _ Hk') as (Hk & Hfk & Hek).
      destruct (IHcs _ Hcs1) as [Hrest Herest]. simpl.
      split; [apply Forall2_app; assumption|].
      apply Forall_app in Herest as [Hroots Hr].
      constructor; [exact Hfk|].
      apply Forall_app. split; [exact Hroots|].
      apply Forall_app. split; assumption. }
  destruct Hcs as [Hpre Hedges].
  destruct (set_final_date_effect _ _ _ _ Hnd)
    as (f & dc & Hf & Hmin & _ & _ & Hn & _ & Hp & _ & Hpre' & _).
  split; [|split; [eapply set_final_date_finalized, Hnd | exact Hedges]].
  constructor; [|exact Hpre].
  repeat split; try assumption. exists f. split; [congruence | exact Hmin].
Qed.

(** X24: [_ml_t_root_leaves_tmp] leaves the distribution and the
    prefactor of every node as they are, places every node at the optimum
    of its distribution and sets the branch lengths and distances from
    the root from those times, as the down-pass does. *)
Theorem root_leaves_tmp_places_without_propagating (self self' : TreeTime) :
  _ml_t_root_leaves_tmp self = Ok self' ->
  Forall2 (fun n n' => neg_log_prob n' = neg_log_prob n /\
                       ml_t_prefactor n' = ml_t_prefactor n /\
                       name n' = name n /\ at_optimum n')
          (preorder (tree self)) (preorder (tree self')) /\
  finalized None (root (tree self')) /\
  Forall (fun e => finalized (Some e.1) e.2) (edges (tree self')).
Proof.
  unfold _ml_t_root_leaves_tmp. intros H. bind_inv H as c Hc. injection H as <-.
  cbn [tree with_tree]. eapply root_leaves_tmp_clade_effect, Hc.
Qed.

Lemma root_leaves_tmp_places_without_propagating_witness :
  exists self',
    _ml_t_root_leaves_tmp example_up_state = Ok self' /\
    Forall2 (fun n n' => neg_log_prob n' = neg_log_prob n /\
                         ml_t_prefactor n' = ml_t_prefactor n /\
                         name n' = name n /\ at_optimum n')
            (preorder (tree example_up_state)) (preorder (tree self')) /\
    finalized None (root (tree self')) /\
    Forall (fun e => finalized (Some e.1) e.2) (edges (tree self')).
Proof.
  eexists. split; [vm_compute; reflexivity|].
  apply (root_leaves_tmp_places_without_propagating example_up_state).
  vm_compute. reflexivity.
Defined.
